(** * pymatgen.util.coord: coordinate utilities, embedded and verified

    The embedding follows [src/pymatgen/util/coord.py]: the tolerance-based
    matching functions, [coord_list_mapping], linear interpolation,
    [pbc_diff] and the periodic search, [lattice_points_in_supercell] and
    [barycentric_coords] and the class [Simplex].  Not embedded: the
    wrappers of the compiled extension ([coord_list_mapping_pbc],
    [pbc_shortest_vectors], [is_coord_subset_pbc]), [all_distances] and
    [get_angle].

    Modelling conventions.
    - numpy's float64 entries are exact rationals ([Q]): every arithmetic
      operation and comparison is the exact one, so rounding error, NaN and
      infinities are outside the model.  [np.linalg.inv] and
      [np.linalg.det] are the exact inverse (by Gauss-Jordan elimination)
      and determinant (by expansion along the first row).  The values the
      model computes are what float64 approximates; an outcome that hinges
      on rounding is not decided by it: whether [np.linalg.inv] meets a
      pivot that is exactly zero on a singular matrix, or on which side of
      a tolerance a rounded entry of an inverse falls.  The results on
      [lattice_points_in_supercell] below are therefore results on the
      exact idealisation only.
    - A numpy 1-d array is a [list Q], a 2-d array the list of its rows;
      integer arrays are lists over [Z].  Broadcasting is modelled for
      these two ranks.
    - A Python exception is a value of [exn]; a function that can raise
      returns a [result].  Default arguments are passed explicitly
      ([default_atol] is the module's 1e-8). *)

From Stdlib Require Import String.
From Stdlib Require Import ZArith QArith Qround Qabs Qminmax Lqa Lia.
From Stdlib Require Import List Bool Arith Factorial Permutation Sorted FinFun.
Import ListNotations.
Local Open Scope Q_scope.

(** ** Exceptions and the error monad *)

Inductive exn : Type :=
| ValueError (msg : string)
| IndexError
| AttributeError
| LinAlgError (msg : string).

Inductive result (A : Type) : Type :=
| Ok (a : A)
| Raise (e : exn).
Arguments Ok {A} a.
Arguments Raise {A} e.

Definition bind {A B : Type} (m : result A) (k : A -> result B) : result B :=
  match m with
  | Ok a => k a
  | Raise e => Raise e
  end.

Notation "x <- m ;; k" := (bind m (fun x => k))
  (at level 61, m at next level, right associativity).

(** numpy's message when two shapes cannot be broadcast. *)
Definition broadcast_error : exn :=
  ValueError "operands could not be broadcast together".

(** ** Scalars *)

Definition Qltb (a b : Q) : bool :=
  match a ?= b with Lt => true | _ => false end.

(** A Python bool used as a number. *)
Definition Qbool (b : bool) : Q := if b then 1 else 0.

(** Python's [round] of a float to an integer: the nearest one, ties to the
    even one. *)
Definition py_round (x : Q) : Z :=
  let f := Qfloor x in
  match Qcompare (x - inject_Z f) (1#2) with
  | Lt => f
  | Gt => (f + 1)%Z
  | Eq => if Z.even f then f else (f + 1)%Z
  end.

(** [np.round] on a scalar rounds the same way and stays a float. *)
Definition np_round (x : Q) : Q := inject_Z (py_round x).

(** The default [atol=1e-8] of this module, and numpy's default [rtol=1e-5]. *)
Definition default_atol : Q := 1 # 100000000.
Definition default_rtol : Q := 1 # 100000.

(** One entry of [np.isclose(a, b, atol=atol)]: [|a - b| <= atol + rtol * |b|]. *)
Definition isclose (atol : Q) (a b : Q) : bool :=
  Qle_bool (Qabs (a - b)) (atol + default_rtol * Qabs b).

(** ** Arrays and broadcasting

    numpy combines two 1-d arrays elementwise when their lengths agree or
    one of them has length 1, and raises otherwise. *)

Fixpoint map2 {A B C : Type} (f : A -> B -> C) (u : list A) (v : list B) : list C :=
  match u, v with
  | a :: u', b :: v' => f a b :: map2 f u' v'
  | _, _ => []
  end.

Definition broadcast1 {A B C : Type} (f : A -> B -> C)
    (u : list A) (v : list B) : result (list C) :=
  if Nat.eqb (length u) (length v) then Ok (map2 f u v)
  else match u, v with
       | [a], _ => Ok (map (f a) v)
       | _, [b] => Ok (map (fun a => f a b) u)
       | _, _ => Raise broadcast_error
       end.

Fixpoint mapM {A B : Type} (f : A -> result B) (l : list A) : result (list B) :=
  match l with
  | [] => Ok []
  | a :: t => b <- f a ;; bs <- mapM f t ;; Ok (b :: bs)
  end.

(** [np.array] on a list of coordinates: the rows must have one length. *)
Definition np_array (a : list (list Q)) : result (list (list Q)) :=
  match a with
  | [] => Ok []
  | r :: t =>
      if forallb (fun r' => Nat.eqb (length r') (length r)) t then Ok a
      else Raise (ValueError "inhomogeneous shape")
  end.

(** [c[:, None, :]] and [c[None, :, :]] need a 2-d array: [np.array([])] is
    1-d and the index raises. *)
Definition expand_dims (c : list (list Q)) : result (list (list Q)) :=
  match c with
  | [] => Raise IndexError
  | _ => Ok c
  end.

(** Number of columns of a 2-d array with at least one row. *)
Definition ncols (c : list (list Q)) : nat := length (hd [] c).

(** [np.where(mask)[0]] on a 1-d mask: the indices of its true entries. *)
Fixpoint where_from (i : nat) (mask : list bool) : list nat :=
  match mask with
  | [] => []
  | b :: t => if b then i :: where_from (S i) t else where_from (S i) t
  end.

Definition np_where (mask : list bool) : list nat := where_from 0 mask.

(** [np.allclose(a, b, atol=atol)] on 2-d arrays, rows and columns broadcast.
    (With no row on one side the column check of numpy is not modelled.) *)
Definition np_allclose (a b : list (list Q)) (atol : Q) : result bool :=
  rows <- broadcast1 (fun r1 r2 => broadcast1 (isclose atol) r1 r2) a b ;;
  cells <- mapM (fun r => r) rows ;;
  Ok (forallb (forallb (fun c : bool => c)) cells).

(** [any(f(p) for p in gen)]: stops at the first true, an exception escapes. *)
Fixpoint any_gen {A : Type} (f : A -> result bool) (gen : list A) : result bool :=
  match gen with
  | [] => Ok false
  | p :: rest => b <- f p ;; if b then Ok true else any_gen f rest
  end.

(** ** Tolerance-based coordinate matching *)

Definition find_in_coord_list (coord_list : list (list Q)) (coord : list Q)
    (atol : Q) : result (list nat) :=
  if Nat.eqb (length coord_list) 0 then Ok []
  else
    arr <- np_array coord_list ;;
    diff <- mapM (fun row => broadcast1 Qminus row coord) arr ;;
    Ok (np_where (map (forallb (fun d => Qltb (Qabs d) atol)) diff)).

Definition in_coord_list (coord_list : list (list Q)) (coord : list Q)
    (atol : Q) : result bool :=
  inds <- find_in_coord_list coord_list coord atol ;;
  Ok (Nat.ltb 0 (length inds)).

Definition is_coord_subset (subset superset : list (list Q)) (atol : Q)
    : result bool :=
  c1 <- np_array subset ;;
  c2 <- np_array superset ;;
  c1 <- expand_dims c1 ;;
  c2 <- expand_dims c2 ;;
  is_close <- mapM (fun r1 =>
                mapM (fun r2 =>
                  d <- broadcast1 Qminus r1 r2 ;;
                  Ok (forallb (fun x => Qltb (Qabs x) atol) d)) c2) c1 ;;
  let any_close := map (existsb (fun c : bool => c)) is_close in
  Ok (forallb (fun c : bool => c) any_close).

Definition shape_eqb (a b : list (list Q)) (ncols_a ncols_b : nat) : bool :=
  Nat.eqb (length a) (length b) && Nat.eqb ncols_a ncols_b.

Definition coord_list_mapping (subset superset : list (list Q)) (atol : Q)
    : result (list nat) :=
  c1 <- np_array subset ;;
  c2 <- np_array superset ;;
  c1 <- expand_dims c1 ;;
  c2 <- expand_dims c2 ;;
  close <- mapM (fun r1 =>
             mapM (fun r2 =>
               b <- broadcast1 (isclose atol) r1 r2 ;;
               Ok (forallb (fun c : bool => c) b)) c2) c1 ;;
  let inds := flat_map np_where close in
  let result := map (fun j => nth j c2 []) inds in
  same <- np_allclose c1 result atol ;;
  miss <- (if same then Ok false
           else sub <- is_coord_subset subset superset default_atol ;;
                Ok (negb sub)) ;;
  if miss then Raise (ValueError "not a subset of superset")
  else if negb (shape_eqb result c1 (ncols c2) (ncols c1))
  then Raise (ValueError
         "Something wrong with the inputs, likely duplicates in superset")
  else Ok inds.

(** ** [get_linear_interpolated_value] *)

(** [zip(x_values, y_values, strict=True)]. *)
Fixpoint zip_strict (xs ys : list Q) : result (list (Q * Q)) :=
  match xs, ys with
  | [], [] => Ok []
  | x :: xs', y :: ys' => t <- zip_strict xs' ys' ;; Ok ((x, y) :: t)
  | [], _ :: _ => Raise (ValueError "zip() argument 2 is longer than argument 1")
  | _ :: _, [] => Raise (ValueError "zip() argument 2 is shorter than argument 1")
  end.

(** [sorted(..., key=lambda d: d[0])]: a stable sort on the first component. *)
Fixpoint insert_by_key (p : Q * Q) (l : list (Q * Q)) : list (Q * Q) :=
  match l with
  | [] => [p]
  | q :: t => if Qle_bool (fst p) (fst q) then p :: q :: t
              else q :: insert_by_key p t
  end.

Definition sorted_by_key (l : list (Q * Q)) : list (Q * Q) :=
  fold_right insert_by_key [] l.

Definition range_error : exn :=
  ValueError "x is out of range of provided x_values".

Definition get_linear_interpolated_value (x_values y_values : list Q) (x : Q)
    : result Q :=
  pairs <- zip_strict x_values y_values ;;
  let arr := sorted_by_key pairs in
  match arr with
  | [] => Raise IndexError
  | _ =>
      let indices := np_where (map (fun p => Qltb x (fst p)) arr) in
      match indices with
      | [] => Raise range_error
      | O :: _ => Raise range_error
      | S i :: _ =>
          let idx := S i in
          let p1 := nth (idx - 1) arr (0, 0) in
          let p2 := nth idx arr (0, 0) in
          let x1 := fst p1 in let x2 := fst p2 in
          let y1 := snd p1 in let y2 := snd p2 in
          Ok (y1 + (y2 - y1) / (x2 - x1) * (x - x1))
      end
  end.

(** Python's [min] and [max] on a list ([None] stands for the error on an
    empty one). *)
Definition py_min (l : list Q) : option Q :=
  match l with
  | [] => None
  | a :: t => Some (fold_left (fun m b => if Qltb b m then b else m) t a)
  end.

Definition py_max (l : list Q) : option Q :=
  match l with
  | [] => None
  | a :: t => Some (fold_left (fun m b => if Qltb m b then b else m) t a)
  end.

(** ** Periodic boundary conditions *)

(** [frac_dist = np.subtract(frac_coords1, frac_coords2)];
    [return frac_dist - np.round(frac_dist) * pbc], on single coordinates. *)
Definition pbc_diff (frac_coords1 frac_coords2 : list Q) (pbc : list bool)
    : result (list Q) :=
  frac_dist <- broadcast1 Qminus frac_coords1 frac_coords2 ;;
  wrap <- broadcast1 (fun d b => np_round d * Qbool b) frac_dist pbc ;;
  broadcast1 Qminus frac_dist wrap.

(** [frac_dist[:, pbc] -= np.round(frac_dist)[:, pbc]] on one row: [pbc] is
    a boolean mask over the columns and must have their number. *)
Definition wrap_masked (row : list Q) (pbc : list bool) : result (list Q) :=
  if Nat.eqb (length row) (length pbc)
  then Ok (map2 (fun d (b : bool) => if b then d - np_round d else d) row pbc)
  else Raise IndexError.

Definition find_in_coord_list_pbc (frac_coord_list : list (list Q))
    (frac_coord : list Q) (atol : Q) (pbc : list bool) : result (list nat) :=
  if Nat.eqb (length frac_coord_list) 0 then Ok []
  else
    let frac_coords := map (fun _ => frac_coord) frac_coord_list in
    arr <- np_array frac_coord_list ;;
    rows <- broadcast1 (fun r1 r2 => broadcast1 Qminus r1 r2) arr frac_coords ;;
    frac_dist <- mapM (fun r => r) rows ;;
    frac_dist <- mapM (fun row => wrap_masked row pbc) frac_dist ;;
    Ok (np_where (map (forallb (fun d => Qltb (Qabs d) atol)) frac_dist)).

Definition in_coord_list_pbc (fcoord_list : list (list Q)) (fcoord : list Q)
    (atol : Q) (pbc : list bool) : result bool :=
  inds <- find_in_coord_list_pbc fcoord_list fcoord atol pbc ;;
  Ok (Nat.ltb 0 (length inds)).

(** ** Permutations, as [itertools.permutations] yields them *)

Fixpoint picks {A : Type} (l : list A) : list (A * list A) :=
  match l with
  | [] => []
  | x :: t => (x, t) :: map (fun yr => (fst yr, x :: snd yr)) (picks t)
  end.

Fixpoint perms_upto {A : Type} (n : nat) (l : list A) : list (list A) :=
  match n with
  | O => [[]]
  | S n' =>
      match l with
      | [] => [[]]
      | _ => flat_map (fun xr => map (cons (fst xr)) (perms_upto n' (snd xr)))
               (picks l)
      end
  end.

Definition permutations {A : Type} (l : list A) : list (list A) :=
  perms_upto (length l) l.

(** ** Linear algebra ([np.dot], [np.linalg]) in exact arithmetic *)

Definition tabulate {A : Type} (n : nat) (f : nat -> A) : list A :=
  map f (seq 0 n).

(** Entry [(i, j)] of a 2-d array. *)
Definition get (a : list (list Q)) (i j : nat) : Q := nth j (nth i a []) 0.

Definition mtab (n m : nat) (f : nat -> nat -> Q) : list (list Q) :=
  tabulate n (fun i => tabulate m (f i)).

Fixpoint qsum (n : nat) (f : nat -> Q) : Q :=
  match n with
  | O => 0
  | S k => qsum k f + f k
  end.

Definition is_matrix (n m : nat) (a : list (list Q)) : bool :=
  Nat.eqb (length a) n && forallb (fun r => Nat.eqb (length r) m) a.

(** [np.dot(v, a)] for a 1-d [v] and a 2-d [a]. *)
Definition dot_vm (v : list Q) (a : list (list Q)) : result (list Q) :=
  if Nat.eqb (length v) (length a)
  then Ok (tabulate (ncols a)
             (fun j => qsum (length v) (fun i => nth i v 0 * get a i j)))
  else Raise (ValueError "shapes not aligned").

(** [np.dot(a, b)] for 2-d arrays. *)
Definition dot_mm (a b : list (list Q)) : result (list (list Q)) :=
  mapM (fun row => dot_vm row b) a.

Fixpoint drop_nth {A : Type} (j : nat) (l : list A) : list A :=
  match l, j with
  | [], _ => []
  | _ :: t, O => t
  | x :: t, S j' => x :: drop_nth j' t
  end.

(** The determinant, expanded along the first row. *)
Fixpoint det_rec (n : nat) (a : list (list Q)) : Q :=
  match n with
  | O => 1
  | S n' =>
      match a with
      | [] => 0
      | row :: rest =>
          qsum (S n') (fun j =>
            (if Nat.even j then 1 else -(1)) * nth j row 0
            * det_rec n' (map (drop_nth j) rest))
      end
  end.

Definition not_square : exn :=
  LinAlgError "Last 2 dimensions of the array must be square".
Definition singular : exn := LinAlgError "Singular matrix".

Definition linalg_det (a : list (list Q)) : result Q :=
  if is_matrix (length a) (length a) a then Ok (det_rec (length a) a)
  else Raise not_square.

(** The inverse, by Gauss-Jordan elimination on [[a | 1]]: in column [k] a
    row at or below [k] with a non-zero entry is swapped into place, scaled
    to make the entry 1 and subtracted from all other rows.  With no such
    row the matrix is singular.  (numpy's float64 factorisation raises only
    on a pivot that is exactly zero; what is proved below uses the inverse
    where it exists and never that a singular matrix is refused.) *)
Definition find_pivot (w : list (list Q)) (n k : nat) : option nat :=
  find (fun p => negb (Qeq_bool (get w p k) 0)) (seq k (n - k)).

Definition swap_rows (n m : nat) (w : list (list Q)) (k p : nat)
    : list (list Q) :=
  mtab n m (fun i j =>
    get w (if Nat.eqb i k then p else if Nat.eqb i p then k else i) j).

Definition eliminate (n m : nat) (w : list (list Q)) (k : nat)
    : list (list Q) :=
  let c := get w k k in
  mtab n m (fun i j =>
    if Nat.eqb i k then get w k j / c
    else get w i j - get w i k * (get w k j / c)).

Fixpoint gauss_jordan (steps n k : nat) (w : list (list Q))
    : result (list (list Q)) :=
  match steps with
  | O => Ok w
  | S s =>
      match find_pivot w n k with
      | None => Raise singular
      | Some p =>
          gauss_jordan s n (S k)
            (eliminate n (2 * n) (swap_rows n (2 * n) w k p) k)
      end
  end.

Definition augment_identity (n : nat) (a : list (list Q)) : list (list Q) :=
  mtab n (2 * n) (fun i j =>
    if Nat.ltb j n then get a i j
    else if Nat.eqb (j - n) i then 1 else 0).

Definition linalg_inv (a : list (list Q)) : result (list (list Q)) :=
  let n := length a in
  if is_matrix n n a then
    w <- gauss_jordan n n 0 (augment_identity n a) ;;
    Ok (mtab n n (fun i j => get w i (n + j)))
  else Raise not_square.

(** ** Supercell lattice enumeration *)

Local Open Scope Z_scope.

Definition diagonals : list (list Z) :=
  [ [0; 0; 0]; [0; 0; 1]; [0; 1; 0]; [0; 1; 1];
    [1; 0; 0]; [1; 0; 1]; [1; 1; 0]; [1; 1; 1] ].

Fixpoint zsum (n : nat) (f : nat -> Z) : Z :=
  match n with
  | O => 0
  | S k => zsum k f + f k
  end.

Definition getZ (a : list (list Z)) (i j : nat) : Z := nth j (nth i a []) 0.

(** [np.dot] on integer 2-d arrays. *)
Definition dot_int (a b : list (list Z)) : result (list (list Z)) :=
  mapM (fun row =>
    if Nat.eqb (length row) (length b)
    then Ok (tabulate (length (hd [] b))
               (fun j => zsum (length row) (fun i => nth i row 0 * getZ b i j)))
    else Raise (ValueError "shapes not aligned")) a.

(** [np.min(a, axis=0)] and [np.max(a, axis=0)] of an array with rows. *)
Definition col_fold (f : Z -> Z -> Z) (a : list (list Z)) : list Z :=
  match a with
  | [] => []
  | r :: t => fold_left (map2 f) t r
  end.

(** [np.arange(lo, hi)] on integers. *)
Definition arange (lo hi : Z) : list Z :=
  map (fun i => lo + Z.of_nat i) (seq 0 (Z.to_nat (hi - lo))).

Definition index1 {A : Type} (l : list A) (i : nat) : result A :=
  match nth_error l i with
  | Some a => Ok a
  | None => Raise IndexError
  end.

Definition tol10 : Q := 1 # 10000000000.

Definition mismatch : exn :=
  ValueError "The number of transformed vectors mismatch.".

Definition in_unit_cell (frac : list Q) : bool :=
  forallb (fun f => Qltb f (1 - tol10)%Q) frac
  && forallb (fun f => Qle_bool (- tol10)%Q f) frac.

Definition lattice_points_in_supercell (supercell_matrix : list (list Z))
    : result (list (list Q)) :=
  d_points <- dot_int diagonals supercell_matrix ;;
  let mins := col_fold Z.min d_points in
  let maxes := map (fun m => m + 1) (col_fold Z.max d_points) in
  lo0 <- index1 mins 0 ;; hi0 <- index1 maxes 0 ;;
  lo1 <- index1 mins 1 ;; hi1 <- index1 maxes 1 ;;
  lo2 <- index1 mins 2 ;; hi2 <- index1 maxes 2 ;;
  let all_points :=
    flat_map (fun a =>
      flat_map (fun b =>
        map (fun c => [a; b; c]) (arange lo2 hi2)) (arange lo1 hi1))
      (arange lo0 hi0) in
  let m := map (map inject_Z) supercell_matrix in
  m_inv <- linalg_inv m ;;
  frac_points <- dot_mm (map (map inject_Z) all_points) m_inv ;;
  let t_vecs := filter in_unit_cell frac_points in
  det <- linalg_det m ;;
  if negb (Z.eqb (Z.of_nat (length t_vecs)) (py_round (Qabs det)))
  then Raise mismatch
  else Ok t_vecs.

Local Close Scope Z_scope.

(** ** [barycentric_coords] *)



(** [a[mask]] for a 1-d array and a boolean mask: the entries at the true
    positions; the mask must have the array's length. *)
Definition mask_select {A : Type} (mask : list bool) (a : list A)
    : result (list A) :=
  if Nat.eqb (length mask) (length a)
  then Ok (map snd (filter fst (combine mask a)))
  else Raise IndexError.

(** [np.allclose(a, b, atol=atol, rtol=rtol)] on 1-d arrays. *)
Definition allclose_1d (atol rtol : Q) (a b : list Q) : result bool :=
  cells <- broadcast1
             (fun x y => Qle_bool (Qabs (x - y)) (atol + rtol * Qabs y)) a b ;;
  Ok (forallb (fun c : bool => c) cells).

(** ** The class [Simplex] *)

Module Simplex.

Record t : Type := mk {
  _coords : list (list Q);
  space_dim : nat;
  simplex_dim : nat;
  origin : list Q;
  (** [_aug] and [_aug_inv] exist only on a full-dimensional simplex. *)
  _aug : option (list (list Q));
  _aug_inv : option (list (list Q))
}.

Definition not_full_dimensional : exn :=
  ValueError "Simplex is not full-dimensional".

Definition __init__ (coords : list (list Q)) : result t :=
  arr <- np_array coords ;;
  match arr with
  | [] => Raise (ValueError "not enough values to unpack (expected 2, got 1)")
  | _ =>
      let space_dim := length arr in
      let simplex_dim := ncols arr in
      let origin := last arr [] in
      if Nat.eqb space_dim (simplex_dim + 1) then
        let aug := map (fun r => r ++ [1]) arr in
        aug_inv <- linalg_inv aug ;;
        Ok (mk arr space_dim simplex_dim origin (Some aug) (Some aug_inv))
      else Ok (mk arr space_dim simplex_dim origin None None)
  end.

Definition coords (self : t) : list (list Q) := _coords self.

Definition volume (self : t) : result Q :=
  match _aug self with
  | None => Raise AttributeError
  | Some aug =>
      d <- linalg_det aug ;;
      Ok (Qabs d / inject_Z (Z.of_nat (fact (simplex_dim self))))
  end.

Definition bary_coords (self : t) (point : list Q) : result (list Q) :=
  match _aug_inv self with
  | None => Raise not_full_dimensional
  | Some aug_inv => dot_vm (point ++ [1]) aug_inv
  end.

Definition point_from_bary_coords (self : t) (bary : list Q)
    : result (list Q) :=
  match _aug self with
  | None => Raise not_full_dimensional
  | Some aug => dot_vm bary (map (@removelast Q) aug)
  end.

Definition in_simplex (self : t) (point : list Q) (tolerance : Q)
    : result bool :=
  b <- bary_coords self point ;;
  Ok (forallb (fun c => Qle_bool (- tolerance) c) b).

(** The loop of [line_intersection] over the candidates: one that is in the
    simplex is appended to [barys] unless an earlier one is close to it. *)
Fixpoint collect_barys (tolerance : Q) (possible barys : list (list Q))
    : result (list (list Q)) :=
  match possible with
  | [] => Ok barys
  | p :: rest =>
      if forallb (fun c => Qle_bool (- tolerance) c) p then
        found <- any_gen (fun b => allclose_1d tolerance 0 b p) barys ;;
        collect_barys tolerance rest (if found then barys else barys ++ [p])
      else collect_barys tolerance rest barys
  end.

Definition line_intersection (self : t) (point1 point2 : list Q)
    (tolerance : Q) : result (list (list Q)) :=
  b1 <- bary_coords self point1 ;;
  b2 <- bary_coords self point2 ;;
  line <- broadcast1 Qminus b1 b2 ;;
  let valid := map (fun l => Qltb tol10 (Qabs l)) line in
  num <- mask_select valid b1 ;;
  den <- mask_select valid line ;;
  ratios <- broadcast1 Qdiv num den ;;
  possible <- mapM (fun r => broadcast1 Qminus b1 (map (Qmult r) line))
                ratios ;;
  barys <- collect_barys tolerance possible [] ;;
  if Nat.leb 3 (length barys)
  then Raise (ValueError "More than 2 intersections found")
  else mapM (point_from_bary_coords self) barys.

(** [any(np.allclose(p, other.coords) for p in
    itertools.permutations(self._coords))], for [other] a Simplex. *)
Definition __eq__ (self other : t) : result bool :=
  any_gen (fun p => np_allclose p (coords other) default_atol)
    (permutations (_coords self)).

Definition __hash__ (self : t) : nat := length (_coords self).

End Simplex.

(** * Verification *)

(** ** The error monad and scalars *)

Lemma bind_ok {A B : Type} (m : result A) (k : A -> result B) (b : B) :
  bind m k = Ok b -> exists a, m = Ok a /\ k a = Ok b.
Proof. destruct m as [a|e]; simpl; intro H; [eauto | discriminate]. Qed.

Lemma Qltb_lt (a b : Q) : Qltb a b = true <-> a < b.
Proof.
  unfold Qltb. rewrite Qlt_alt. destruct (a ?= b); split; congruence.
Qed.

Lemma Qltb_ge (a b : Q) : Qltb a b = false <-> b <= a.
Proof.
  split; intro H.
  - apply Qnot_lt_le. intro L. apply Qltb_lt in L. congruence.
  - destruct (Qltb a b) eqn:E; [|reflexivity].
    apply Qltb_lt in E. exfalso. apply (Qlt_not_le _ _ E H).
Qed.

Lemma Qle_bool_false (a b : Q) : Qle_bool a b = false <-> b < a.
Proof.
  split; intro H.
  - apply Qnot_le_lt. intro L. apply Qle_bool_iff in L. congruence.
  - destruct (Qle_bool a b) eqn:E; [|reflexivity].
    apply Qle_bool_iff in E. exfalso. apply (Qlt_not_le _ _ H E).
Qed.

Lemma np_round_dist (x : Q) : -(1#2) <= x - np_round x <= 1#2.
Proof.
  unfold np_round, py_round.
  pose proof (Qfloor_le x) as Hlo.
  pose proof (Qlt_floor x) as Hhi.
  rewrite inject_Z_plus in Hhi. change (inject_Z 1) with 1 in Hhi.
  destruct (x - inject_Z (Qfloor x) ?= 1#2) eqn:E.
  - apply Qeq_alt in E.
    destruct (Z.even (Qfloor x)).
    + lra.
    + rewrite inject_Z_plus. change (inject_Z 1) with 1. lra.
  - apply Qlt_alt in E. lra.
  - apply Qgt_alt in E. rewrite inject_Z_plus. change (inject_Z 1) with 1. lra.
Qed.

(** ** Broadcasting *)

(** The index numpy reads in an operand: 0 when it has length 1. *)
Definition bidx {A : Type} (u : list A) (i : nat) : nat :=
  if Nat.eqb (length u) 1 then O else i.

Lemma map2_length {A B C : Type} (f : A -> B -> C) (u : list A) (v : list B) :
  length u = length v -> length (map2 f u v) = length u.
Proof.
  revert v. induction u as [|a u IH]; intros [|b v] H; simpl in *; try congruence.
  f_equal. apply IH. congruence.
Qed.

Lemma map2_nth_error {A B C : Type} (f : A -> B -> C) (u : list A) (v : list B)
    (i : nat) (c : C) :
  nth_error (map2 f u v) i = Some c ->
  exists a b, nth_error u i = Some a /\ nth_error v i = Some b /\ c = f a b.
Proof.
  revert v i. induction u as [|a u IH]; intros [|b v] [|i] H; simpl in *;
    try discriminate.
  - injection H as <-. eauto.
  - apply IH. exact H.
Qed.

Lemma map2_nth_error_some {A B C : Type} (f : A -> B -> C) (u : list A)
    (v : list B) (i : nat) (a : A) (b : B) :
  nth_error u i = Some a -> nth_error v i = Some b ->
  nth_error (map2 f u v) i = Some (f a b).
Proof.
  revert v i. induction u as [|x u IH]; intros [|y v] [|i] Ha Hb; simpl in *;
    try discriminate.
  - congruence.
  - apply IH; assumption.
Qed.

Lemma broadcast1_same {A B C : Type} (f : A -> B -> C) (u : list A) (v : list B) :
  length u = length v -> broadcast1 f u v = Ok (map2 f u v).
Proof.
  intro H. unfold broadcast1. rewrite H, Nat.eqb_refl. reflexivity.
Qed.

Lemma broadcast1_length {A B C : Type} (f : A -> B -> C)
    (u : list A) (v : list B) (w : list C) :
  broadcast1 f u v = Ok w ->
  length w = if Nat.eqb (length u) 1 then length v else length u.
Proof.
  unfold broadcast1.
  destruct (Nat.eqb (length u) (length v)) eqn:E.
  - apply Nat.eqb_eq in E. intros [= <-]. rewrite map2_length by exact E.
    destruct (Nat.eqb (length u) 1) eqn:E1; [|reflexivity].
    apply Nat.eqb_eq in E1. congruence.
  - destruct u as [|a [|a' u]].
    + destruct v as [|b [|b' v]]; try discriminate.
      intros [= <-]. reflexivity.
    + intros [= <-]. simpl. apply length_map.
    + destruct v as [|b [|b' v]]; try discriminate.
      intros [= <-]. simpl. rewrite length_map. reflexivity.
Qed.

(** Every entry of a broadcast result is [f a b] with [a] and [b] read at
    the broadcast indices. *)
Lemma broadcast1_nth_error {A B C : Type} (f : A -> B -> C)
    (u : list A) (v : list B) (w : list C) (i : nat) (c : C) :
  broadcast1 f u v = Ok w -> nth_error w i = Some c ->
  exists a b, nth_error u (bidx u i) = Some a
    /\ nth_error v (bidx v i) = Some b /\ c = f a b.
Proof.
  unfold broadcast1, bidx. intros H Hi.
  destruct (Nat.eqb (length u) (length v)) eqn:E.
  - apply Nat.eqb_eq in E. injection H as <-.
    apply map2_nth_error in Hi as (a & b & Ha & Hb & ->).
    exists a, b.
    assert (Hlt : (i < length u)%nat)
      by (apply nth_error_Some; congruence).
    destruct (Nat.eqb (length u) 1) eqn:E1.
    + apply Nat.eqb_eq in E1. rewrite <- E, E1. simpl.
      assert (i = O) by lia. subst i. auto.
    + rewrite <- E, E1. auto.
  - destruct u as [|a [|a' u]].
    + destruct v as [|b [|b' v]]; try discriminate.
      injection H as <-. destruct i; discriminate.
    + injection H as <-. simpl.
      rewrite nth_error_map in Hi.
      destruct (nth_error v i) as [b|] eqn:Hb; [|discriminate].
      injection Hi as <-. exists a, b.
      simpl in E. destruct (Nat.eqb (length v) 1) eqn:E1.
      * apply Nat.eqb_eq in E1. rewrite E1 in E. discriminate.
      * auto.
    + destruct v as [|b [|b' v]]; try discriminate.
      assert (Hw : w = map (fun x => f x b) (a :: a' :: u)) by congruence.
      rewrite Hw, nth_error_map in Hi. cbn [length Nat.eqb].
      destruct (nth_error (a :: a' :: u) i) as [x|] eqn:Hx; [|discriminate].
      injection Hi as <-. exists x, b. auto.
Qed.

(** ** [np.where] *)

Lemma where_from_In (mask : list bool) (k i : nat) :
  In i (where_from k mask) <->
  (k <= i)%nat /\ nth_error mask (i - k) = Some true.
Proof.
  revert k. induction mask as [|b t IH]; intro k; simpl.
  - split; [tauto|]. intros [_ H]. destruct (i - k)%nat; discriminate.
  - assert (Hstep : In i (where_from (S k) t) <->
                    (k < i)%nat /\ nth_error (b :: t) (i - k) = Some true).
    { rewrite IH. split; intros [H1 H2]; (split; [lia|]).
      - replace (i - k)%nat with (S (i - S k)) by lia. exact H2.
      - replace (i - k)%nat with (S (i - S k)) in H2 by lia. exact H2. }
    destruct b; simpl; rewrite ?Hstep.
    + split.
      * intros [<- | [H1 H2]].
        -- rewrite Nat.sub_diag. auto.
        -- split; [lia | exact H2].
      * intros [H1 H2]. destruct (Nat.eq_dec k i) as [->|Hne]; [auto|].
        right. split; [lia | exact H2].
    + split.
      * intros [H1 H2]. split; [lia | exact H2].
      * intros [H1 H2]. destruct (Nat.eq_dec k i) as [->|Hne].
        -- rewrite Nat.sub_diag in H2. discriminate.
        -- split; [lia | exact H2].
Qed.

Lemma np_where_In (mask : list bool) (i : nat) :
  In i (np_where mask) <-> nth_error mask i = Some true.
Proof.
  unfold np_where. rewrite where_from_In, Nat.sub_0_r.
  split; [tauto | intro H; split; [lia | exact H]].
Qed.

(** ** [pbc_diff]: the wrapped difference *)

Lemma pbc_diff_component (fc1 fc2 : list Q) (pbc : list bool) (out : list Q)
    (i : nat) (d : Q) :
  pbc_diff fc1 fc2 pbc = Ok out ->
  nth_error pbc i = Some true -> nth_error out i = Some d ->
  exists x, d == x - np_round x.
Proof.
  unfold pbc_diff. intros H Hp Hd.
  apply bind_ok in H as (fd & Hfd & H).
  apply bind_ok in H as (wrap & Hw & H).
  pose proof (broadcast1_length _ _ _ _ Hw) as Lw.
  destruct (broadcast1_nth_error _ _ _ _ _ _ H Hd) as (a & w & Ha & Hwi & ->).
  destruct (broadcast1_nth_error _ _ _ _ _ _ Hw Hwi) as (x & b & Hx & Hb & ->).
  assert (Hi : (i < length pbc)%nat) by (apply nth_error_Some; congruence).
  assert (Hj : bidx pbc (bidx wrap i) = bidx pbc i /\
               bidx fd (bidx wrap i) = bidx fd i).
  { unfold bidx in *.
    destruct (Nat.eqb (length pbc) 1) eqn:E1;
    destruct (Nat.eqb (length fd) 1) eqn:E2;
    destruct (Nat.eqb (length wrap) 1) eqn:E3; auto;
    apply Nat.eqb_eq in E3; rewrite ?Nat.eqb_eq, ?Nat.eqb_neq in *;
    split; auto; lia. }
  destruct Hj as [Hj1 Hj2]. rewrite Hj1 in Hb. rewrite Hj2 in Hx.
  assert (b = true).
  { unfold bidx in Hb. destruct (Nat.eqb (length pbc) 1) eqn:E1.
    - apply Nat.eqb_eq in E1. assert (i = O) by lia. subst i. congruence.
    - congruence. }
  subst b. exists x. rewrite Ha in Hx. injection Hx as ->.
  simpl. ring.
Qed.

(** C1 (as amended): for coordinates and flags of one length, [pbc_diff]
    returns a vector of that length, and each of its components on an axis
    whose periodic flag is true lies in the closed interval [-0.5, 0.5]. *)
Theorem pbc_diff_wrapped_closed (fc1 fc2 : list Q) (pbc : list bool) :
  length fc1 = length pbc -> length fc2 = length pbc ->
  exists out, pbc_diff fc1 fc2 pbc = Ok out /\ length out = length pbc /\
    forall i d, nth_error pbc i = Some true -> nth_error out i = Some d ->
      -(1#2) <= d <= 1#2.
Proof.
  intros H1 H2.
  assert (E : exists out, pbc_diff fc1 fc2 pbc = Ok out /\
                          length out = length pbc).
  { unfold pbc_diff.
    assert (L1 : length (map2 Qminus fc1 fc2) = length pbc)
      by (rewrite map2_length; congruence).
    rewrite broadcast1_same by congruence. cbn [bind].
    set (fd := map2 Qminus fc1 fc2) in *.
    assert (L2 : length (map2 (fun d b => np_round d * Qbool b) fd pbc)
                 = length pbc)
      by (rewrite map2_length; congruence).
    rewrite broadcast1_same by congruence. cbn [bind].
    rewrite broadcast1_same by congruence.
    eexists. split; [reflexivity|].
    rewrite map2_length; congruence. }
  destruct E as (out & Hout & Hlen). exists out. repeat split; auto;
    destruct (pbc_diff_component _ _ _ _ _ _ Hout H H0) as (x & ->);
    apply np_round_dist.
Qed.

Lemma pbc_diff_wrapped_closed_witness :
  exists out, pbc_diff [9#10; 1#10; 101#100] [3#10; 1#2; 9#10] [true; true; true]
              = Ok out /\ length out = 3%nat /\
    forall i d, nth_error [true; true; true] i = Some true ->
      nth_error out i = Some d -> -(1#2) <= d <= 1#2.
Proof.
  apply (pbc_diff_wrapped_closed [9#10; 1#10; 101#100] [3#10; 1#2; 9#10]
           [true; true; true]); reflexivity.
Defined.

(** C1, counterexample: the difference 0.5 rounds to the even integer 0, so
    the wrapped component is 0.5, outside the half-open [-0.5, 0.5). *)
Lemma pbc_diff_half_open_fails :
  exists out d,
    pbc_diff [1#2; 0; 0] [0; 0; 0] [true; true; true] = Ok out /\
    nth_error [true; true; true] 0 = Some true /\
    nth_error out 0 = Some d /\ ~ (-(1#2) <= d < 1#2).
Proof.
  eexists. eexists. split; [reflexivity|]. split; [reflexivity|].
  split; [reflexivity|]. vm_compute. intros [_ H]. discriminate.
Qed.

(** ** Tolerance-based matching *)

Lemma mapM_ok {A B : Type} (f : A -> result B) (g : A -> B) (l : list A) :
  (forall a, In a l -> f a = Ok (g a)) -> mapM f l = Ok (map g l).
Proof.
  induction l as [|a t IH]; intro H; simpl; [reflexivity|].
  rewrite (H a) by (left; reflexivity). simpl.
  rewrite IH by (intros; apply H; right; assumption). reflexivity.
Qed.

Lemma np_array_ok (d : nat) (a : list (list Q)) :
  Forall (fun r => length r = d) a -> np_array a = Ok a.
Proof.
  intro H. destruct a as [|r t]; [reflexivity|]. simpl.
  inversion H as [|? ? Hr Ht]; subst.
  replace (forallb (fun r' => Nat.eqb (length r') (length r)) t) with true;
    [reflexivity|].
  symmetry. apply forallb_forall. intros r' Hin. apply Nat.eqb_eq.
  rewrite Forall_forall in Ht. apply Ht. exact Hin.
Qed.

Lemma forallb_self_diff (atol : Q) (p : list Q) :
  0 < atol ->
  forallb (fun d => Qltb (Qabs d) atol) (map2 Qminus p p) = true.
Proof.
  intro Hpos. induction p as [|a p IH]; simpl; [reflexivity|].
  rewrite IH, andb_true_r. apply Qltb_lt.
  assert (E : a - a == 0) by ring.
  rewrite (Qabs_wd _ _ E). exact Hpos.
Qed.

(** C3 (as amended): with a positive tolerance, the position of an exact
    occurrence of [p] in the coordinate list is among the returned indices. *)
Theorem find_in_coord_list_exact (L : list (list Q)) (p : list Q)
    (atol : Q) (i : nat) :
  0 < atol ->
  Forall (fun r => length r = length p) L ->
  nth_error L i = Some p ->
  exists inds, find_in_coord_list L p atol = Ok inds /\ In i inds.
Proof.
  intros Hpos Hrect Hi. unfold find_in_coord_list.
  destruct L as [|r t] eqn:EL; [destruct i; discriminate|].
  rewrite <- EL in *. replace (Nat.eqb (length L) 0) with false
    by (rewrite EL; reflexivity).
  rewrite (np_array_ok _ _ Hrect). cbn [bind].
  rewrite (mapM_ok _ (fun row => map2 Qminus row p)).
  - cbn [bind]. eexists. split; [reflexivity|].
    apply np_where_In. rewrite map_map.
    rewrite (map_nth_error _ _ _ Hi). f_equal.
    apply forallb_self_diff. exact Hpos.
  - intros row Hin. apply broadcast1_same.
    rewrite Forall_forall in Hrect. apply Hrect. exact Hin.
Qed.

Lemma find_in_coord_list_exact_witness :
  exists inds,
    find_in_coord_list [[0; 0; 0]; [1#2; 0; 0]] [1#2; 0; 0] default_atol
      = Ok inds /\ In 1%nat inds.
Proof.
  apply (find_in_coord_list_exact [[0; 0; 0]; [1#2; 0; 0]] [1#2; 0; 0]
           default_atol 1).
  - reflexivity.
  - repeat constructor.
  - reflexivity.
Defined.

(** C3, counterexample: with [atol=0] the strict test [|diff| < atol] never
    holds, so an exact occurrence is not reported. *)
Lemma find_in_coord_list_atol_zero_fails :
  nth_error [[0; 0; 0]] 0 = Some [0; 0; 0] /\
  find_in_coord_list [[0; 0; 0]] [0; 0; 0] 0 = Ok [] /\
  ~ (exists inds, find_in_coord_list [[0; 0; 0]] [0; 0; 0] 0 = Ok inds
                  /\ In 0%nat inds).
Proof.
  split; [reflexivity|]. split; [reflexivity|].
  intros (inds & H & Hin). vm_compute in H. injection H as <-. exact Hin.
Qed.

(** C9: on an empty coordinate list both searches return no index without
    raising, so both membership tests answer False. *)
Theorem empty_coord_list_no_match (coord : list Q) (atol : Q) (pbc : list bool) :
  find_in_coord_list [] coord atol = Ok [] /\
  find_in_coord_list_pbc [] coord atol pbc = Ok [] /\
  in_coord_list [] coord atol = Ok false /\
  in_coord_list_pbc [] coord atol pbc = Ok false.
Proof. repeat split. Qed.

(** ** Linear interpolation *)

Definition key_le (p q : Q * Q) : Prop := fst p <= fst q.

Lemma zip_strict_ok (xs ys : list Q) :
  length xs = length ys -> zip_strict xs ys = Ok (combine xs ys).
Proof.
  revert ys. induction xs as [|x xs IH]; intros [|y ys] H; simpl in *;
    try discriminate; [reflexivity|].
  rewrite IH by congruence. reflexivity.
Qed.

Lemma map_fst_combine_eq (xs ys : list Q) :
  length xs = length ys -> map fst (combine xs ys) = xs.
Proof.
  revert ys. induction xs as [|x xs IH]; intros [|y ys] H; simpl in *;
    try discriminate; [reflexivity|].
  f_equal. apply IH. congruence.
Qed.

Lemma insert_by_key_perm (p : Q * Q) (l : list (Q * Q)) :
  Permutation (insert_by_key p l) (p :: l).
Proof.
  induction l as [|q t IH]; simpl; [reflexivity|].
  destruct (Qle_bool (fst p) (fst q)); [reflexivity|].
  rewrite IH. apply perm_swap.
Qed.

Lemma sorted_by_key_perm (l : list (Q * Q)) : Permutation (sorted_by_key l) l.
Proof.
  induction l as [|p t IH]; simpl; [reflexivity|].
  rewrite insert_by_key_perm. apply perm_skip. exact IH.
Qed.

Lemma insert_by_key_sorted (p : Q * Q) (l : list (Q * Q)) :
  StronglySorted key_le l -> StronglySorted key_le (insert_by_key p l).
Proof.
  induction 1 as [|q t Hs IH Hq]; simpl.
  - constructor; constructor.
  - destruct (Qle_bool (fst p) (fst q)) eqn:E.
    + apply Qle_bool_iff in E. constructor.
      * constructor; assumption.
      * constructor; [exact E|].
        rewrite Forall_forall in *. intros r Hr. unfold key_le in *.
        apply Qle_trans with (fst q); [exact E | apply Hq; exact Hr].
    + apply Qle_bool_false in E. constructor; [exact IH|].
      rewrite Forall_forall in *. intros r Hr.
      apply (Permutation_in _ (insert_by_key_perm p t)) in Hr.
      destruct Hr as [<- | Hr]; [apply Qlt_le_weak; exact E | apply Hq; exact Hr].
Qed.

Lemma sorted_by_key_sorted (l : list (Q * Q)) :
  StronglySorted key_le (sorted_by_key l).
Proof.
  induction l as [|p t IH]; simpl; [constructor|].
  apply insert_by_key_sorted. exact IH.
Qed.

Lemma where_from_nil (k : nat) (mask : list bool) :
  where_from k mask = [] <-> Forall (fun b => b = false) mask.
Proof.
  revert k. induction mask as [|b t IH]; intro k; simpl.
  - split; auto.
  - destruct b.
    + split; [discriminate | intro H; inversion H; discriminate].
    + rewrite IH. split; [auto | intro H; inversion H; assumption].
Qed.

Lemma where_from_first (k : nat) (mask : list bool) (i : nat) (rest : list nat) :
  where_from k mask = i :: rest ->
  (k <= i)%nat /\ nth_error mask (i - k) = Some true /\
  forall j, (j < i - k)%nat -> nth_error mask j = Some false.
Proof.
  revert k. induction mask as [|b t IH]; intro k; simpl; [discriminate|].
  destruct b.
  - intros [= <- _]. rewrite Nat.sub_diag.
    split; [lia|]. split; [reflexivity|]. intros j Hj. lia.
  - intro H. apply IH in H as (H1 & H2 & H3).
    replace (i - k)%nat with (S (i - S k)) by lia.
    split; [lia|]. split; [exact H2|].
    intros [|j] Hj; [reflexivity|]. simpl. apply H3. lia.
Qed.

Lemma py_min_spec (l : list Q) (m : Q) :
  py_min l = Some m -> In m l /\ Forall (fun a => m <= a) l.
Proof.
  destruct l as [|a t]; [discriminate|]. simpl. intros [= <-].
  assert (G : forall t a0,
             let m := fold_left (fun m b => if Qltb b m then b else m) t a0 in
             In m (a0 :: t) /\ m <= a0 /\ Forall (fun b => m <= b) t).
  { clear. induction t as [|b t IH]; intros a0; simpl.
    - split; [left; reflexivity|]. split; [apply Qle_refl | constructor].
    - destruct (Qltb b a0) eqn:E.
      + apply Qltb_lt in E. destruct (IH b) as (I1 & I2 & I3).
        split; [right; exact I1|]. split; [lra|]. constructor; assumption.
      + apply Qltb_ge in E. destruct (IH a0) as (I1 & I2 & I3).
        split; [destruct I1 as [I1|I1]; [left; exact I1 | right; right; exact I1]|].
        split; [exact I2|]. constructor; [lra | exact I3]. }
  destruct (G t a) as (I1 & I2 & I3).
  split; [exact I1|]. constructor; assumption.
Qed.

Lemma py_max_spec (l : list Q) (m : Q) :
  py_max l = Some m -> In m l /\ Forall (fun a => a <= m) l.
Proof.
  destruct l as [|a t]; [discriminate|]. simpl. intros [= <-].
  assert (G : forall t a0,
             let m := fold_left (fun m b => if Qltb m b then b else m) t a0 in
             In m (a0 :: t) /\ a0 <= m /\ Forall (fun b => b <= m) t).
  { clear. induction t as [|b t IH]; intros a0; simpl.
    - split; [left; reflexivity|]. split; [apply Qle_refl | constructor].
    - destruct (Qltb a0 b) eqn:E.
      + apply Qltb_lt in E. destruct (IH b) as (I1 & I2 & I3).
        split; [right; exact I1|]. split; [lra|]. constructor; assumption.
      + apply Qltb_ge in E. destruct (IH a0) as (I1 & I2 & I3).
        split; [destruct I1 as [I1|I1]; [left; exact I1 | right; right; exact I1]|].
        split; [exact I2|]. constructor; [lra | exact I3]. }
  destruct (G t a) as (I1 & I2 & I3).
  split; [exact I1|]. constructor; assumption.
Qed.

Lemma sorted_head_min (p0 : Q * Q) (t : list (Q * Q)) (q : Q * Q) :
  StronglySorted key_le (p0 :: t) -> In q (p0 :: t) -> fst p0 <= fst q.
Proof.
  intros Hs [<- | Hin]; [apply Qle_refl|].
  inversion Hs as [|? ? _ Hall]; subst.
  rewrite Forall_forall in Hall. apply Hall. exact Hin.
Qed.

Lemma key_in_sorted (xs ys : list Q) (a : Q) :
  length xs = length ys -> In a xs ->
  exists q, In q (sorted_by_key (combine xs ys)) /\ fst q = a.
Proof.
  intros Hlen Hin. rewrite <- (map_fst_combine_eq xs ys Hlen) in Hin.
  apply in_map_iff in Hin as (q & Hq & Hin). exists q. split; [|exact Hq].
  apply (Permutation_in _ (Permutation_sym (sorted_by_key_perm _))). exact Hin.
Qed.

Lemma sorted_key_in (xs ys : list Q) (q : Q * Q) :
  length xs = length ys ->
  In q (sorted_by_key (combine xs ys)) -> In (fst q) xs.
Proof.
  intros Hlen Hin. rewrite <- (map_fst_combine_eq xs ys Hlen).
  apply in_map. apply (Permutation_in _ (sorted_by_key_perm _)). exact Hin.
Qed.

(** What the function computes, in terms of the sorted pairs. *)
Lemma interpolated_value_cases (xs ys : list Q) (x : Q) :
  length xs = length ys -> xs <> [] ->
  let arr := sorted_by_key (combine xs ys) in
  ((Forall (fun a => x < a) xs \/ Forall (fun a => a <= x) xs) /\
   get_linear_interpolated_value xs ys x = Raise range_error)
  \/
  (exists l1 p1 p2 l2,
     arr = l1 ++ p1 :: p2 :: l2 /\ fst p1 <= x < fst p2 /\
     get_linear_interpolated_value xs ys x =
       Ok (snd p1 + (snd p2 - snd p1) / (fst p2 - fst p1) * (x - fst p1))).
Proof.
  intros Hlen Hne arr. unfold get_linear_interpolated_value.
  rewrite (zip_strict_ok _ _ Hlen). cbn [bind]. fold arr.
  pose proof (sorted_by_key_sorted (combine xs ys)) as Hs. fold arr in Hs.
  assert (Hkey : forall q, In q arr -> In (fst q) xs)
    by (intros q; apply sorted_key_in; exact Hlen).
  assert (Hin : forall a, In a xs -> exists q, In q arr /\ fst q = a)
    by (intros a; apply key_in_sorted; exact Hlen).
  destruct arr as [|p0 t] eqn:Earr.
  { destruct xs as [|a xs']; [congruence|].
    destruct (Hin a (or_introl eq_refl)) as (q & [] & _). }
  rewrite <- Earr in *.
  set (mask := map (fun p => Qltb x (fst p)) arr).
  destruct (np_where mask) as [|i rest] eqn:Ew.
  - left. split; [|reflexivity]. right.
    apply where_from_nil in Ew. rewrite Forall_forall in *.
    intros a Ha. destruct (Hin a Ha) as (q & Hq & <-).
    apply Qltb_ge. apply Ew. unfold mask. apply in_map_iff.
    exists q. auto.
  - apply where_from_first in Ew as (_ & Hi & Hbefore).
    rewrite Nat.sub_0_r in *.
    destruct i as [|i].
    + left. split; [|reflexivity]. left.
      unfold mask in Hi. rewrite Earr in Hi. simpl in Hi.
      injection Hi as Hi. apply Qltb_lt in Hi.
      rewrite Forall_forall. intros a Ha.
      destruct (Hin a Ha) as (q & Hq & <-).
      apply Qlt_le_trans with (fst p0); [exact Hi|].
      rewrite Earr in Hs, Hq. apply (sorted_head_min _ _ _ Hs Hq).
    + right.
      pose proof (Hbefore i (Nat.lt_succ_diag_r i)) as Hlo.
      unfold mask in Hi, Hlo. rewrite nth_error_map in Hi, Hlo.
      destruct (nth_error arr (S i)) as [p2|] eqn:E2; [|discriminate].
      destruct (nth_error arr i) as [p1|] eqn:E1; [|discriminate].
      simpl in Hi, Hlo. injection Hi as Hi. injection Hlo as Hlo.
      apply Qltb_lt in Hi. apply Qltb_ge in Hlo.
      destruct (nth_error_split _ _ E1) as (l1 & l' & Hsplit & Hl1).
      assert (El' : exists l2, l' = p2 :: l2).
      { rewrite Hsplit in E2. rewrite nth_error_app2 in E2 by lia.
        replace (S i - length l1)%nat with 1%nat in E2 by lia.
        destruct l' as [|p2' l2]; [discriminate|].
        injection E2 as ->. eauto. }
      destruct El' as (l2 & ->).
      exists l1, p1, p2, l2. split; [exact Hsplit|]. split; [auto|].
      replace (S i - 1)%nat with i by lia.
      rewrite (nth_error_nth _ _ _ E1), (nth_error_nth _ _ _ E2).
      reflexivity.
Qed.

(** C4 (as amended): for equally long, non-empty data the call raises the
    range error whenever [x] lies outside [[min(xs), max(xs)]], and for
    [min(xs) <= x < max(xs)] it returns the value interpolated between the
    two neighbouring pairs of the data sorted by x that bracket [x]; on
    {(0,0),(2,4)} it returns 2 at [x=1]. *)
Theorem interpolation_range (xs ys : list Q) (x lo hi : Q) :
  length xs = length ys -> py_min xs = Some lo -> py_max xs = Some hi ->
  (x < lo \/ hi < x ->
     get_linear_interpolated_value xs ys x = Raise range_error) /\
  (lo <= x < hi ->
     exists l1 p1 p2 l2,
       sorted_by_key (combine xs ys) = l1 ++ p1 :: p2 :: l2 /\
       fst p1 <= x < fst p2 /\
       get_linear_interpolated_value xs ys x =
         Ok (snd p1 + (snd p2 - snd p1) / (fst p2 - fst p1) * (x - fst p1))) /\
  (exists v, get_linear_interpolated_value [0; 2] [0; 4] 1 = Ok v /\ v == 2).
Proof.
  intros Hlen Hmin Hmax.
  apply py_min_spec in Hmin as (Hlo_in & Hlo).
  apply py_max_spec in Hmax as (Hhi_in & Hhi).
  assert (Hne : xs <> []) by (intros ->; destruct Hlo_in).
  rewrite Forall_forall in Hlo, Hhi.
  pose proof (interpolated_value_cases xs ys x Hlen Hne) as Hc. simpl in Hc.
  split; [|split].
  - intros Hout.
    destruct Hc as [[_ Hc] | (l1 & p1 & p2 & l2 & Harr & [H1 H2] & _)];
      [exact Hc|].
    exfalso.
    assert (I1 : In (fst p1) xs).
    { apply (sorted_key_in xs ys p1 Hlen). rewrite Harr.
      apply in_or_app. right. left. reflexivity. }
    assert (I2 : In (fst p2) xs).
    { apply (sorted_key_in xs ys p2 Hlen). rewrite Harr.
      apply in_or_app. right. right. left. reflexivity. }
    specialize (Hlo _ I1). specialize (Hhi _ I2).
    destruct Hout; lra.
  - intros [H1 H2].
    destruct Hc as [[[Hc | Hc] _] | Hc]; [| |exact Hc]; exfalso;
      rewrite Forall_forall in Hc.
    + specialize (Hc _ Hlo_in). lra.
    + specialize (Hc _ Hhi_in). lra.
  - eexists. split; [reflexivity|]. reflexivity.
Qed.

Lemma interpolation_range_witness :
  (1 < 0 \/ 2 < 1 ->
     get_linear_interpolated_value [0; 2] [0; 4] 1 = Raise range_error) /\
  (0 <= 1 < 2 ->
     exists l1 p1 p2 l2,
       sorted_by_key (combine [0; 2] [0; 4]) = l1 ++ p1 :: p2 :: l2 /\
       fst p1 <= 1 < fst p2 /\
       get_linear_interpolated_value [0; 2] [0; 4] 1 =
         Ok (snd p1 + (snd p2 - snd p1) / (fst p2 - fst p1) * (1 - fst p1))) /\
  (exists v, get_linear_interpolated_value [0; 2] [0; 4] 1 = Ok v /\ v == 2).
Proof.
  apply (interpolation_range [0; 2] [0; 4] 1 0 2); reflexivity.
Defined.

(** C4, counterexample: [x = max(xs)] lies inside the closed interval and
    the call raises the range error all the same; and with lists of
    different lengths the call raises for an [x] inside the interval, on the
    strict [zip]. *)
Lemma interpolation_at_max_raises :
  (py_min [0; 2] = Some 0 /\ py_max [0; 2] = Some 2 /\ 0 <= 2 <= 2 /\
   get_linear_interpolated_value [0; 2] [0; 4] 2 = Raise range_error) /\
  (0 <= 1 <= 2 /\
   get_linear_interpolated_value [0; 2] [0] 1 =
     Raise (ValueError "zip() argument 2 is shorter than argument 1")).
Proof.
  repeat split; try reflexivity; discriminate.
Qed.

(** ** Permutations *)

Lemma picks_sound {A : Type} (l : list A) (x : A) (r : list A) :
  In (x, r) (picks l) -> Permutation l (x :: r) /\ length l = S (length r).
Proof.
  revert x r. induction l as [|a t IH]; intros x r H; simpl in H; [destruct H|].
  destruct H as [H | H].
  - injection H as <- <-. split; reflexivity.
  - apply in_map_iff in H as ([y r'] & E & H). simpl in E.
    injection E as <- <-. apply IH in H as [HP HL]. split.
    + rewrite HP. apply perm_swap.
    + simpl. rewrite HL. reflexivity.
Qed.

Lemma picks_complete {A : Type} (l1 l2 : list A) (x : A) :
  In (x, l1 ++ l2) (picks (l1 ++ x :: l2)).
Proof.
  induction l1 as [|a t IH]; simpl; [left; reflexivity|].
  right. apply in_map_iff. exists (x, t ++ l2). split; [reflexivity | exact IH].
Qed.

Lemma perms_upto_spec {A : Type} (n : nat) (l p : list A) :
  (length l <= n)%nat -> In p (perms_upto n l) <-> Permutation l p.
Proof.
  revert l p. induction n as [|n IH]; intros l p Hlen.
  - destruct l; [|simpl in Hlen; lia]. simpl. split.
    + intros [<- | []]. constructor.
    + intro H. apply Permutation_nil in H. left. congruence.
  - destruct l as [|a t].
    + simpl. split.
      * intros [<- | []]. constructor.
      * intro H. apply Permutation_nil in H. left. congruence.
    + remember (a :: t) as l eqn:El.
      assert (Hunf : perms_upto (S n) l =
                flat_map (fun xr => map (cons (fst xr)) (perms_upto n (snd xr)))
                  (picks l)) by (rewrite El; reflexivity).
      rewrite Hunf, in_flat_map. split.
      * intros ([x r] & Hpick & Hin). simpl in Hin.
        apply in_map_iff in Hin as (p' & <- & Hin).
        apply picks_sound in Hpick as [HP HL].
        apply IH in Hin; [|lia].
        rewrite HP. apply perm_skip. exact Hin.
      * intro HP. destruct p as [|x p'].
        { apply Permutation_sym, Permutation_nil in HP. congruence. }
        assert (Hx : In x l)
          by (apply (Permutation_in _ (Permutation_sym HP)); left; reflexivity).
        apply in_split in Hx as (l1 & l2 & ->).
        exists (x, l1 ++ l2). split; [apply picks_complete|]. simpl.
        apply in_map. apply IH.
        -- rewrite length_app in *. simpl in Hlen. lia.
        -- apply Permutation_cons_inv with x.
           rewrite <- HP. apply Permutation_middle.
Qed.

Lemma permutations_spec {A : Type} (l p : list A) :
  In p (permutations l) <-> Permutation l p.
Proof. apply perms_upto_spec. apply Nat.le_refl. Qed.

(** ** Closeness of arrays of one shape *)

Definition close (a b : Q) : Prop :=
  Qabs (a - b) <= default_atol + default_rtol * Qabs b.

Lemma isclose_close (a b : Q) : isclose default_atol a b = true <-> close a b.
Proof. unfold isclose, close. apply Qle_bool_iff. Qed.

Lemma forallb_map2_Forall2 {A B : Type} (f : A -> B -> bool) (u : list A)
    (v : list B) :
  length u = length v ->
  forallb (fun c : bool => c) (map2 f u v) = true <->
  Forall2 (fun a b => f a b = true) u v.
Proof.
  revert v. induction u as [|a u IH]; intros [|b v] H; simpl in *;
    try discriminate.
  - split; [constructor | reflexivity].
  - rewrite andb_true_iff, IH by congruence. split.
    + intros [H1 H2]. constructor; assumption.
    + intro H2. inversion H2; subst. auto.
Qed.

Lemma np_allclose_same_shape (d : nat) (p q : list (list Q)) :
  length p = length q ->
  Forall (fun r => length r = d) p -> Forall (fun r => length r = d) q ->
  exists b, np_allclose p q default_atol = Ok b /\
            (b = true <-> Forall2 (Forall2 close) p q).
Proof.
  intros Hlen Hp Hq. unfold np_allclose.
  rewrite broadcast1_same by exact Hlen. cbn [bind].
  revert q Hlen Hq. induction Hp as [|r p Hr Hp IH]; intros [|s q] Hlen Hq;
    simpl in Hlen; try discriminate.
  - simpl. exists true. split; [reflexivity|]. split; [constructor | reflexivity].
  - inversion Hq as [|? ? Hs Hq']; subst. cbn [map2 mapM].
    rewrite broadcast1_same by congruence. cbn [bind].
    destruct (IH q) as (b & Hb & Hiff); [congruence | exact Hq'|].
    apply bind_ok in Hb as (cells & Hcells & Hb). rewrite Hcells. cbn [bind].
    injection Hb as <-. eexists. split; [reflexivity|].
    cbn [forallb]. rewrite andb_true_iff, Hiff.
    rewrite forallb_map2_Forall2 by congruence. split.
    + intros [H1 H2]. constructor; [|exact H2].
      eapply Forall2_impl; [|exact H1]. intros a b. apply isclose_close.
    + intro H. inversion H as [|? ? ? ? H1 H2]; subst. split; [|exact H2].
      eapply Forall2_impl; [|exact H1]. intros a b. apply isclose_close.
Qed.

Lemma any_gen_true {A : Type} (f : A -> result bool) (gen : list A) :
  (forall p, In p gen -> exists b, f p = Ok b) ->
  any_gen f gen = Ok true <-> exists p, In p gen /\ f p = Ok true.
Proof.
  induction gen as [|a t IH]; intro Hok; simpl.
  - split; [discriminate | intros (p & [] & _)].
  - destruct (Hok a (or_introl eq_refl)) as (b & Hb). rewrite Hb. cbn [bind].
    destruct b.
    + split; [|reflexivity]. intros _. exists a. auto.
    + rewrite IH by (intros; apply Hok; right; assumption). split.
      * intros (p & Hin & Hp). exists p. auto.
      * intros (p & [<- | Hin] & Hp); [congruence|]. exists p. auto.
Qed.

(** ** The class [Simplex] *)

Lemma np_array_rect (c arr : list (list Q)) :
  np_array c = Ok arr -> arr = c /\ Forall (fun r => length r = ncols c) c.
Proof.
  destruct c as [|r t]; simpl.
  - intros [= <-]. split; [reflexivity | constructor].
  - destruct (forallb (fun r' => Nat.eqb (length r') (length r)) t) eqn:E;
      [|discriminate].
    intros [= <-]. split; [reflexivity|]. constructor; [reflexivity|].
    rewrite forallb_forall in E. apply Forall_forall. intros r' Hin.
    apply Nat.eqb_eq, E, Hin.
Qed.

(** What a successfully constructed simplex holds. *)
Lemma init_inv (c : list (list Q)) (s : Simplex.t) :
  Simplex.__init__ c = Ok s ->
  Simplex._coords s = c /\ c <> [] /\
  Simplex.space_dim s = length c /\ Simplex.simplex_dim s = ncols c /\
  Forall (fun r => length r = ncols c) c /\
  (Simplex.space_dim s = (Simplex.simplex_dim s + 1)%nat ->
   Simplex._aug s = Some (map (fun r => r ++ [1]) c) /\
   exists ai, linalg_inv (map (fun r => r ++ [1]) c) = Ok ai /\
              Simplex._aug_inv s = Some ai).
Proof.
  unfold Simplex.__init__. intro H.
  apply bind_ok in H as (arr & Harr & H).
  apply np_array_rect in Harr as [-> Hrect].
  destruct c as [|r t] eqn:Ec; [discriminate|]. rewrite <- Ec in *.
  assert (Hne : c <> []) by (rewrite Ec; discriminate).
  destruct (Nat.eqb (length c) (ncols c + 1)) eqn:E.
  - apply bind_ok in H as (ai & Hai & H). injection H as <-. cbn.
    do 5 (split; [solve [auto]|]). intros _. split; [reflexivity|].
    exists ai. auto.
  - injection H as <-. cbn. do 5 (split; [solve [auto]|]).
    apply Nat.eqb_neq in E. intro. contradiction.
Qed.

Lemma any_gen_ok {A : Type} (f : A -> result bool) (gen : list A) :
  (forall p, In p gen -> exists b, f p = Ok b) ->
  exists b, any_gen f gen = Ok b.
Proof.
  induction gen as [|a t IH]; intro Hok; simpl; [eauto|].
  destruct (Hok a (or_introl eq_refl)) as (b & ->). cbn [bind].
  destruct b; [eauto|]. apply IH. intros; apply Hok; right; assumption.
Qed.

(** C6 (as amended): two simplices of one shape compare without raising, and
    they compare equal exactly when some permutation of the first one's
    vertex list is close to the second one's, entry by entry, within the
    default tolerances of [np.allclose]:
    [|a - b| <= 1e-8 + 1e-5 * |b|]. *)
Theorem simplex_eq_close_permutation (c1 c2 : list (list Q))
    (s1 s2 : Simplex.t) :
  Simplex.__init__ c1 = Ok s1 -> Simplex.__init__ c2 = Ok s2 ->
  Simplex.space_dim s1 = Simplex.space_dim s2 ->
  Simplex.simplex_dim s1 = Simplex.simplex_dim s2 ->
  exists b, Simplex.__eq__ s1 s2 = Ok b /\
    (b = true <->
     exists p, Permutation (Simplex.coords s1) p /\
               Forall2 (Forall2 close) p (Simplex.coords s2)).
Proof.
  intros H1 H2 Hs Hd.
  apply init_inv in H1 as (E1 & _ & Sp1 & Sd1 & R1 & _).
  apply init_inv in H2 as (E2 & _ & Sp2 & Sd2 & R2 & _).
  unfold Simplex.__eq__, Simplex.coords. rewrite E1, E2.
  assert (Hall : forall p, Permutation c1 p ->
            exists b, np_allclose p c2 default_atol = Ok b /\
                      (b = true <-> Forall2 (Forall2 close) p c2)).
  { intros p HP. apply (np_allclose_same_shape (ncols c1)).
    - rewrite <- (Permutation_length HP). congruence.
    - apply (Permutation_Forall HP). exact R1.
    - replace (ncols c1) with (ncols c2) by congruence. exact R2. }
  assert (Hok : forall p, In p (permutations c1) ->
            exists b, np_allclose p c2 default_atol = Ok b).
  { intros p Hin. apply permutations_spec in Hin.
    destruct (Hall p Hin) as (b & Hb & _). eauto. }
  destruct (any_gen_ok _ _ Hok) as (b & Hb). exists b. split; [exact Hb|].
  pose proof (any_gen_true _ _ Hok) as Hiff. split.
  - intros ->. apply Hiff in Hb as (p & Hin & Hp).
    apply permutations_spec in Hin. exists p. split; [exact Hin|].
    destruct (Hall p Hin) as (b & Hb & Hclose).
    apply Hclose. congruence.
  - intros (p & HP & Hclose).
    assert (Ht : any_gen (fun p => np_allclose p c2 default_atol)
                   (permutations c1) = Ok true).
    { apply Hiff. exists p. split; [apply permutations_spec; exact HP|].
      destruct (Hall p HP) as (b' & Hb' & Hc). rewrite Hb'. f_equal.
      apply Hc. exact Hclose. }
    congruence.
Qed.

Definition triangle : list (list Q) := [[0; 0]; [1; 0]; [0; 1]].
Definition triangle_turned : list (list Q) := [[0; 1]; [0; 0]; [1; 0]].
Definition triangle_nudged : list (list Q) :=
  [[1 # 1000000000; 0]; [1; 0]; [0; 1]].

Lemma simplex_eq_close_permutation_witness :
  exists s1 s2,
    Simplex.__init__ triangle = Ok s1 /\
    Simplex.__init__ triangle_turned = Ok s2 /\
    exists b, Simplex.__eq__ s1 s2 = Ok b /\
      (b = true <->
       exists p, Permutation (Simplex.coords s1) p /\
                 Forall2 (Forall2 close) p (Simplex.coords s2)).
Proof.
  destruct (Simplex.__init__ triangle) as [s1|e1] eqn:E1;
    [|vm_compute in E1; discriminate].
  destruct (Simplex.__init__ triangle_turned) as [s2|e2] eqn:E2;
    [|vm_compute in E2; discriminate].
  exists s1, s2. split; [reflexivity|]. split; [reflexivity|].
  apply (simplex_eq_close_permutation triangle triangle_turned s1 s2 E1 E2).
  - vm_compute in E1, E2. injection E1 as <-. injection E2 as <-. reflexivity.
  - vm_compute in E1, E2. injection E1 as <-. injection E2 as <-. reflexivity.
Defined.

(** C6, counterexample: a vertex moved by 1e-9 leaves the comparison true,
    although no permutation of the one vertex list equals the other. *)
Lemma simplex_eq_is_not_exact :
  exists s1 s2,
    Simplex.__init__ triangle = Ok s1 /\
    Simplex.__init__ triangle_nudged = Ok s2 /\
    Simplex.__eq__ s1 s2 = Ok true /\
    ~ (exists p, Permutation (Simplex.coords s1) p /\
                 Forall2 (Forall2 Qeq) p (Simplex.coords s2)).
Proof.
  eexists. eexists. split; [vm_compute; reflexivity|].
  split; [vm_compute; reflexivity|]. split; [vm_compute; reflexivity|].
  intros (p & HP & HF). cbn in HP, HF.
  inversion HF as [|r ? p' ? Hr _]; subst.
  assert (Hin : In r triangle)
    by (apply (Permutation_in _ (Permutation_sym HP)); left; reflexivity).
  inversion Hr as [|a ? ? ? Ha _]; subst.
  unfold triangle in Hin. simpl in Hin.
  destruct Hin as [Hin | [Hin | [Hin | []]]]; injection Hin as <- _;
    discriminate Ha.
Qed.

(** C10, the hash contract broken: a one-vertex simplex is broadcast by
    [np.allclose] against a two-vertex one, so the two compare equal (in
    both directions) while their hashes, the vertex counts, differ. *)
Theorem simplex_equal_with_different_hash :
  exists a b,
    Simplex.__init__ [[0; 0]] = Ok a /\
    Simplex.__init__ [[0; 0]; [0; 0]] = Ok b /\
    Simplex.__eq__ a b = Ok true /\ Simplex.__eq__ b a = Ok true /\
    Simplex.__hash__ a = 1%nat /\ Simplex.__hash__ b = 2%nat.
Proof.
  eexists. eexists. split; [vm_compute; reflexivity|].
  split; [vm_compute; reflexivity|]. repeat split.
Qed.

(** The failing input of C5: the first subset point is 1e-9 away from the
    origin, the second superset row has a neighbour within the relative
    tolerance. *)
Definition subset5 : list (list Q) := [[1 # 1000000000; 0; 0]; [1; 1; 1]].
Definition superset5 : list (list Q) :=
  [[0; 0; 0]; [1; 1; 1]; [1000001 # 1000000; 1; 1]].

(** C5, the mapping returned although it does not reproduce the subset: with
    [atol=1e-10] the first subset point has no match and the second has two,
    so two indices come back; the rows they select differ from the subset,
    and the fallback test, which runs with the default 1e-8 instead of the
    caller's [atol], finds the subset contained and suppresses the error. *)
Theorem coord_list_mapping_returns_unmatched :
  coord_list_mapping subset5 superset5 tol10 = Ok [1%nat; 2%nat] /\
  np_allclose subset5 (map (fun j => nth j superset5 []) [1%nat; 2%nat]) tol10
    = Ok false /\
  ~ In [1 # 1000000000; 0; 0] superset5 /\
  is_coord_subset subset5 superset5 tol10 = Ok false /\
  is_coord_subset subset5 superset5 default_atol = Ok true.
Proof.
  split; [vm_compute; reflexivity|]. split; [vm_compute; reflexivity|].
  split; [|split; vm_compute; reflexivity].
  unfold superset5. simpl. intros [H | [H | [H | []]]]; discriminate H.
Qed.

(** ** Sums and tabulated arrays *)

Lemma length_tabulate {A : Type} (n : nat) (f : nat -> A) :
  length (tabulate n f) = n.
Proof. unfold tabulate. rewrite length_map, length_seq. reflexivity. Qed.

Lemma nth_tabulate {A : Type} (n : nat) (f : nat -> A) (i : nat) (d : A) :
  (i < n)%nat -> nth i (tabulate n f) d = f i.
Proof.
  intro H. unfold tabulate.
  rewrite (nth_indep _ d (f O)) by (rewrite length_map, length_seq; exact H).
  rewrite map_nth, seq_nth by exact H. reflexivity.
Qed.

Lemma get_mtab (n m : nat) (f : nat -> nat -> Q) (i j : nat) :
  (i < n)%nat -> (j < m)%nat -> get (mtab n m f) i j = f i j.
Proof.
  intros Hi Hj. unfold get, mtab.
  rewrite nth_tabulate by exact Hi. apply nth_tabulate. exact Hj.
Qed.

Lemma mtab_shape (n m : nat) (f : nat -> nat -> Q) :
  length (mtab n m f) = n /\ Forall (fun r => length r = m) (mtab n m f).
Proof.
  unfold mtab. split; [apply length_tabulate|].
  apply Forall_forall. intros r Hin. unfold tabulate in Hin.
  apply in_map_iff in Hin as (i & <- & _). apply length_tabulate.
Qed.

Lemma qsum_ext (n : nat) (f g : nat -> Q) :
  (forall i, (i < n)%nat -> f i == g i) -> qsum n f == qsum n g.
Proof.
  induction n as [|n IH]; intro H; simpl; [reflexivity|].
  rewrite IH by (intros; apply H; lia). rewrite (H n) by lia. reflexivity.
Qed.

Lemma qsum_zero (n : nat) (f : nat -> Q) :
  (forall i, (i < n)%nat -> f i == 0) -> qsum n f == 0.
Proof.
  induction n as [|n IH]; intro H; simpl; [reflexivity|].
  rewrite IH by (intros; apply H; lia). rewrite (H n) by lia. ring.
Qed.

Lemma qsum_plus (n : nat) (f g : nat -> Q) :
  qsum n (fun i => f i + g i) == qsum n f + qsum n g.
Proof. induction n as [|n IH]; simpl; [ring|]. rewrite IH. ring. Qed.

Lemma qsum_scale (n : nat) (c : Q) (f : nat -> Q) :
  qsum n (fun i => c * f i) == c * qsum n f.
Proof. induction n as [|n IH]; simpl; [ring|]. rewrite IH. ring. Qed.

Lemma qsum_swap (n m : nat) (f : nat -> nat -> Q) :
  qsum n (fun i => qsum m (fun j => f i j)) ==
  qsum m (fun j => qsum n (fun i => f i j)).
Proof.
  induction n as [|n IH]; simpl.
  - symmetry. apply qsum_zero. reflexivity.
  - rewrite IH, <- qsum_plus. reflexivity.
Qed.

(** A sum against a unit vector selects one term. *)
Lemma qsum_delta (n k : nat) (f : nat -> Q) :
  (k < n)%nat ->
  qsum n (fun i => f i * (if Nat.eqb i k then 1 else 0)) == f k.
Proof.
  induction n as [|n IH]; intro H; [lia|]. simpl.
  destruct (Nat.eq_dec k n) as [->|Hne].
  - rewrite Nat.eqb_refl.
    rewrite qsum_zero.
    + ring.
    + intros i Hi. replace (Nat.eqb i n) with false
        by (symmetry; apply Nat.eqb_neq; lia). ring.
  - replace (Nat.eqb n k) with false by (symmetry; apply Nat.eqb_neq; lia).
    rewrite IH by lia. ring.
Qed.

Lemma Forall2_Qeq_nth (l l' : list Q) :
  length l = length l' ->
  (forall i, (i < length l)%nat -> nth i l 0 == nth i l' 0) ->
  Forall2 Qeq l l'.
Proof.
  revert l'. induction l as [|a l IH]; intros [|b l'] Hlen H; simpl in Hlen;
    try discriminate; constructor.
  - apply (H O). simpl. lia.
  - apply IH; [congruence|]. intros i Hi. apply (H (S i)). simpl. lia.
Qed.

(** ** Gauss-Jordan elimination computes a left inverse *)

Lemma swap_rows_get (n m : nat) (w : list (list Q)) (k p i j : nat) :
  (i < n)%nat -> (j < m)%nat ->
  get (swap_rows n m w k p) i j =
  get w (if Nat.eqb i k then p else if Nat.eqb i p then k else i) j.
Proof.
  intros Hi Hj. unfold swap_rows. rewrite get_mtab by assumption. reflexivity.
Qed.

Lemma eliminate_get (n m : nat) (w : list (list Q)) (k i j : nat) :
  (i < n)%nat -> (j < m)%nat ->
  get (eliminate n m w k) i j =
  if Nat.eqb i k then get w k j / get w k k
  else get w i j - get w i k * (get w k j / get w k k).
Proof.
  intros Hi Hj. unfold eliminate. rewrite get_mtab by assumption. reflexivity.
Qed.

Lemma find_pivot_some (w : list (list Q)) (n k p : nat) :
  find_pivot w n k = Some p ->
  (k <= p < n)%nat /\ ~ get w p k == 0.
Proof.
  unfold find_pivot. intro H. apply find_some in H as [Hin Hp].
  apply in_seq in Hin. split; [lia|].
  intro E. apply Qeq_bool_iff in E. rewrite E in Hp. discriminate.
Qed.

Lemma find_pivot_none (w : list (list Q)) (n k : nat) :
  find_pivot w n k = None ->
  forall p, (k <= p < n)%nat -> get w p k == 0.
Proof.
  unfold find_pivot. intros H p Hp.
  assert (Hin : In p (seq k (n - k))) by (apply in_seq; lia).
  pose proof (find_none _ _ H p Hin) as Hn. simpl in Hn.
  apply negb_false_iff in Hn. apply Qeq_bool_iff. exact Hn.
Qed.

Section GaussJordan.

Variable n : nat.
Variable a : list (list Q).

(** In every row of [[l | r]] the right half times [a] is the left half. *)
Definition rows_track (w : list (list Q)) : Prop :=
  forall i j, (i < n)%nat -> (j < n)%nat ->
    qsum n (fun t => get w i (n + t) * get a t j) == get w i j.

(** The first [k] columns are those of the identity. *)
Definition unit_columns (k : nat) (w : list (list Q)) : Prop :=
  forall i j, (i < n)%nat -> (j < k)%nat ->
    get w i j == (if Nat.eqb i j then 1 else 0).

Lemma rows_track_augment : rows_track (augment_identity n a).
Proof.
  intros i j Hi Hj. unfold augment_identity.
  rewrite get_mtab by lia.
  replace (Nat.ltb j n) with true by (symmetry; apply Nat.ltb_lt; exact Hj).
  rewrite (qsum_ext _ _
    (fun t => get a t j * (if Nat.eqb t i then 1 else 0))).
  - apply (qsum_delta n i (fun t => get a t j)). exact Hi.
  - intros t Ht. rewrite get_mtab by lia.
    replace (Nat.ltb (n + t) n) with false
      by (symmetry; apply Nat.ltb_ge; lia).
    replace (n + t - n)%nat with t by lia. ring.
Qed.

Lemma rows_track_swap (w : list (list Q)) (k p : nat) :
  (k < n)%nat -> (p < n)%nat ->
  rows_track w -> rows_track (swap_rows n (2 * n) w k p).
Proof.
  intros Hk Hp H i j Hi Hj.
  rewrite swap_rows_get by lia.
  set (s := if Nat.eqb i k then p else if Nat.eqb i p then k else i).
  assert (Hs : (s < n)%nat)
    by (unfold s; destruct (Nat.eqb i k), (Nat.eqb i p); assumption).
  rewrite <- (H s j Hs Hj). apply qsum_ext. intros t Ht.
  rewrite swap_rows_get by lia. reflexivity.
Qed.

Lemma rows_track_eliminate (w : list (list Q)) (k : nat) :
  (k < n)%nat -> rows_track w -> rows_track (eliminate n (2 * n) w k).
Proof.
  intros Hk H i j Hi Hj.
  rewrite eliminate_get by lia.
  set (c := get w k k).
  destruct (Nat.eqb i k) eqn:E.
  - rewrite (qsum_ext _ _
      (fun t => / c * (get w k (n + t) * get a t j))).
    + rewrite qsum_scale, (H k j Hk Hj). unfold Qdiv. ring.
    + intros t Ht. rewrite eliminate_get by lia. rewrite E.
      fold c. unfold Qdiv. ring.
  - rewrite (qsum_ext _ _
      (fun t => get w i (n + t) * get a t j
                + (- (get w i k * / c)) * (get w k (n + t) * get a t j))).
    + rewrite qsum_plus, qsum_scale, (H i j Hi Hj), (H k j Hk Hj).
      unfold Qdiv. ring.
    + intros t Ht. rewrite eliminate_get by lia. rewrite E.
      fold c. unfold Qdiv. ring.
Qed.

Lemma unit_columns_step (w : list (list Q)) (k p : nat) :
  (k <= p < n)%nat -> ~ get w p k == 0 ->
  unit_columns k w ->
  unit_columns (S k)
    (eliminate n (2 * n) (swap_rows n (2 * n) w k p) k).
Proof.
  intros Hp Hc H i j Hi Hj.
  set (w1 := swap_rows n (2 * n) w k p).
  assert (Hkk : get w1 k k = get w p k).
  { unfold w1. rewrite swap_rows_get by lia. rewrite Nat.eqb_refl.
    reflexivity. }
  assert (Hrow : forall j', (j' < k)%nat -> get w1 k j' == 0).
  { intros j' Hj'. unfold w1. rewrite swap_rows_get by lia.
    rewrite Nat.eqb_refl. rewrite (H p j') by lia.
    replace (Nat.eqb p j') with false by (symmetry; apply Nat.eqb_neq; lia).
    reflexivity. }
  assert (Hold : forall i' j', (i' < n)%nat -> (j' < k)%nat ->
            get w1 i' j' == (if Nat.eqb i' j' then 1 else 0)).
  { intros i' j' Hi' Hj'. unfold w1. rewrite swap_rows_get by lia.
    destruct (Nat.eqb i' k) eqn:E1.
    - apply Nat.eqb_eq in E1. subst i'. rewrite (H p j') by lia.
      replace (Nat.eqb p j') with false by (symmetry; apply Nat.eqb_neq; lia).
      replace (Nat.eqb k j') with false by (symmetry; apply Nat.eqb_neq; lia).
      reflexivity.
    - destruct (Nat.eqb i' p) eqn:E2.
      + apply Nat.eqb_eq in E2. subst i'. rewrite (H k j') by lia.
        replace (Nat.eqb k j') with false
          by (symmetry; apply Nat.eqb_neq; lia).
        replace (Nat.eqb p j') with false
          by (symmetry; apply Nat.eqb_neq; lia).
        reflexivity.
      + apply H; assumption. }
  rewrite eliminate_get by lia. rewrite Hkk.
  destruct (Nat.eq_dec j k) as [->|Hjk].
  - (* the pivot column *)
    destruct (Nat.eqb i k) eqn:E.
    + rewrite Hkk. field. exact Hc.
    + rewrite Hkk. field. exact Hc.
  - (* an earlier column *)
    assert (Hlt : (j < k)%nat) by lia.
    destruct (Nat.eqb i k) eqn:E.
    + apply Nat.eqb_eq in E. subst i.
      replace (Nat.eqb k j) with false by (symmetry; apply Nat.eqb_neq; lia).
      rewrite (Hrow j Hlt). field. exact Hc.
    + rewrite (Hrow j Hlt), (Hold i j Hi Hlt). field. exact Hc.
Qed.

Lemma gauss_jordan_correct (steps k : nat) (w w' : list (list Q)) :
  (k + steps = n)%nat ->
  rows_track w -> unit_columns k w ->
  gauss_jordan steps n k w = Ok w' ->
  rows_track w' /\ unit_columns n w'.
Proof.
  revert k w. induction steps as [|s IH]; intros k w Hk Ht Hu H; simpl in H.
  - injection H as <-. replace n with k by lia. auto.
  - destruct (find_pivot w n k) as [p|] eqn:Ep; [|discriminate].
    apply find_pivot_some in Ep as [Hp Hc].
    apply IH in H; [exact H | lia | |].
    + apply rows_track_eliminate; [lia|].
      apply rows_track_swap; [lia | lia | exact Ht].
    + apply unit_columns_step; assumption.
Qed.

End GaussJordan.

Lemma is_matrix_spec (n m : nat) (a : list (list Q)) :
  is_matrix n m a = true <->
  length a = n /\ Forall (fun r => length r = m) a.
Proof.
  unfold is_matrix. rewrite andb_true_iff, Nat.eqb_eq, forallb_forall,
    Forall_forall.
  split; intros [H1 H2]; (split; [exact H1|]); intros r Hr;
    specialize (H2 r Hr); apply Nat.eqb_eq; exact H2.
Qed.

(** [np.linalg.inv]: a result is a square array whose product with the
    argument, on the left, is the identity. *)
Lemma linalg_inv_left_inverse (a b : list (list Q)) :
  linalg_inv a = Ok b ->
  let n := length a in
  length b = n /\ Forall (fun r => length r = n) b /\
  forall i j, (i < n)%nat -> (j < n)%nat ->
    qsum n (fun t => get b i t * get a t j) ==
    (if Nat.eqb i j then 1 else 0).
Proof.
  intro H. unfold linalg_inv in H. cbv zeta in *.
  set (n := length a) in *.
  destruct (is_matrix n n a) eqn:Em; [|discriminate].
  apply bind_ok in H as (w & Hw & H). injection H as <-.
  destruct (mtab_shape n n (fun i j => get w i (n + j))) as [S1 S2].
  split; [exact S1|]. split; [exact S2|].
  apply (gauss_jordan_correct n a n 0 _ w) in Hw as [Ht Hu];
    [| lia | apply rows_track_augment | intros i j _ Hj; lia].
  intros i j Hi Hj. rewrite <- (Hu i j Hi Hj), <- (Ht i j Hi Hj).
  apply qsum_ext. intros t Hlt. rewrite get_mtab by lia. reflexivity.
Qed.

(** ** Volume and barycentric coordinates *)

Definition augmented (c : list (list Q)) : list (list Q) :=
  map (fun r => r ++ [1]) c.

Lemma augmented_shape (c : list (list Q)) (d : nat) :
  Forall (fun r => length r = d) c ->
  length (augmented c) = length c /\
  Forall (fun r => length r = S d) (augmented c).
Proof.
  intro H. unfold augmented. split; [apply length_map|].
  apply Forall_forall. intros r Hin. apply in_map_iff in Hin as (r' & <- & Hin).
  rewrite Forall_forall in H. rewrite length_app, (H r' Hin). simpl. lia.
Qed.

Definition unit_tetrahedron : list (list Q) :=
  [[0; 0; 0]; [1; 0; 0]; [0; 1; 0]; [0; 0; 1]].

(** C8: the volume of a full-dimensional simplex is the absolute value of
    the determinant of its augmented vertex matrix divided by [d!], [d] the
    dimension; the unit right tetrahedron has volume 1/6. *)
Theorem simplex_volume_formula (c : list (list Q)) (s : Simplex.t) :
  Simplex.__init__ c = Ok s ->
  Simplex.space_dim s = (Simplex.simplex_dim s + 1)%nat ->
  Simplex._aug s = Some (augmented c) /\
  linalg_det (augmented c) = Ok (det_rec (length c) (augmented c)) /\
  Simplex.volume s =
    Ok (Qabs (det_rec (length c) (augmented c))
        / inject_Z (Z.of_nat (fact (Simplex.simplex_dim s)))) /\
  (exists t v, Simplex.__init__ unit_tetrahedron = Ok t /\
               Simplex.volume t = Ok v /\ v == 1 # 6).
Proof.
  intros H Hfull.
  apply init_inv in H as (E & Hne & Sp & Sd & Hrect & Haug).
  destruct (Haug Hfull) as (Ea & _). fold (augmented c) in Ea.
  destruct (augmented_shape c _ Hrect) as [L1 L2].
  assert (Hdet : linalg_det (augmented c) =
                 Ok (det_rec (length c) (augmented c))).
  { unfold linalg_det. rewrite L1.
    replace (is_matrix (length c) (length c) (augmented c)) with true;
      [reflexivity|].
    symmetry. apply is_matrix_spec. split; [exact L1|].
    replace (length c) with (S (ncols c)) by lia. exact L2. }
  split; [exact Ea|]. split; [exact Hdet|]. split.
  - unfold Simplex.volume. rewrite Ea, Hdet. reflexivity.
  - eexists. eexists. split; [vm_compute; reflexivity|].
    split; [vm_compute; reflexivity|]. reflexivity.
Qed.

Lemma simplex_volume_formula_witness :
  exists s,
    Simplex.__init__ unit_tetrahedron = Ok s /\
    Simplex._aug s = Some (augmented unit_tetrahedron) /\
    linalg_det (augmented unit_tetrahedron) =
      Ok (det_rec (length unit_tetrahedron) (augmented unit_tetrahedron)) /\
    Simplex.volume s =
      Ok (Qabs (det_rec (length unit_tetrahedron) (augmented unit_tetrahedron))
          / inject_Z (Z.of_nat (fact (Simplex.simplex_dim s)))) /\
    (exists t v, Simplex.__init__ unit_tetrahedron = Ok t /\
                 Simplex.volume t = Ok v /\ v == 1 # 6).
Proof.
  assert (Hs : exists s, Simplex.__init__ unit_tetrahedron = Ok s)
    by (eexists; vm_compute; reflexivity).
  destruct Hs as [s E]. exists s. split; [exact E|].
  apply (simplex_volume_formula unit_tetrahedron s E).
  vm_compute in E. injection E as <-. reflexivity.
Defined.

Lemma get_removelast (a : list (list Q)) (d i j : nat) :
  Forall (fun r => length r = S d) a -> (i < length a)%nat -> (j < d)%nat ->
  get (map (@removelast Q) a) i j = get a i j.
Proof.
  intros Hrect Hi Hj. unfold get.
  rewrite (nth_indep _ [] (removelast [])) by (rewrite length_map; exact Hi).
  rewrite map_nth.
  assert (Hr : length (nth i a []) = S d).
  { rewrite Forall_forall in Hrect. apply Hrect. apply nth_In. exact Hi. }
  destruct (exists_last (l := nth i a [])) as (r & x & Er).
  { intro E. rewrite E in Hr. discriminate. }
  rewrite Er in *. rewrite removelast_last.
  rewrite length_app in Hr. simpl in Hr.
  rewrite app_nth1 by lia. reflexivity.
Qed.

Lemma ncols_removelast (a : list (list Q)) (d : nat) :
  a <> [] -> Forall (fun r => length r = S d) a ->
  ncols (map (@removelast Q) a) = d.
Proof.
  intros Hne Hrect. destruct a as [|r t]; [congruence|].
  unfold ncols. simpl hd. inversion Hrect as [|? ? Hr _]; subst.
  destruct (exists_last (l := r)) as (r' & x & ->).
  { intro E. rewrite E in Hr. discriminate. }
  rewrite removelast_last. rewrite length_app in Hr. simpl in Hr. lia.
Qed.

Lemma ncols_rect (a : list (list Q)) (m : nat) :
  a <> [] -> Forall (fun r => length r = m) a -> ncols a = m.
Proof.
  intros Hne Hrect. destruct a as [|r t]; [congruence|].
  inversion Hrect; subst. reflexivity.
Qed.




(** ** Counting the lattice points of a cell *)

Lemma inject_Z_le (x y : Z) : (x <= y)%Z <-> inject_Z x <= inject_Z y.
Proof. rewrite Zle_Qle. reflexivity. Qed.

Lemma inject_Z_lt (x y : Z) : (x < y)%Z <-> inject_Z x < inject_Z y.
Proof. rewrite Zlt_Qlt. reflexivity. Qed.

(** Consecutive integers from [base]. *)
Definition zrange (base : Z) (n : nat) : list Z :=
  map (fun i => (base + Z.of_nat i)%Z) (seq 0 n).

Lemma zrange_In (base : Z) (n : nat) (z : Z) :
  In z (zrange base n) <-> (base <= z < base + Z.of_nat n)%Z.
Proof.
  unfold zrange. rewrite in_map_iff. split.
  - intros (i & <- & Hi). apply in_seq in Hi. lia.
  - intro H. exists (Z.to_nat (z - base)). split; [lia|].
    apply in_seq. lia.
Qed.

Lemma zrange_length (base : Z) (n : nat) : length (zrange base n) = n.
Proof. unfold zrange. rewrite length_map, length_seq. reflexivity. Qed.

Lemma zrange_NoDup (base : Z) (n : nat) : NoDup (zrange base n).
Proof.
  unfold zrange. apply Injective_map_NoDup; [|apply seq_NoDup].
  intros i j H. lia.
Qed.

Definition unit_interval (t : Q) : Prop := 0 <= t < 1.

(** The integers [z] with [(z - q) / c] in [[0, 1)]. *)
Definition slab (c : Z) (q : Q) : list Z :=
  zrange (if (0 <? c)%Z then Qceiling q else (Qfloor q + c + 1)%Z)
         (Z.abs_nat c).

Lemma slab_In (c : Z) (q : Q) (z : Z) :
  c <> 0%Z ->
  In z (slab c q) <->
  exists t, unit_interval t /\ t * inject_Z c == inject_Z z - q.
Proof.
  intro Hc. unfold slab, unit_interval. rewrite zrange_In.
  pose proof (Qle_ceiling q) as C1. pose proof (Qceiling_lt q) as C2.
  pose proof (Qfloor_le q) as F1. pose proof (Qlt_floor q) as F2.
  rewrite inject_Z_plus in F2. unfold Z.sub in C2.
  rewrite inject_Z_plus, inject_Z_opp in C2.
  change (inject_Z 1) with 1 in *.
  destruct (0 <? c)%Z eqn:E.
  - apply Z.ltb_lt in E.
    assert (Hcq : 0 < inject_Z c) by (apply (inject_Z_lt 0 c); exact E).
    rewrite Zabs2Nat.id_abs, Z.abs_eq by lia. split.
    + intros [H1 H2].
      apply inject_Z_le in H1.
      assert (H2' : (z + 1 <= Qceiling q + c)%Z) by lia.
      apply inject_Z_le in H2'. rewrite !inject_Z_plus in H2'.
      change (inject_Z 1) with 1 in H2'.
      exists ((inject_Z z - q) / inject_Z c).
      assert (Hm : (inject_Z z - q) / inject_Z c * inject_Z c
                   == inject_Z z - q) by (field; lra).
      split; [|exact Hm]. split; nra.
    + intros (t & [T0 T1] & Ht). split.
      * assert (H : inject_Z (Qceiling q - 1) < inject_Z z).
        { unfold Z.sub. rewrite inject_Z_plus, inject_Z_opp.
          change (inject_Z 1) with 1. nra. }
        apply inject_Z_lt in H. lia.
      * apply inject_Z_lt. rewrite inject_Z_plus. nra.
  - apply Z.ltb_ge in E. assert (Hneg : (c < 0)%Z) by lia.
    assert (Hcq : inject_Z c < 0) by (apply (inject_Z_lt c 0); exact Hneg).
    rewrite Zabs2Nat.id_abs, Z.abs_neq by lia. split.
    + intros [H1 H2].
      assert (H1' : (Qfloor q + c + 1 <= z)%Z) by lia.
      assert (H2' : (z <= Qfloor q)%Z) by lia.
      apply inject_Z_le in H1', H2'. rewrite !inject_Z_plus in H1'.
      change (inject_Z 1) with 1 in H1'.
      exists ((inject_Z z - q) / inject_Z c).
      assert (Hm : (inject_Z z - q) / inject_Z c * inject_Z c
                   == inject_Z z - q) by (field; lra).
      split; [|exact Hm]. split; nra.
    + intros (t & [T0 T1] & Ht). split.
      * assert (H : inject_Z (Qfloor q + c) < inject_Z z).
        { rewrite inject_Z_plus. nra. }
        apply inject_Z_lt in H. lia.
      * assert (H : inject_Z z < inject_Z (Qfloor q + 1)).
        { rewrite inject_Z_plus. change (inject_Z 1) with 1. nra. }
        apply inject_Z_lt in H. lia.
Qed.

Lemma slab_length (c : Z) (q : Q) : length (slab c q) = Z.abs_nat c.
Proof. apply zrange_length. Qed.

Lemma slab_NoDup (c : Z) (q : Q) : NoDup (slab c q).
Proof. apply zrange_NoDup. Qed.

(** Lists built by [flat_map] from blocks of one length that carry their
    index. *)
Lemma flat_map_length_const {A B : Type} (g : A -> list B) (l : list A)
    (k : nat) :
  (forall x, In x l -> length (g x) = k) ->
  length (flat_map g l) = (length l * k)%nat.
Proof.
  induction l as [|a t IH]; intro H; simpl; [reflexivity|].
  rewrite length_app, (H a) by (left; reflexivity).
  rewrite IH by (intros; apply H; right; assumption). reflexivity.
Qed.

Lemma flat_map_NoDup_keyed {A B : Type} (g : A -> list B) (key : B -> A)
    (l : list A) :
  NoDup l ->
  (forall x, In x l -> NoDup (g x)) ->
  (forall x y, In x l -> In y (g x) -> key y = x) ->
  NoDup (flat_map g l).
Proof.
  induction 1 as [|a t Hnin Hnd IH]; intros Hg Hkey; simpl; [constructor|].
  apply NoDup_app.
  - apply Hg. left. reflexivity.
  - apply IH.
    + intros; apply Hg; right; assumption.
    + intros x y Hx; apply Hkey; right; assumption.
  - intros y Hy Hy'. apply in_flat_map in Hy' as (x & Hx & Hyx).
    assert (key y = a) by (apply Hkey; [left; reflexivity | exact Hy]).
    assert (key y = x) by (apply Hkey; [right; exact Hx | exact Hyx]).
    apply Hnin. congruence.
Qed.

Record mat3 : Type := Mat3 {
  m00 : Z; m01 : Z; m02 : Z;
  m10 : Z; m11 : Z; m12 : Z;
  m20 : Z; m21 : Z; m22 : Z
}.

Definition det3 (M : mat3) : Z :=
  (m00 M * (m11 M * m22 M - m12 M * m21 M)
   - m01 M * (m10 M * m22 M - m12 M * m20 M)
   + m02 M * (m10 M * m21 M - m11 M * m20 M))%Z.

Definition V3 : Type := (Z * Z * Z)%type.

Definition dot3 (t0 t1 t2 : Q) (x y z : Z) : Q :=
  t0 * inject_Z x + t1 * inject_Z y + t2 * inject_Z z.

(** [z] is [t . M] for a row vector [t] with entries in [[0, 1)]. *)
Definition cell (M : mat3) (z : V3) : Prop :=
  exists t0 t1 t2 : Q,
    unit_interval t0 /\ unit_interval t1 /\ unit_interval t2 /\
    dot3 t0 t1 t2 (m00 M) (m10 M) (m20 M) == inject_Z (fst (fst z)) /\
    dot3 t0 t1 t2 (m01 M) (m11 M) (m21 M) == inject_Z (snd (fst z)) /\
    dot3 t0 t1 t2 (m02 M) (m12 M) (m22 M) == inject_Z (snd z).

(** The cell of [M] holds exactly [n] lattice points. *)
Definition counted (M : mat3) (n : nat) : Prop :=
  exists L : list V3,
    NoDup L /\ length L = n /\ forall z, In z L <-> cell M z.

Lemma counted_transport (M M' : mat3) (phi psi : V3 -> V3) (n : nat) :
  (forall z, phi (psi z) = z) -> (forall z, psi (phi z) = z) ->
  (forall z, cell M' (phi z) <-> cell M z) ->
  counted M' n -> counted M n.
Proof.
  intros H1 H2 Hcell (L & Hnd & Hlen & HL).
  exists (map psi L). split; [|split].
  - apply Injective_map_NoDup; [|exact Hnd].
    intros x y E. rewrite <- (H1 x), <- (H1 y), E. reflexivity.
  - rewrite length_map. exact Hlen.
  - intro z. rewrite <- Hcell, <- HL, in_map_iff. split.
    + intros (x & <- & Hx). rewrite H1. exact Hx.
    + intro Hz. exists (phi z). auto.
Qed.

(** Column operations. *)
Definition swap_cols12 (M : mat3) : mat3 :=
  Mat3 (m00 M) (m02 M) (m01 M) (m10 M) (m12 M) (m11 M)
       (m20 M) (m22 M) (m21 M).

Definition swap_cols01 (M : mat3) : mat3 :=
  Mat3 (m01 M) (m00 M) (m02 M) (m11 M) (m10 M) (m12 M)
       (m21 M) (m20 M) (m22 M).

Definition sub_col1 (q : Z) (M : mat3) : mat3 :=
  Mat3 (m00 M) (m01 M - q * m02 M) (m02 M)
       (m10 M) (m11 M - q * m12 M) (m12 M)
       (m20 M) (m21 M - q * m22 M) (m22 M).

Definition sub_col0 (q : Z) (M : mat3) : mat3 :=
  Mat3 (m00 M - q * m01 M) (m01 M) (m02 M)
       (m10 M - q * m11 M) (m11 M) (m12 M)
       (m20 M - q * m21 M) (m21 M) (m22 M).

Lemma dot3_sub (t0 t1 t2 : Q) (q x y z x' y' z' : Z) :
  dot3 t0 t1 t2 (x - q * x') (y - q * y') (z - q * z') ==
  dot3 t0 t1 t2 x y z - inject_Z q * dot3 t0 t1 t2 x' y' z'.
Proof.
  unfold dot3, Z.sub.
  rewrite !inject_Z_plus, !inject_Z_opp, !inject_Z_mult. ring.
Qed.

Lemma counted_swap_cols12 (M : mat3) (n : nat) :
  counted (swap_cols12 M) n -> counted M n.
Proof.
  apply (counted_transport M _
           (fun z => (fst (fst z), snd z, snd (fst z)))
           (fun z => (fst (fst z), snd z, snd (fst z)))).
  - intros [[x y] z]. reflexivity.
  - intros [[x y] z]. reflexivity.
  - intros [[x y] z]. unfold cell. simpl.
    split; intros (t0 & t1 & t2 & U0 & U1 & U2 & E0 & E1 & E2);
      exists t0, t1, t2; auto 10.
Qed.

Lemma counted_swap_cols01 (M : mat3) (n : nat) :
  counted (swap_cols01 M) n -> counted M n.
Proof.
  apply (counted_transport M _
           (fun z => (snd (fst z), fst (fst z), snd z))
           (fun z => (snd (fst z), fst (fst z), snd z))).
  - intros [[x y] z]. reflexivity.
  - intros [[x y] z]. reflexivity.
  - intros [[x y] z]. unfold cell. simpl.
    split; intros (t0 & t1 & t2 & U0 & U1 & U2 & E0 & E1 & E2);
      exists t0, t1, t2; auto 10.
Qed.

Lemma counted_sub_col1 (q : Z) (M : mat3) (n : nat) :
  counted (sub_col1 q M) n -> counted M n.
Proof.
  apply (counted_transport M _
           (fun z => (fst (fst z), snd (fst z) - q * snd z, snd z)%Z)
           (fun z => (fst (fst z), snd (fst z) + q * snd z, snd z)%Z)).
  - intros [[x y] z]. simpl. f_equal. f_equal. lia.
  - intros [[x y] z]. simpl. f_equal. f_equal. lia.
  - intros [[x y] z]. unfold cell. simpl.
    split; intros (t0 & t1 & t2 & U0 & U1 & U2 & E0 & E1 & E2);
      exists t0, t1, t2; repeat (split; [assumption|]);
      (split; [|exact E2]).
    + rewrite dot3_sub, E2 in E1. unfold Z.sub in E1.
      rewrite inject_Z_plus, inject_Z_opp, inject_Z_mult in E1. lra.
    + rewrite dot3_sub, E2, E1. unfold Z.sub.
      rewrite inject_Z_plus, inject_Z_opp, inject_Z_mult. ring.
Qed.

Lemma counted_sub_col0 (q : Z) (M : mat3) (n : nat) :
  counted (sub_col0 q M) n -> counted M n.
Proof.
  apply (counted_transport M _
           (fun z => (fst (fst z) - q * snd (fst z), snd (fst z), snd z)%Z)
           (fun z => (fst (fst z) + q * snd (fst z), snd (fst z), snd z)%Z)).
  - intros [[x y] z]. simpl. f_equal. f_equal. lia.
  - intros [[x y] z]. simpl. f_equal. f_equal. lia.
  - intros [[x y] z]. unfold cell. simpl.
    split; intros (t0 & t1 & t2 & U0 & U1 & U2 & E0 & E1 & E2);
      exists t0, t1, t2; repeat (split; [assumption|]);
      (split; [|split; [exact E1 | exact E2]]).
    + rewrite dot3_sub, E1 in E0. unfold Z.sub in E0.
      rewrite inject_Z_plus, inject_Z_opp, inject_Z_mult in E0. lra.
    + rewrite dot3_sub, E1, E0. unfold Z.sub.
      rewrite inject_Z_plus, inject_Z_opp, inject_Z_mult. ring.
Qed.

Lemma det3_swap_cols12 (M : mat3) : det3 (swap_cols12 M) = (- det3 M)%Z.
Proof. unfold det3. simpl. ring. Qed.

Lemma det3_swap_cols01 (M : mat3) : det3 (swap_cols01 M) = (- det3 M)%Z.
Proof. unfold det3. simpl. ring. Qed.

Lemma det3_sub_col1 (q : Z) (M : mat3) : det3 (sub_col1 q M) = det3 M.
Proof. unfold det3. simpl. ring. Qed.

Lemma det3_sub_col0 (q : Z) (M : mat3) : det3 (sub_col0 q M) = det3 M.
Proof. unfold det3. simpl. ring. Qed.

(** The cell of a lower triangular matrix, enumerated coordinate by
    coordinate from the last one. *)
Definition triangular_points (M : mat3) : list V3 :=
  flat_map (fun z2 =>
    let t2 := inject_Z z2 / inject_Z (m22 M) in
    flat_map (fun z1 =>
      let t1 := (inject_Z z1 - t2 * inject_Z (m21 M)) / inject_Z (m11 M) in
      map (fun z0 => (z0, z1, z2))
        (slab (m00 M) (t1 * inject_Z (m10 M) + t2 * inject_Z (m20 M))))
      (slab (m11 M) (t2 * inject_Z (m21 M))))
    (slab (m22 M) 0).

Lemma inject_Z_nonzero (x : Z) : x <> 0%Z -> ~ inject_Z x == 0.
Proof.
  intros H E. apply H. apply (inject_Z_injective x 0). exact E.
Qed.

Lemma counted_triangular (M : mat3) :
  m01 M = 0%Z -> m02 M = 0%Z -> m12 M = 0%Z -> det3 M <> 0%Z ->
  counted M (Z.abs_nat (det3 M)).
Proof.
  intros H01 H02 H12 Hdet.
  assert (Edet : det3 M = (m00 M * m11 M * m22 M)%Z)
    by (unfold det3; rewrite H01, H02, H12; ring).
  assert (Ha : m00 M <> 0%Z) by (intro E; apply Hdet; rewrite Edet, E; ring).
  assert (Hc : m11 M <> 0%Z) by (intro E; apply Hdet; rewrite Edet, E; ring).
  assert (Hf : m22 M <> 0%Z) by (intro E; apply Hdet; rewrite Edet, E; ring).
  pose proof (inject_Z_nonzero _ Ha) as Qa.
  pose proof (inject_Z_nonzero _ Hc) as Qc.
  pose proof (inject_Z_nonzero _ Hf) as Qf.
  exists (triangular_points M). split; [|split].
  - unfold triangular_points.
    apply (flat_map_NoDup_keyed _ (fun z : V3 => snd z)); [apply slab_NoDup| |].
    + intros z2 _.
      apply (flat_map_NoDup_keyed _ (fun z : V3 => snd (fst z)));
        [apply slab_NoDup| |].
      * intros z1 _. apply Injective_map_NoDup; [|apply slab_NoDup].
        intros x y E. congruence.
      * intros z1 y _ Hy. apply in_map_iff in Hy as (z0 & <- & _). reflexivity.
    + intros z2 y _ Hy. apply in_flat_map in Hy as (z1 & _ & Hy).
      apply in_map_iff in Hy as (z0 & <- & _). reflexivity.
  - unfold triangular_points.
    rewrite (flat_map_length_const _ _ (Z.abs_nat (m11 M) * Z.abs_nat (m00 M))).
    + rewrite slab_length, Edet, !Zabs2Nat.inj_mul. lia.
    + intros z2 _.
      rewrite (flat_map_length_const _ _ (Z.abs_nat (m00 M))).
      * rewrite slab_length. reflexivity.
      * intros z1 _. rewrite length_map. apply slab_length.
  - intros [[z0 z1] z2]. unfold triangular_points, cell, dot3. simpl.
    rewrite H01, H02, H12. change (inject_Z 0) with 0.
    rewrite in_flat_map. split.
    + intros (z2' & Hz2 & Hin).
      apply in_flat_map in Hin as (z1' & Hz1 & Hin).
      apply in_map_iff in Hin as (z0' & E & Hz0).
      injection E as -> -> ->.
      apply (slab_In _ _ _ Hf) in Hz2 as (t2 & U2 & E2).
      apply (slab_In _ _ _ Hc) in Hz1 as (t1 & U1 & E1).
      apply (slab_In _ _ _ Ha) in Hz0 as (t0 & U0 & E0).
      assert (T2 : inject_Z z2 / inject_Z (m22 M) == t2).
      { assert (E : inject_Z z2 == t2 * inject_Z (m22 M)) by lra.
        rewrite E. field. exact Qf. }
      rewrite T2 in E1, E0.
      assert (T1 : (inject_Z z1 - t2 * inject_Z (m21 M)) / inject_Z (m11 M)
                   == t1).
      { rewrite <- E1. field. exact Qc. }
      rewrite T1 in E0.
      exists t0, t1, t2. repeat (split; [assumption|]).
      split; [lra|]. split; lra.
    + intros (t0 & t1 & t2 & U0 & U1 & U2 & E0 & E1 & E2).
      assert (T2 : inject_Z z2 / inject_Z (m22 M) == t2).
      { assert (E : inject_Z z2 == t2 * inject_Z (m22 M)) by lra.
        rewrite E. field. exact Qf. }
      assert (T1 : (inject_Z z1 - t2 * inject_Z (m21 M)) / inject_Z (m11 M)
                   == t1).
      { assert (E : inject_Z z1 - t2 * inject_Z (m21 M)
                    == t1 * inject_Z (m11 M)) by lra.
        rewrite E. field. exact Qc. }
      exists z2. split.
      * apply (slab_In _ _ _ Hf). exists t2. split; [exact U2 | lra].
      * apply in_flat_map. exists z1. split.
        -- apply (slab_In _ _ _ Hc). exists t1. split; [exact U1|].
           rewrite T2. lra.
        -- apply in_map_iff. exists z0. split; [reflexivity|].
           apply (slab_In _ _ _ Ha). exists t0.
           split; [exact U0|]. rewrite T2, T1. lra.
Qed.

(** Reduction to the triangular case by column operations, in three
    rounds of Euclid's algorithm. *)
Lemma counted_row0_clear (M : mat3) :
  m01 M = 0%Z -> m02 M = 0%Z -> det3 M <> 0%Z ->
  counted M (Z.abs_nat (det3 M)).
Proof.
  remember (Z.abs_nat (m12 M)) as k eqn:Ek.
  revert M Ek. induction k as [k IH] using lt_wf_ind.
  intros M Ek H01 H02 Hdet.
  destruct (Z.eq_dec (m12 M) 0) as [H12 | H12].
  - apply counted_triangular; assumption.
  - set (q := (m11 M / m12 M)%Z).
    set (M' := swap_cols12 (sub_col1 q M)).
    assert (Ed : det3 M' = (- det3 M)%Z)
      by (unfold M'; rewrite det3_swap_cols12, det3_sub_col1; reflexivity).
    apply (counted_sub_col1 q), counted_swap_cols12. fold M'.
    replace (Z.abs_nat (det3 M)) with (Z.abs_nat (det3 M'))
      by (rewrite Ed; lia).
    apply (IH (Z.abs_nat (m12 M'))); try reflexivity.
    + subst k. unfold M', q. simpl.
      pose proof (Z.mod_bound_or (m11 M) (m12 M) H12) as Hb.
      rewrite Z.mod_eq in Hb by exact H12.
      replace (m11 M - m11 M / m12 M * m12 M)%Z
        with (m11 M - m12 M * (m11 M / m12 M))%Z by ring.
      lia.
    + unfold M'. simpl. exact H02.
    + unfold M'. simpl. rewrite H01, H02. ring.
    + rewrite Ed. lia.
Qed.

Lemma counted_corner_clear (M : mat3) :
  m02 M = 0%Z -> det3 M <> 0%Z -> counted M (Z.abs_nat (det3 M)).
Proof.
  remember (Z.abs_nat (m01 M)) as k eqn:Ek.
  revert M Ek. induction k as [k IH] using lt_wf_ind.
  intros M Ek H02 Hdet.
  destruct (Z.eq_dec (m01 M) 0) as [H01 | H01].
  - apply counted_row0_clear; assumption.
  - set (q := (m00 M / m01 M)%Z).
    set (M' := swap_cols01 (sub_col0 q M)).
    assert (Ed : det3 M' = (- det3 M)%Z)
      by (unfold M'; rewrite det3_swap_cols01, det3_sub_col0; reflexivity).
    apply (counted_sub_col0 q), counted_swap_cols01. fold M'.
    replace (Z.abs_nat (det3 M)) with (Z.abs_nat (det3 M'))
      by (rewrite Ed; lia).
    apply (IH (Z.abs_nat (m01 M'))); try reflexivity.
    + subst k. unfold M', q. simpl.
      pose proof (Z.mod_bound_or (m00 M) (m01 M) H01) as Hb.
      rewrite Z.mod_eq in Hb by exact H01.
      replace (m00 M - m00 M / m01 M * m01 M)%Z
        with (m00 M - m01 M * (m00 M / m01 M))%Z by ring.
      lia.
    + unfold M'. simpl. exact H02.
    + rewrite Ed. lia.
Qed.

(** The cell of an integer matrix with non-zero determinant holds exactly
    [|det|] lattice points. *)
Theorem cell_count (M : mat3) :
  det3 M <> 0%Z -> counted M (Z.abs_nat (det3 M)).
Proof.
  remember (Z.abs_nat (m02 M)) as k eqn:Ek.
  revert M Ek. induction k as [k IH] using lt_wf_ind.
  intros M Ek Hdet.
  destruct (Z.eq_dec (m02 M) 0) as [H02 | H02].
  - apply counted_corner_clear; assumption.
  - set (q := (m01 M / m02 M)%Z).
    set (M' := swap_cols12 (sub_col1 q M)).
    assert (Ed : det3 M' = (- det3 M)%Z)
      by (unfold M'; rewrite det3_swap_cols12, det3_sub_col1; reflexivity).
    apply (counted_sub_col1 q), counted_swap_cols12. fold M'.
    replace (Z.abs_nat (det3 M)) with (Z.abs_nat (det3 M'))
      by (rewrite Ed; lia).
    apply (IH (Z.abs_nat (m02 M'))); try reflexivity.
    + subst k. unfold M', q. simpl.
      pose proof (Z.mod_bound_or (m01 M) (m02 M) H02) as Hb.
      rewrite Z.mod_eq in Hb by exact H02.
      replace (m01 M - m01 M / m02 M * m02 M)%Z
        with (m01 M - m02 M * (m01 M / m02 M))%Z by ring.
      lia.
    + rewrite Ed. lia.
Qed.
Definition det3L (w : list (list Q)) : Q :=
  get w 0 0 * (get w 1 1 * get w 2 2 - get w 1 2 * get w 2 1)
  - get w 0 1 * (get w 1 0 * get w 2 2 - get w 1 2 * get w 2 0)
  + get w 0 2 * (get w 1 0 * get w 2 1 - get w 1 1 * get w 2 0).

Lemma det3L_step (w : list (list Q)) (k p : nat) :
  (k <= p < 3)%nat -> ~ get w p k == 0 ->
  exists s, ~ s == 0 /\
    det3L (eliminate 3 6 (swap_rows 3 6 w k p) k) == s * det3L w.
Proof.
  intros Hp Hc.
  exists ((if Nat.eqb k p then 1 else -(1)) / get w p k). split.
  - intro E. set (c := get w p k) in *.
    destruct (Nat.eqb k p).
    + assert (F : 1 == 1 / c * c) by (field; exact Hc).
      rewrite E in F. revert F. lra.
    + assert (F : -(1) == -(1) / c * c) by (field; exact Hc).
      rewrite E in F. revert F. lra.
  - unfold det3L.
    rewrite !eliminate_get by lia. rewrite !swap_rows_get by lia.
    assert (Hcases : ((k = 0 /\ p = 0) \/ (k = 0 /\ p = 1) \/ (k = 0 /\ p = 2)
                  \/ (k = 1 /\ p = 1) \/ (k = 1 /\ p = 2)
                  \/ (k = 2 /\ p = 2))%nat) by lia.
    destruct Hcases as [H|[H|[H|[H|[H|H]]]]]; destruct H as [-> ->];
      cbn [Nat.eqb]; field; exact Hc.
Qed.

Lemma det3L_no_pivot (w : list (list Q)) (k : nat) :
  (k < 3)%nat -> unit_columns 3 k w ->
  (forall p, (k <= p < 3)%nat -> get w p k == 0) ->
  det3L w == 0.
Proof.
  intros Hk Hu Hz. unfold det3L.
  assert (Hcases : (k = 0 \/ k = 1 \/ k = 2)%nat) by lia.
  destruct Hcases as [-> | [-> | ->]].
  - rewrite (Hz 0%nat), (Hz 1%nat), (Hz 2%nat) by lia. ring.
  - rewrite (Hu 1%nat 0%nat), (Hu 2%nat 0%nat) by lia.
    rewrite (Hz 1%nat), (Hz 2%nat) by lia. simpl. ring.
  - rewrite (Hu 1%nat 0%nat), (Hu 2%nat 0%nat), (Hu 2%nat 1%nat) by lia.
    rewrite (Hz 2%nat) by lia. simpl. ring.
Qed.

Lemma gauss_jordan_3_total (steps k : nat) (w : list (list Q)) :
  (k + steps = 3)%nat -> unit_columns 3 k w -> ~ det3L w == 0 ->
  exists w', gauss_jordan steps 3 k w = Ok w'.
Proof.
  revert k w. induction steps as [|s IH]; intros k w Hk Hu Hd; simpl.
  - eauto.
  - destruct (find_pivot w 3 k) as [p|] eqn:Ep.
    + apply find_pivot_some in Ep as [Hp Hc].
      apply IH; [lia | apply unit_columns_step; assumption |].
      destruct (det3L_step w k p Hp Hc) as (c & Hc0 & E).
      change (2 * 3)%nat with 6%nat. rewrite E. intro Z0.
      apply Qmult_integral in Z0. tauto.
    + exfalso. apply Hd. apply (det3L_no_pivot w k); [lia | exact Hu|].
      apply find_pivot_none. exact Ep.
Qed.

Definition rows3 (a b c d e f g h i : Q) : list (list Q) :=
  [[a; b; c]; [d; e; f]; [g; h; i]].

Lemma linalg_inv_3 (a b c d e f g h i : Q) :
  ~ a * (e * i - f * h) - b * (d * i - f * g) + c * (d * h - e * g) == 0 ->
  exists B, linalg_inv (rows3 a b c d e f g h i) = Ok B.
Proof.
  intro Hd. unfold linalg_inv, rows3. cbn [length is_matrix forallb Nat.eqb andb].
  destruct (gauss_jordan_3_total 3 0
              (augment_identity 3 (rows3 a b c d e f g h i))) as (w & Hw).
  - reflexivity.
  - intros i0 j _ Hj. lia.
  - exact Hd.
  - unfold rows3 in Hw. rewrite Hw. cbn [bind]. eauto.
Qed.

(** ** The enumeration of [lattice_points_in_supercell], unfolded *)

Definition ints3 (a b c d e f g h i : Z) : list (list Z) :=
  [[a; b; c]; [d; e; f]; [g; h; i]].

Definition v3_list (v : V3) : list Z := [fst (fst v); snd (fst v); snd v].

Definition box3 (rx ry rz : list Z) : list V3 :=
  flat_map (fun x => flat_map (fun y => map (fun z => (x, y, z)) rz) ry) rx.

(** Lower and upper corner of the image of the unit cube, per column. *)
Definition lo3 (x y z : Z) : Z := (Z.min 0 x + Z.min 0 y + Z.min 0 z)%Z.
Definition hi3 (x y z : Z) : Z := (Z.max 0 x + Z.max 0 y + Z.max 0 z + 1)%Z.

Lemma map_flat_map_eq {A B C : Type} (f : B -> C) (g : A -> list B)
    (l : list A) :
  map f (flat_map g l) = flat_map (fun x => map f (g x)) l.
Proof.
  induction l as [|a t IH]; simpl; [reflexivity|].
  rewrite map_app, IH. reflexivity.
Qed.

Lemma box3_points (rx ry rz : list Z) :
  flat_map (fun a => flat_map (fun b => map (fun c => [a; b; c]) rz) ry) rx
  = map v3_list (box3 rx ry rz).
Proof.
  unfold box3. rewrite map_flat_map_eq. apply flat_map_ext. intro x.
  rewrite map_flat_map_eq. apply flat_map_ext. intro y.
  rewrite map_map. reflexivity.
Qed.

Lemma box3_In (rx ry rz : list Z) (v : V3) :
  In v (box3 rx ry rz) <->
  In (fst (fst v)) rx /\ In (snd (fst v)) ry /\ In (snd v) rz.
Proof.
  destruct v as [[x y] z]. unfold box3. simpl. rewrite in_flat_map. split.
  - intros (x' & Hx & H). apply in_flat_map in H as (y' & Hy & H).
    apply in_map_iff in H as (z' & E & Hz). injection E as -> -> ->. auto.
  - intros (Hx & Hy & Hz). exists x. split; [exact Hx|].
    apply in_flat_map. exists y. split; [exact Hy|].
    apply in_map_iff. exists z. auto.
Qed.

Lemma box3_NoDup (rx ry rz : list Z) :
  NoDup rx -> NoDup ry -> NoDup rz -> NoDup (box3 rx ry rz).
Proof.
  intros Hx Hy Hz. unfold box3.
  apply (flat_map_NoDup_keyed _ (fun v : V3 => fst (fst v))); [exact Hx| |].
  - intros x _.
    apply (flat_map_NoDup_keyed _ (fun v : V3 => snd (fst v))); [exact Hy| |].
    + intros y _. apply Injective_map_NoDup; [|exact Hz].
      intros z z' E. congruence.
    + intros y v _ Hv. apply in_map_iff in Hv as (z & <- & _). reflexivity.
  - intros x v _ Hv. apply in_flat_map in Hv as (y & _ & Hv).
    apply in_map_iff in Hv as (z & <- & _). reflexivity.
Qed.

Lemma arange_In (lo hi z : Z) : In z (arange lo hi) <-> (lo <= z < hi)%Z.
Proof.
  change (arange lo hi) with (zrange lo (Z.to_nat (hi - lo))).
  rewrite zrange_In. lia.
Qed.

Lemma arange_NoDup (lo hi : Z) : NoDup (arange lo hi).
Proof. apply (zrange_NoDup lo (Z.to_nat (hi - lo))). Qed.

Lemma min_corners (x y z : Z) :
  Z.min (Z.min (Z.min (Z.min (Z.min (Z.min (Z.min 0 z) y) (y + z)) x) (x + z))
           (x + y)) (x + y + z) = lo3 x y z.
Proof.
  unfold lo3.
  destruct (Z.le_ge_cases 0 x), (Z.le_ge_cases 0 y), (Z.le_ge_cases 0 z);
    rewrite ?(Z.min_l 0 x), ?(Z.min_r 0 x), ?(Z.min_l 0 y), ?(Z.min_r 0 y),
            ?(Z.min_l 0 z), ?(Z.min_r 0 z) by lia; lia.
Qed.

Lemma max_corners (x y z : Z) :
  (Z.max (Z.max (Z.max (Z.max (Z.max (Z.max (Z.max 0 z) y) (y + z)) x) (x + z))
           (x + y)) (x + y + z) + 1)%Z = hi3 x y z.
Proof.
  unfold hi3.
  destruct (Z.le_ge_cases 0 x), (Z.le_ge_cases 0 y), (Z.le_ge_cases 0 z);
    rewrite ?(Z.max_l 0 x), ?(Z.max_r 0 x), ?(Z.max_l 0 y), ?(Z.max_r 0 y),
            ?(Z.max_l 0 z), ?(Z.max_r 0 z) by lia; lia.
Qed.

(** The eight corners, as [np.dot(diagonals, supercell_matrix)] lists them. *)
Definition corners (a b c d e f g h i : Z) : list (list Z) :=
  [ [0; 0; 0]; [g; h; i]; [d; e; f]; [d + g; e + h; f + i];
    [a; b; c]; [a + g; b + h; c + i]; [a + d; b + e; c + f];
    [a + d + g; b + e + h; c + f + i] ]%Z.

Lemma dot_int_diagonals (a b c d e f g h i : Z) :
  dot_int diagonals (ints3 a b c d e f g h i) = Ok (corners a b c d e f g h i).
Proof.
  unfold corners. cbn -[Z.add Z.mul]. repeat (f_equal; try ring).
Qed.

Lemma corners_bounds (a b c d e f g h i : Z) :
  col_fold Z.min (corners a b c d e f g h i)
    = [lo3 a d g; lo3 b e h; lo3 c f i] /\
  map (fun m => (m + 1)%Z) (col_fold Z.max (corners a b c d e f g h i))
    = [hi3 a d g; hi3 b e h; hi3 c f i].
Proof.
  split; cbn -[Z.min Z.max Z.add];
    rewrite ?min_corners, ?max_corners; reflexivity.
Qed.

(** The fractional coordinates [np.dot] computes for one lattice point. *)
Definition fracv (B : list (list Q)) (v : V3) : list Q :=
  tabulate 3 (fun j =>
    qsum 3 (fun i => nth i (map inject_Z (v3_list v)) 0 * get B i j)).

Lemma dot_mm_points (B : list (list Q)) (vs : list V3) :
  length B = 3%nat -> ncols B = 3%nat ->
  dot_mm (map (map inject_Z) (map v3_list vs)) B = Ok (map (fracv B) vs).
Proof.
  intros HB HC. unfold dot_mm. rewrite !map_map.
  induction vs as [|v vs IH]; [reflexivity|].
  cbn [map mapM]. rewrite IH.
  unfold dot_vm at 1. rewrite HB, HC. reflexivity.
Qed.

Lemma filter_map_comm {A B : Type} (p : B -> bool) (f : A -> B) (l : list A) :
  filter p (map f l) = map f (filter (fun x => p (f x)) l).
Proof.
  induction l as [|a t IH]; simpl; [reflexivity|].
  destruct (p (f a)); simpl; rewrite IH; reflexivity.
Qed.

Lemma lattice_points_unfold (a b c d e f g h i : Z) (B : list (list Q)) :
  let m := map (map inject_Z) (ints3 a b c d e f g h i) in
  linalg_inv m = Ok B ->
  let K := filter (fun v => in_unit_cell (fracv B v))
             (box3 (arange (lo3 a d g) (hi3 a d g))
                   (arange (lo3 b e h) (hi3 b e h))
                   (arange (lo3 c f i) (hi3 c f i))) in
  lattice_points_in_supercell (ints3 a b c d e f g h i) =
  if negb (Z.eqb (Z.of_nat (length K)) (py_round (Qabs (det_rec 3 m))))
  then Raise mismatch else Ok (map (fracv B) K).
Proof.
  intros m HB K. unfold lattice_points_in_supercell.
  rewrite dot_int_diagonals. cbn [bind].
  destruct (corners_bounds a b c d e f g h i) as [-> ->].
  cbn [bind index1 nth_error]. fold m. rewrite HB. cbn [bind].
  apply linalg_inv_left_inverse in HB as (L1 & L2 & _).
  assert (HC : ncols B = 3%nat).
  { apply ncols_rect; [|exact L2]. intros ->. discriminate L1. }
  rewrite box3_points, (dot_mm_points B _ L1 HC). cbn [bind].
  rewrite filter_map_comm. fold K.
  unfold linalg_det. cbn [m ints3 map length is_matrix forallb Nat.eqb andb bind].
  rewrite length_map. reflexivity.
Qed.

Ltac push_inject :=
  unfold Z.sub;
  repeat (rewrite inject_Z_plus || rewrite inject_Z_mult
          || rewrite inject_Z_opp).

Lemma unit_times_bounds (t : Q) (m : Z) :
  unit_interval t ->
  inject_Z (Z.min 0 m) <= t * inject_Z m <= inject_Z (Z.max 0 m).
Proof.
  intros [H0 H1].
  destruct (Z.le_ge_cases 0 m) as [Hm | Hm].
  - rewrite Z.min_l, Z.max_r by lia.
    assert (0 <= inject_Z m) by (apply (inject_Z_le 0 m); exact Hm).
    change (inject_Z 0) with 0. split; nra.
  - rewrite Z.min_r, Z.max_l by lia.
    assert (inject_Z m <= 0) by (apply (inject_Z_le m 0); lia).
    change (inject_Z 0) with 0. split; nra.
Qed.

Lemma dot3_bounds (t0 t1 t2 : Q) (x y z w : Z) :
  unit_interval t0 -> unit_interval t1 -> unit_interval t2 ->
  dot3 t0 t1 t2 x y z == inject_Z w ->
  (lo3 x y z <= w < hi3 x y z)%Z.
Proof.
  intros U0 U1 U2 E. unfold dot3 in E.
  pose proof (unit_times_bounds t0 x U0) as [A0 B0].
  pose proof (unit_times_bounds t1 y U1) as [A1 B1].
  pose proof (unit_times_bounds t2 z U2) as [A2 B2].
  unfold lo3, hi3. split.
  - apply inject_Z_le. push_inject. lra.
  - assert (H : (w <= Z.max 0 x + Z.max 0 y + Z.max 0 z)%Z).
    { apply inject_Z_le. push_inject. lra. }
    lia.
Qed.

Section Snap.

Variables d t n : Q.
Hypothesis Hprod : d * t == n.

Lemma snap_neg_hi : d < 0 -> -(10000000000 # 1) < d -> - tol10 <= t -> n < 1.
Proof. unfold tol10. intros. nra. Qed.

Lemma snap_neg_sign : d < 0 -> n <= 0 -> 0 <= t.
Proof. intros. nra. Qed.

Lemma snap_pos_lo : 0 < d -> d < (10000000000 # 1) -> - tol10 <= t -> -(1) < n.
Proof. unfold tol10. intros. nra. Qed.

Lemma snap_pos_sign : 0 < d -> 0 <= n -> 0 <= t.
Proof. intros. nra. Qed.

Lemma below_one_neg : d < 0 -> t < 1 -> d < n.
Proof. intros. nra. Qed.

Lemma below_one_pos : 0 < d -> t < 1 -> n < d.
Proof. intros. nra. Qed.

Lemma snap_neg_up :
  d < 0 -> -(10000000000 # 1) < d -> d + 1 <= n -> t < 1 - tol10.
Proof. unfold tol10. intros. nra. Qed.

Lemma snap_pos_up :
  0 < d -> d < (10000000000 # 1) -> n <= d + -(1) -> t < 1 - tol10.
Proof. unfold tol10. intros. nra. Qed.

End Snap.

(** A fraction [N / D] with [0 < |D| < 10^10] within the tolerance window of
    the code lies in [[0, 1)], and conversely. *)
Lemma snap_lower (D N : Z) (t : Q) :
  D <> 0%Z -> (Z.abs D < 10 ^ 10)%Z ->
  inject_Z D * t == inject_Z N -> - tol10 <= t -> 0 <= t.
Proof.
  intros HD Hb E Ht.
  assert (Hb' : (- 10 ^ 10 < D < 10 ^ 10)%Z) by lia.
  destruct Hb' as [Hb1 Hb2].
  apply inject_Z_lt in Hb1, Hb2.
  change (inject_Z (10 ^ 10)) with (10000000000 # 1) in Hb2.
  change (inject_Z (- 10 ^ 10)) with (- (10000000000 # 1)) in Hb1.
  destruct (Z.lt_trichotomy D 0) as [Hneg | [H0 | Hpos]]; [| contradiction |].
  - assert (Hq : inject_Z D < 0) by (apply (inject_Z_lt D 0); exact Hneg).
    pose proof (snap_neg_hi _ _ _ E Hq Hb1 Ht) as HN.
    apply (inject_Z_lt N 1) in HN.
    apply (snap_neg_sign _ _ _ E Hq). apply (inject_Z_le N 0). lia.
  - assert (Hq : 0 < inject_Z D) by (apply (inject_Z_lt 0 D); exact Hpos).
    pose proof (snap_pos_lo _ _ _ E Hq Hb2 Ht) as HN.
    apply (inject_Z_lt (-1) N) in HN.
    apply (snap_pos_sign _ _ _ E Hq). apply (inject_Z_le 0 N). lia.
Qed.

Lemma snap_upper (D N : Z) (t : Q) :
  D <> 0%Z -> (Z.abs D < 10 ^ 10)%Z ->
  inject_Z D * t == inject_Z N -> t < 1 -> t < 1 - tol10.
Proof.
  intros HD Hb E Ht.
  assert (Hb' : (- 10 ^ 10 < D < 10 ^ 10)%Z) by lia.
  destruct Hb' as [Hb1 Hb2].
  apply inject_Z_lt in Hb1, Hb2.
  change (inject_Z (10 ^ 10)) with (10000000000 # 1) in Hb2.
  change (inject_Z (- 10 ^ 10)) with (- (10000000000 # 1)) in Hb1.
  destruct (Z.lt_trichotomy D 0) as [Hneg | [H0 | Hpos]]; [| contradiction |].
  - assert (Hq : inject_Z D < 0) by (apply (inject_Z_lt D 0); exact Hneg).
    pose proof (below_one_neg _ _ _ E Hq Ht) as HN.
    apply inject_Z_lt in HN.
    apply (snap_neg_up _ _ _ E Hq Hb1).
    change 1 with (inject_Z 1). rewrite <- inject_Z_plus, <- Zle_Qle. lia.
  - assert (Hq : 0 < inject_Z D) by (apply (inject_Z_lt 0 D); exact Hpos).
    pose proof (below_one_pos _ _ _ E Hq Ht) as HN.
    apply inject_Z_lt in HN.
    apply (snap_pos_up _ _ _ E Hq Hb2).
    change (-(1)) with (inject_Z (-1)).
    rewrite <- inject_Z_plus, <- Zle_Qle. lia.
Qed.

Lemma in_unit_cell_3 (f0 f1 f2 : Q) :
  in_unit_cell [f0; f1; f2] = true <->
  (- tol10 <= f0 < 1 - tol10) /\ (- tol10 <= f1 < 1 - tol10) /\
  (- tol10 <= f2 < 1 - tol10).
Proof.
  unfold in_unit_cell. cbn [forallb].
  rewrite !andb_true_iff, !Qltb_lt, !Qle_bool_iff. tauto.
Qed.

Section Supercell.

Variables a b c d e f g h i : Z.
Variable B : list (list Q).

Let M : mat3 := Mat3 a b c d e f g h i.
Let m : list (list Q) := map (map inject_Z) (ints3 a b c d e f g h i).

Hypothesis HB : linalg_inv m = Ok B.

(** Entry [j] of the fractional coordinates of [v]. *)
Definition fq (v : V3) (j : nat) : Q :=
  qsum 3 (fun k => nth k (map inject_Z (v3_list v)) 0 * get B k j).

Lemma fracv_entries (v : V3) : fracv B v = [fq v 0; fq v 1; fq v 2].
Proof. reflexivity. Qed.

(** The integer numerators of Cramer's rule. *)
Definition num0 (v : V3) : Z :=
  (fst (fst v) * (e * i - f * h) - snd (fst v) * (d * i - f * g)
   + snd v * (d * h - e * g))%Z.
Definition num1 (v : V3) : Z :=
  (- fst (fst v) * (b * i - c * h) + snd (fst v) * (a * i - c * g)
   - snd v * (a * h - b * g))%Z.
Definition num2 (v : V3) : Z :=
  (fst (fst v) * (b * f - c * e) - snd (fst v) * (a * f - c * d)
   + snd v * (a * e - b * d))%Z.

(** A rational row vector that [M] maps to the lattice point [v] is given
    by Cramer's rule. *)
Lemma cramer (t0 t1 t2 : Q) (v : V3) :
  dot3 t0 t1 t2 a d g == inject_Z (fst (fst v)) ->
  dot3 t0 t1 t2 b e h == inject_Z (snd (fst v)) ->
  dot3 t0 t1 t2 c f i == inject_Z (snd v) ->
  inject_Z (det3 M) * t0 == inject_Z (num0 v) /\
  inject_Z (det3 M) * t1 == inject_Z (num1 v) /\
  inject_Z (det3 M) * t2 == inject_Z (num2 v).
Proof.
  intros E0 E1 E2. unfold num0, num1, num2, det3, M. cbn [m00 m01 m02 m10 m11 m12 m20 m21 m22].
  push_inject. rewrite <- E0, <- E1, <- E2. unfold dot3.
  repeat split; ring.
Qed.

Lemma inverse_entries (r j : nat) :
  (r < 3)%nat -> (j < 3)%nat ->
  get B r 0 * get m 0 j + get B r 1 * get m 1 j + get B r 2 * get m 2 j
  == (if Nat.eqb r j then 1 else 0).
Proof.
  intros Hr Hj.
  destruct (linalg_inv_left_inverse _ _ HB) as (_ & _ & H).
  rewrite <- (H r j Hr Hj). simpl. ring.
Qed.

(** The fractional coordinates map back to the lattice point. *)
Lemma fq_times_matrix (v : V3) :
  dot3 (fq v 0) (fq v 1) (fq v 2) a d g == inject_Z (fst (fst v)) /\
  dot3 (fq v 0) (fq v 1) (fq v 2) b e h == inject_Z (snd (fst v)) /\
  dot3 (fq v 0) (fq v 1) (fq v 2) c f i == inject_Z (snd v).
Proof.
  destruct v as [[x y] z]. unfold dot3, fq. cbn [fst snd qsum nth map v3_list].
  pose proof (inverse_entries 0 0) as I00. pose proof (inverse_entries 0 1) as I01.
  pose proof (inverse_entries 0 2) as I02. pose proof (inverse_entries 1 0) as I10.
  pose proof (inverse_entries 1 1) as I11. pose proof (inverse_entries 1 2) as I12.
  pose proof (inverse_entries 2 0) as I20. pose proof (inverse_entries 2 1) as I21.
  pose proof (inverse_entries 2 2) as I22.
  cbn [Nat.eqb] in *.
  specialize (I00 ltac:(lia) ltac:(lia)). specialize (I01 ltac:(lia) ltac:(lia)).
  specialize (I02 ltac:(lia) ltac:(lia)). specialize (I10 ltac:(lia) ltac:(lia)).
  specialize (I11 ltac:(lia) ltac:(lia)). specialize (I12 ltac:(lia) ltac:(lia)).
  specialize (I20 ltac:(lia) ltac:(lia)). specialize (I21 ltac:(lia) ltac:(lia)).
  specialize (I22 ltac:(lia) ltac:(lia)).
  change (get m 0 0) with (inject_Z a) in *. change (get m 0 1) with (inject_Z b) in *.
  change (get m 0 2) with (inject_Z c) in *. change (get m 1 0) with (inject_Z d) in *.
  change (get m 1 1) with (inject_Z e) in *. change (get m 1 2) with (inject_Z f) in *.
  change (get m 2 0) with (inject_Z g) in *. change (get m 2 1) with (inject_Z h) in *.
  change (get m 2 2) with (inject_Z i) in *.
  set (x' := inject_Z x). set (y' := inject_Z y). set (z' := inject_Z z).
  split; [|split].
  - transitivity (x' * (get B 0 0 * inject_Z a + get B 0 1 * inject_Z d
                        + get B 0 2 * inject_Z g)
                  + y' * (get B 1 0 * inject_Z a + get B 1 1 * inject_Z d
                          + get B 1 2 * inject_Z g)
                  + z' * (get B 2 0 * inject_Z a + get B 2 1 * inject_Z d
                          + get B 2 2 * inject_Z g)); [ring|].
    rewrite I00, I10, I20. ring.
  - transitivity (x' * (get B 0 0 * inject_Z b + get B 0 1 * inject_Z e
                        + get B 0 2 * inject_Z h)
                  + y' * (get B 1 0 * inject_Z b + get B 1 1 * inject_Z e
                          + get B 1 2 * inject_Z h)
                  + z' * (get B 2 0 * inject_Z b + get B 2 1 * inject_Z e
                          + get B 2 2 * inject_Z h)); [ring|].
    rewrite I01, I11, I21. ring.
  - transitivity (x' * (get B 0 0 * inject_Z c + get B 0 1 * inject_Z f
                        + get B 0 2 * inject_Z i)
                  + y' * (get B 1 0 * inject_Z c + get B 1 1 * inject_Z f
                          + get B 1 2 * inject_Z i)
                  + z' * (get B 2 0 * inject_Z c + get B 2 1 * inject_Z f
                          + get B 2 2 * inject_Z i)); [ring|].
    rewrite I02, I12, I22. ring.
Qed.

Lemma fq_cramer (v : V3) :
  inject_Z (det3 M) * fq v 0 == inject_Z (num0 v) /\
  inject_Z (det3 M) * fq v 1 == inject_Z (num1 v) /\
  inject_Z (det3 M) * fq v 2 == inject_Z (num2 v).
Proof.
  destruct (fq_times_matrix v) as (E0 & E1 & E2).
  apply cramer; assumption.
Qed.

Definition box : list V3 :=
  box3 (arange (lo3 a d g) (hi3 a d g)) (arange (lo3 b e h) (hi3 b e h))
       (arange (lo3 c f i) (hi3 c f i)).

Definition kept : list V3 :=
  filter (fun v => in_unit_cell (fracv B v)) box.

Lemma kept_NoDup : NoDup kept.
Proof.
  apply NoDup_filter. apply box3_NoDup; apply arange_NoDup.
Qed.

Lemma kept_In (v : V3) :
  In v kept <->
  ((lo3 a d g <= fst (fst v) < hi3 a d g)%Z /\
   (lo3 b e h <= snd (fst v) < hi3 b e h)%Z /\
   (lo3 c f i <= snd v < hi3 c f i)%Z) /\
  (- tol10 <= fq v 0 < 1 - tol10) /\ (- tol10 <= fq v 1 < 1 - tol10) /\
  (- tol10 <= fq v 2 < 1 - tol10).
Proof.
  unfold kept, box. rewrite filter_In, box3_In, !arange_In.
  rewrite fracv_entries, in_unit_cell_3. tauto.
Qed.

(** With [0 < |det| < 10^10] the retained points are those of the cell. *)
Lemma kept_cell (v : V3) :
  det3 M <> 0%Z -> (Z.abs (det3 M) < 10 ^ 10)%Z ->
  In v kept <-> cell M v.
Proof.
  intros HD Hb. rewrite kept_In.
  destruct (fq_times_matrix v) as (E0 & E1 & E2).
  destruct (fq_cramer v) as (C0 & C1 & C2).
  split.
  - intros (_ & [L0 U0] & [L1 U1] & [L2 U2]).
    pose proof (snap_lower _ _ _ HD Hb C0 L0) as P0.
    pose proof (snap_lower _ _ _ HD Hb C1 L1) as P1.
    pose proof (snap_lower _ _ _ HD Hb C2 L2) as P2.
    exists (fq v 0), (fq v 1), (fq v 2). unfold unit_interval, tol10 in *.
    repeat (split; [split; [assumption | lra]|]).
    auto.
  - intros (t0 & t1 & t2 & U0 & U1 & U2 & T0 & T1 & T2).
    cbn [m00 m01 m02 m10 m11 m12 m20 m21 m22 M] in T0, T1, T2.
    split.
    + split; [|split].
      * apply (dot3_bounds t0 t1 t2 _ _ _ _ U0 U1 U2 T0).
      * apply (dot3_bounds t0 t1 t2 _ _ _ _ U0 U1 U2 T1).
      * apply (dot3_bounds t0 t1 t2 _ _ _ _ U0 U1 U2 T2).
    + destruct (cramer t0 t1 t2 v T0 T1 T2) as (D0 & D1 & D2).
      pose proof (inject_Z_nonzero _ HD) as HQ.
      assert (F0 : fq v 0 == t0)
        by (apply (Qmult_inj_l _ _ _ HQ); rewrite C0, D0; reflexivity).
      assert (F1 : fq v 1 == t1)
        by (apply (Qmult_inj_l _ _ _ HQ); rewrite C1, D1; reflexivity).
      assert (F2 : fq v 2 == t2)
        by (apply (Qmult_inj_l _ _ _ HQ); rewrite C2, D2; reflexivity).
      rewrite F0, F1, F2. unfold unit_interval in *.
      destruct U0 as [U0 V0], U1 as [U1 V1], U2 as [U2 V2].
      pose proof (snap_upper _ _ _ HD Hb D0 V0) as P0.
      pose proof (snap_upper _ _ _ HD Hb D1 V1) as P1.
      pose proof (snap_upper _ _ _ HD Hb D2 V2) as P2.
      unfold tol10 in *. repeat split; solve [assumption | lra].
Qed.

Lemma kept_count :
  det3 M <> 0%Z -> (Z.abs (det3 M) < 10 ^ 10)%Z ->
  Z.of_nat (length kept) = Z.abs (det3 M).
Proof.
  intros HD Hb.
  destruct (cell_count M HD) as (L & Hnd & Hlen & HL).
  assert (HP : Permutation kept L).
  { apply NoDup_Permutation; [apply kept_NoDup | exact Hnd|].
    intro v. rewrite HL. apply kept_cell; assumption. }
  rewrite (Permutation_length HP), Hlen. lia.
Qed.

End Supercell.

Lemma py_round_integer (x : Q) (k : Z) : x == inject_Z k -> py_round x = k.
Proof.
  intro E. unfold py_round.
  rewrite (Qfloor_comp _ _ E), Qfloor_Z.
  assert (H : Qcompare (x - inject_Z k) (1 # 2) = Lt).
  { rewrite <- Qlt_alt. lra. }
  rewrite H. reflexivity.
Qed.

Lemma det_rec_3 (a b c d e f g h i : Z) :
  det_rec 3 (map (map inject_Z) (ints3 a b c d e f g h i))
  == inject_Z (det3 (Mat3 a b c d e f g h i)).
Proof.
  unfold det3. cbn [m00 m01 m02 m10 m11 m12 m20 m21 m22]. push_inject.
  cbn. ring.
Qed.

Lemma round_abs_det (a b c d e f g h i : Z) :
  py_round (Qabs (det_rec 3 (map (map inject_Z) (ints3 a b c d e f g h i))))
  = Z.abs (det3 (Mat3 a b c d e f g h i)).
Proof.
  apply py_round_integer. rewrite (Qabs_wd _ _ (det_rec_3 a b c d e f g h i)).
  reflexivity.
Qed.

Lemma linalg_inv_ints3 (a b c d e f g h i : Z) :
  det3 (Mat3 a b c d e f g h i) <> 0%Z ->
  exists B, linalg_inv (map (map inject_Z) (ints3 a b c d e f g h i)) = Ok B.
Proof.
  intro HD.
  apply (linalg_inv_3 (inject_Z a) (inject_Z b) (inject_Z c)
           (inject_Z d) (inject_Z e) (inject_Z f)
           (inject_Z g) (inject_Z h) (inject_Z i)).
  intro E. apply (inject_Z_nonzero _ HD). rewrite <- E.
  unfold det3. cbn [m00 m01 m02 m10 m11 m12 m20 m21 m22]. push_inject. ring.
Qed.

(** Whatever is returned has passed the count check. *)
Lemma lattice_points_checked (sm : list (list Z)) (t_vecs : list (list Q)) :
  lattice_points_in_supercell sm = Ok t_vecs ->
  exists det, linalg_det (map (map inject_Z) sm) = Ok det /\
              Z.of_nat (length t_vecs) = py_round (Qabs det).
Proof.
  unfold lattice_points_in_supercell. intro H.
  do 8 (apply bind_ok in H as (? & _ & H)).
  apply bind_ok in H as (fp & _ & H).
  apply bind_ok in H as (det & Hdet & H).
  exists det. split; [exact Hdet|].
  destruct (Z.eqb_spec (Z.of_nat (length (filter in_unit_cell fp)))
              (py_round (Qabs det))) as [E | E]; simpl in H.
  - injection H as <-. exact E.
  - discriminate H.
Qed.

(** For [0 < |det| < 10^10] the call returns, with [|det|] points. *)
Lemma lattice_points_returned (a b c d e f g h i : Z) :
  let D := det3 (Mat3 a b c d e f g h i) in
  D <> 0%Z -> (Z.abs D < 10 ^ 10)%Z ->
  exists t_vecs,
    lattice_points_in_supercell (ints3 a b c d e f g h i) = Ok t_vecs /\
    Z.of_nat (length t_vecs) = Z.abs D.
Proof.
  intros D HD Hb.
  destruct (linalg_inv_ints3 a b c d e f g h i HD) as (B & HB).
  rewrite (lattice_points_unfold a b c d e f g h i B HB).
  rewrite round_abs_det. fold D.
  fold (box a b c d e f g h i). fold (kept a b c d e f g h i B).
  rewrite (kept_count a b c d e f g h i B HB HD Hb).
  fold D. rewrite Z.eqb_refl. cbn [negb].
  eexists. split; [reflexivity|].
  rewrite length_map. apply (kept_count a b c d e f g h i B HB HD Hb).
Qed.

Lemma long_cell_numerator (n t x : Q) :
  (10000000000 # 1) <= n -> n * t == x -> t < 1 - tol10 -> x < n + -(1).
Proof. unfold tol10. intros. nra. Qed.

(** A diagonal supercell longer than 10^10: fewer points pass the filter
    than the determinant counts, and the call raises. *)
Lemma long_cell_raises (n : Z) :
  (10 ^ 10 <= n)%Z ->
  lattice_points_in_supercell (ints3 n 0 0 0 1 0 0 0 1) = Raise mismatch.
Proof.
  intro Hn.
  assert (Edet : det3 (Mat3 n 0 0 0 1 0 0 0 1) = n) by (unfold det3; simpl; ring).
  assert (HD : det3 (Mat3 n 0 0 0 1 0 0 0 1) <> 0%Z) by (rewrite Edet; lia).
  destruct (linalg_inv_ints3 n 0 0 0 1 0 0 0 1 HD) as (B & HB).
  rewrite (lattice_points_unfold n 0 0 0 1 0 0 0 1 B HB).
  rewrite round_abs_det, Edet.
  fold (box n 0 0 0 1 0 0 0 1). fold (kept n 0 0 0 1 0 0 0 1 B).
  set (K := kept n 0 0 0 1 0 0 0 1 B).
  assert (Hshort : (Z.of_nat (length K) < n)%Z).
  { assert (Hincl : incl K (map (fun x => (x, 0%Z, 0%Z))
                              (zrange 0 (Z.to_nat (n - 1))))).
    { intros [[x y] z] Hin. apply kept_In in Hin. cbn [fst snd] in Hin.
      destruct Hin as ((Bx & By & Bz) & [L0 U0] & [L1 U1] & [L2 U2]).
      destruct (fq_cramer n 0 0 0 1 0 0 0 1 B HB (x, y, z)) as (C0 & C1 & C2).
      rewrite Edet in C0, C1, C2.
      unfold num0, num1, num2 in C0, C1, C2. cbn [fst snd] in C0, C1, C2.
      unfold lo3, hi3 in Bx, By, Bz.
      assert (Hnq : (10000000000 # 1) <= inject_Z n).
      { change (10000000000 # 1) with (inject_Z (10 ^ 10)).
        rewrite <- Zle_Qle. exact Hn. }
      assert (Ex : inject_Z n * fq B (x, y, z) 0 == inject_Z x).
      { rewrite C0. apply inject_Z_injective. ring. }
      assert (Ey : inject_Z n * fq B (x, y, z) 1 == inject_Z n * inject_Z y).
      { rewrite C1, <- inject_Z_mult. apply inject_Z_injective. ring. }
      assert (Ez : inject_Z n * fq B (x, y, z) 2 == inject_Z n * inject_Z z).
      { rewrite C2, <- inject_Z_mult. apply inject_Z_injective. ring. }
      assert (Hnz : ~ inject_Z n == 0) by lra.
      apply (proj1 (Qmult_inj_l _ _ _ Hnz)) in Ey.
      apply (proj1 (Qmult_inj_l _ _ _ Hnz)) in Ez.
      assert (Hx : inject_Z x < inject_Z (n - 1)).
      { unfold Z.sub. rewrite inject_Z_plus. change (inject_Z (-1)) with (-(1)).
        apply (long_cell_numerator _ _ _ Hnq Ex U0). }
      unfold tol10 in *.
      assert (Hy : inject_Z y < inject_Z 1) by (change (inject_Z 1) with 1; lra).
      assert (Hz : inject_Z z < inject_Z 1) by (change (inject_Z 1) with 1; lra).
      rewrite <- Zlt_Qlt in Hx, Hy, Hz.
      apply in_map_iff. exists x. split.
      - f_equal; [f_equal|]; lia.
      - apply zrange_In. lia. }
    pose proof (NoDup_incl_length (kept_NoDup n 0 0 0 1 0 0 0 1 B) Hincl) as Hle.
    fold K in Hle. rewrite length_map, zrange_length in Hle. lia. }
  replace (Z.of_nat (length K) =? Z.abs n)%Z with false; [reflexivity|].
  symmetry. apply Z.eqb_neq. lia.
Qed.

Definition double_cell : list (list Z) := ints3 2 0 0 0 1 0 0 0 1.

(** In exact arithmetic: for every 3x3 integer matrix with
    [0 < |det| < 10^10] the call returns, and the number of returned points
    is [round(|det|) = |det|]; whatever any call returns has passed the
    count check, a mismatch raising instead; for
    [[2,0,0],[0,1,0],[0,0,1]] the two points [0,0,0] and [0.5,0,0] come
    back.  The first part is a statement on the idealisation: in float64
    the entries of the inverse are rounded, and the window of width 1e-10
    need not be met. *)
Theorem lattice_points_in_supercell_count (a b c d e f g h i : Z) :
  let D := det3 (Mat3 a b c d e f g h i) in
  D <> 0%Z -> (Z.abs D < 10 ^ 10)%Z ->
  (exists t_vecs det,
     lattice_points_in_supercell (ints3 a b c d e f g h i) = Ok t_vecs /\
     linalg_det (map (map inject_Z) (ints3 a b c d e f g h i)) = Ok det /\
     py_round (Qabs det) = Z.abs D /\
     Z.of_nat (length t_vecs) = py_round (Qabs det)) /\
  (forall sm t_vecs,
     lattice_points_in_supercell sm = Ok t_vecs ->
     exists det, linalg_det (map (map inject_Z) sm) = Ok det /\
                 Z.of_nat (length t_vecs) = py_round (Qabs det)) /\
  (exists t_vecs,
     lattice_points_in_supercell double_cell = Ok t_vecs /\
     length t_vecs = 2%nat /\
     Forall2 (Forall2 Qeq) t_vecs [[0; 0; 0]; [1 # 2; 0; 0]]).
Proof.
  intros D HD Hb. split; [|split].
  - destruct (lattice_points_returned a b c d e f g h i HD Hb)
      as (t_vecs & Ht & Hlen).
    destruct (lattice_points_checked _ _ Ht) as (det & Hdet & Hround).
    exists t_vecs, det. repeat (split; [assumption|]).
    split; [|exact Hround]. fold D in Hlen. congruence.
  - apply lattice_points_checked.
  - eexists. split; [vm_compute; reflexivity|]. split; [reflexivity|].
    repeat constructor.
Qed.

Lemma lattice_points_in_supercell_count_witness :
  (exists t_vecs det,
     lattice_points_in_supercell (ints3 2 0 0 0 1 0 0 0 1) = Ok t_vecs /\
     linalg_det (map (map inject_Z) (ints3 2 0 0 0 1 0 0 0 1)) = Ok det /\
     py_round (Qabs det) = Z.abs (det3 (Mat3 2 0 0 0 1 0 0 0 1)) /\
     Z.of_nat (length t_vecs) = py_round (Qabs det)) /\
  (forall sm t_vecs,
     lattice_points_in_supercell sm = Ok t_vecs ->
     exists det, linalg_det (map (map inject_Z) sm) = Ok det /\
                 Z.of_nat (length t_vecs) = py_round (Qabs det)) /\
  (exists t_vecs,
     lattice_points_in_supercell double_cell = Ok t_vecs /\
     length t_vecs = 2%nat /\
     Forall2 (Forall2 Qeq) t_vecs [[0; 0; 0]; [1 # 2; 0; 0]]).
Proof.
  apply (lattice_points_in_supercell_count 2 0 0 0 1 0 0 0 1).
  - vm_compute. discriminate.
  - vm_compute. reflexivity.
Defined.

(** In exact arithmetic the matrix diag(2*10^10, 1, 1), of non-zero
    determinant, fails the count check: lattice points closer than 1e-10 to
    the far face are dropped by the filter. *)
Lemma lattice_points_long_cell_raises :
  det3 (Mat3 20000000000 0 0 0 1 0 0 0 1) = 20000000000%Z /\
  lattice_points_in_supercell
    [[20000000000; 0; 0]; [0; 1; 0]; [0; 0; 1]]%Z = Raise mismatch.
Proof.
  split; [reflexivity|].
  apply (long_cell_raises 20000000000). vm_compute. discriminate.
Qed.

(** ** Gauss-Jordan elimination computes a right inverse as well *)

Lemma qsum_split (n k : nat) (g : nat -> Q) :
  (k < n)%nat ->
  qsum n g == g k + qsum n (fun t => if Nat.eqb t k then 0 else g t).
Proof.
  intro Hk.
  rewrite (qsum_ext n g
    (fun t => g t * (if Nat.eqb t k then 1 else 0)
              + (if Nat.eqb t k then 0 else g t))).
  - rewrite qsum_plus, (qsum_delta n k g Hk). reflexivity.
  - intros t _. destruct (Nat.eqb t k); ring.
Qed.

Lemma qsum_delta_l (n k : nat) (f : nat -> Q) :
  (k < n)%nat ->
  qsum n (fun i => (if Nat.eqb k i then 1 else 0) * f i) == f k.
Proof.
  intro Hk. rewrite <- (qsum_delta n k f Hk). apply qsum_ext.
  intros i _. rewrite (Nat.eqb_sym k i). ring.
Qed.

(** A sum is unchanged when two indices are exchanged. *)
Lemma qsum_transpose (n k p : nat) (g : nat -> Q) :
  (k < n)%nat -> (p < n)%nat ->
  qsum n (fun t => g (if Nat.eqb t k then p
                      else if Nat.eqb t p then k else t)) == qsum n g.
Proof.
  intros Hk Hp.
  destruct (Nat.eq_dec k p) as [->|Hne].
  - apply qsum_ext. intros t _. destruct (Nat.eqb t p) eqn:E; [|reflexivity].
    apply Nat.eqb_eq in E. subst. reflexivity.
  - set (s := fun t => if Nat.eqb t k then p else if Nat.eqb t p then k else t).
    assert (Hpk : Nat.eqb p k = false) by (apply Nat.eqb_neq; lia).
    assert (L : qsum n (fun t => g (s t)) ==
                g p + (g k + qsum n (fun t => if Nat.eqb t p then 0
                                            else if Nat.eqb t k then 0
                                            else g t))).
    { rewrite (qsum_split n k (fun t => g (s t)) Hk).
      rewrite (qsum_split n p (fun t => if Nat.eqb t k then 0 else g (s t)) Hp).
      rewrite Hpk. unfold s at 1 2. rewrite Nat.eqb_refl, Hpk, Nat.eqb_refl.
      rewrite (qsum_ext n
        (fun t => if Nat.eqb t p then 0 else if Nat.eqb t k then 0 else g (s t))
        (fun t => if Nat.eqb t p then 0 else if Nat.eqb t k then 0 else g t)).
      - reflexivity.
      - intros t _. unfold s.
        destruct (Nat.eqb t p), (Nat.eqb t k); reflexivity. }
    assert (R : qsum n g ==
                g k + (g p + qsum n (fun t => if Nat.eqb t p then 0
                                            else if Nat.eqb t k then 0
                                            else g t))).
    { rewrite (qsum_split n k g Hk).
      rewrite (qsum_split n p (fun t => if Nat.eqb t k then 0 else g t) Hp).
      rewrite Hpk. reflexivity. }
    change (qsum n (fun t => g (s t)) == qsum n g). rewrite L, R. ring.
Qed.

Section RightInverse.

Variable n : nat.

(** The right half [r] of [[l | r]] has a left inverse. *)
Definition right_half_invertible (w : list (list Q)) : Prop :=
  exists S : nat -> nat -> Q,
    forall i j, (i < n)%nat -> (j < n)%nat ->
      qsum n (fun t => S i t * get w t (n + j))
      == (if Nat.eqb i j then 1 else 0).

Lemma right_half_invertible_augment (a : list (list Q)) :
  right_half_invertible (augment_identity n a).
Proof.
  exists (fun i t => if Nat.eqb i t then 1 else 0). intros i j Hi Hj.
  rewrite (qsum_ext _ _
    (fun t => (if Nat.eqb i t then 1 else 0) * (if Nat.eqb t j then 1 else 0))).
  - rewrite (qsum_delta_l n i (fun t => if Nat.eqb t j then 1 else 0) Hi).
    reflexivity.
  - intros t Ht. unfold augment_identity. rewrite get_mtab by lia.
    replace (Nat.ltb (n + j) n) with false by (symmetry; apply Nat.ltb_ge; lia).
    replace (n + j - n)%nat with j by lia.
    rewrite (Nat.eqb_sym j t). reflexivity.
Qed.

Lemma right_half_invertible_swap (w : list (list Q)) (k p : nat) :
  (k < n)%nat -> (p < n)%nat ->
  right_half_invertible w ->
  right_half_invertible (swap_rows n (2 * n) w k p).
Proof.
  intros Hk Hp (S & HS).
  set (s := fun t => if Nat.eqb t k then p else if Nat.eqb t p then k else t).
  exists (fun i t => S i (s t)). intros i j Hi Hj.
  rewrite <- (HS i j Hi Hj).
  rewrite <- (qsum_transpose n k p (fun t => S i t * get w t (n + j)) Hk Hp).
  apply qsum_ext. intros t Ht. rewrite swap_rows_get by lia. reflexivity.
Qed.

Lemma right_half_invertible_eliminate (w : list (list Q)) (k : nat) :
  (k < n)%nat -> ~ get w k k == 0 ->
  right_half_invertible w ->
  right_half_invertible (eliminate n (2 * n) w k).
Proof.
  intros Hk Hc (S & HS).
  set (c := get w k k) in *.
  set (T := fun i => qsum n (fun u =>
                S i u * (if Nat.eqb u k then c else get w u k))).
  exists (fun i t => if Nat.eqb t k then T i else S i t).
  intros i j Hi Hj. rewrite <- (HS i j Hi Hj).
  set (F1 := fun t => if Nat.eqb t k then 0 else S i t * get w t (n + j)).
  set (F2 := fun t => if Nat.eqb t k then 0 else S i t * get w t k).
  set (r := get w k (n + j)).
  set (G := fun t => (if Nat.eqb t k then T i else S i t)
                     * get (eliminate n (2 * n) w k) t (n + j)).
  assert (E1 : qsum n G == T i * (r / c)
                           + qsum n (fun t => F1 t + (- (r / c)) * F2 t)).
  { rewrite (qsum_split n k G Hk). unfold G at 1.
    rewrite Nat.eqb_refl, eliminate_get by lia. rewrite Nat.eqb_refl.
    fold c r. apply Qplus_comp; [reflexivity|].
    apply qsum_ext. intros t Ht. unfold G, F1, F2.
    destruct (Nat.eqb t k) eqn:E; [ring|].
    rewrite eliminate_get by lia. rewrite E. fold c r. field. exact Hc. }
  assert (E2 : T i == S i k * c + qsum n F2).
  { unfold T.
    rewrite (qsum_split n k
               (fun u => S i u * (if Nat.eqb u k then c else get w u k)) Hk).
    rewrite Nat.eqb_refl. apply Qplus_comp; [reflexivity|].
    apply qsum_ext. intros t _. unfold F2.
    destruct (Nat.eqb t k); reflexivity. }
  assert (E3 : qsum n (fun t => S i t * get w t (n + j))
               == S i k * r + qsum n F1).
  { rewrite (qsum_split n k (fun t => S i t * get w t (n + j)) Hk).
    reflexivity. }
  change (qsum n G == qsum n (fun t => S i t * get w t (n + j))).
  rewrite E1, E3, qsum_plus, qsum_scale, E2. field. exact Hc.
Qed.

Lemma gauss_jordan_right_half (steps k : nat) (w w' : list (list Q)) :
  (k + steps = n)%nat -> right_half_invertible w ->
  gauss_jordan steps n k w = Ok w' -> right_half_invertible w'.
Proof.
  revert k w. induction steps as [|s IH]; intros k w Hk Hr H; simpl in H.
  - injection H as <-. exact Hr.
  - destruct (find_pivot w n k) as [p|] eqn:Ep; [|discriminate].
    apply find_pivot_some in Ep as [Hp Hc].
    apply IH in H; [exact H | lia |].
    apply right_half_invertible_eliminate; [lia | |].
    + rewrite swap_rows_get by lia. rewrite Nat.eqb_refl. exact Hc.
    + apply right_half_invertible_swap; [lia | lia | exact Hr].
Qed.

End RightInverse.

(** [np.linalg.inv]: the result is a right inverse too. *)
Lemma linalg_inv_right_inverse (a b : list (list Q)) :
  linalg_inv a = Ok b ->
  forall i j, (i < length a)%nat -> (j < length a)%nat ->
    qsum (length a) (fun t => get a i t * get b t j)
    == (if Nat.eqb i j then 1 else 0).
Proof.
  intro H. pose proof (linalg_inv_left_inverse a b H) as Hl. cbv zeta in Hl.
  destruct Hl as (_ & _ & Hleft).
  unfold linalg_inv in H. cbv zeta in H. set (n := length a) in *.
  destruct (is_matrix n n a) eqn:Em; [|discriminate].
  apply bind_ok in H as (w & Hw & H). injection H as <-.
  apply (gauss_jordan_right_half n n 0 _ w) in Hw;
    [| lia | apply right_half_invertible_augment].
  destruct Hw as (S & HS).
  set (b := mtab n n (fun i j => get w i (n + j))) in *.
  assert (HSb : forall i j, (i < n)%nat -> (j < n)%nat ->
            qsum n (fun t => S i t * get b t j)
            == (if Nat.eqb i j then 1 else 0)).
  { intros i j Hi Hj. rewrite <- (HS i j Hi Hj). apply qsum_ext.
    intros t Ht. unfold b. rewrite get_mtab by lia. reflexivity. }
  assert (HSa : forall i j, (i < n)%nat -> (j < n)%nat -> S i j == get a i j).
  { intros i j Hi Hj.
    rewrite <- (qsum_delta n j (fun t => S i t) Hj).
    rewrite (qsum_ext n _
      (fun t => qsum n (fun u => S i t * (get b t u * get a u j)))).
    - rewrite qsum_swap.
      rewrite (qsum_ext n _
        (fun u => (if Nat.eqb i u then 1 else 0) * get a u j)).
      + apply (qsum_delta_l n i (fun u => get a u j) Hi).
      + intros u Hu. rewrite <- (HSb i u Hi Hu).
        rewrite (Qmult_comm (qsum n _)). rewrite <- qsum_scale.
        apply qsum_ext. intros t Ht. ring.
    - intros t Ht. rewrite qsum_scale. rewrite (Hleft t j Ht Hj). reflexivity. }
  intros i j Hi Hj. rewrite <- (HSb i j Hi Hj).
  apply qsum_ext. intros t Ht. rewrite (HSa i t Hi Ht). reflexivity.
Qed.

(** ** The barycentric maps of a full-dimensional simplex *)



Lemma nth_map2 {A B C : Type} (f : A -> B -> C) (u : list A) (v : list B)
    (i : nat) (a : A) (b : B) (c : C) :
  (i < length u)%nat -> length u = length v ->
  nth i (map2 f u v) c = f (nth i u a) (nth i v b).
Proof.
  revert v i. induction u as [|x u IH]; intros [|y v] i Hi Hl;
    simpl in *; try lia.
  destruct i; [reflexivity|]. apply IH; lia.
Qed.


(** The [k]-th unit vector of length [n]. *)
Definition unit_vector (n k : nat) : list Q :=
  tabulate n (fun i => if Nat.eqb i k then 1 else 0).

Definition aug_inv_of (s : Simplex.t) : list (list Q) :=
  match Simplex._aug_inv s with Some ai => ai | None => [] end.

Lemma augmented_row (c : list (list Q)) (i t : nat) :
  (i < length c)%nat ->
  get (augmented c) i t = nth t (nth i c [] ++ [1]) 0.
Proof.
  intros Hi. unfold get, augmented.
  rewrite (nth_indep _ [] ((fun r => r ++ [1]) []))
    by (rewrite length_map; exact Hi).
  rewrite (map_nth (fun r => r ++ [1])). reflexivity.
Qed.


Lemma augmented_entry (c : list (list Q)) (d i j : nat) :
  Forall (fun r => length r = d) c -> (i < length c)%nat -> (j < d)%nat ->
  get (augmented c) i j = nth j (nth i c []) 0.
Proof.
  intros Hrect Hi Hj. rewrite augmented_row by exact Hi.
  assert (Hr : length (nth i c []) = d).
  { rewrite Forall_forall in Hrect. apply Hrect, nth_In, Hi. }
  rewrite app_nth1 by lia. reflexivity.
Qed.

Section FullSimplex.

Variable c : list (list Q).
Variable s : Simplex.t.
Hypothesis Hinit : Simplex.__init__ c = Ok s.
Hypothesis Hfull : Simplex.space_dim s = (Simplex.simplex_dim s + 1)%nat.

Local Abbreviation n := (length c).
Local Abbreviation d := (ncols c).
Local Abbreviation A := (augmented c).
Local Abbreviation B := (aug_inv_of s).


Definition point_of (bary : list Q) : list Q :=
  tabulate d
    (fun j => qsum n
                (fun i => nth i bary 0 * get (map (@removelast Q) A) i j)).

Lemma full_simplex_inv :
  n = S d /\ Simplex.simplex_dim s = d /\
  Forall (fun r => length r = d) c /\
  Simplex._aug s = Some A /\ length A = n /\
  Forall (fun r => length r = S d) A /\
  Simplex._aug_inv s = Some B /\ length B = n /\ ncols B = n /\
  (forall i j, (i < n)%nat -> (j < n)%nat ->
     qsum n (fun t => get B i t * get A t j)
     == (if Nat.eqb i j then 1 else 0)) /\
  (forall i j, (i < n)%nat -> (j < n)%nat ->
     qsum n (fun t => get A i t * get B t j)
     == (if Nat.eqb i j then 1 else 0)).
Proof.
  pose proof Hinit as H.
  apply init_inv in H as (E & Hne & Sp & Sd & Hrect & Haug).
  destruct (Haug Hfull) as (Ea & ai & Hinv & Eai). fold (augmented c) in *.
  assert (Hn : n = S d) by lia.
  destruct (augmented_shape c _ Hrect) as [L1 L2].
  pose proof (linalg_inv_right_inverse _ _ Hinv) as Hright.
  apply linalg_inv_left_inverse in Hinv. cbv zeta in Hinv.
  rewrite L1 in Hinv, Hright. destruct Hinv as (B1 & B2 & Hleft).
  assert (EB : B = ai) by (unfold aug_inv_of; rewrite Eai; reflexivity).
  rewrite EB.
  repeat (split; [assumption|]).
  split; [|split; assumption].
  apply ncols_rect; [|exact B2]. intros ->. simpl in B1. lia.
Qed.


Lemma length_point_of (bary : list Q) : length (point_of bary) = d.
Proof. apply length_tabulate. Qed.



Lemma point_from_bary_coords_eq (bary : list Q) :
  length bary = n ->
  Simplex.point_from_bary_coords s bary = Ok (point_of bary).
Proof.
  intro Hlen.
  destruct full_simplex_inv as (Hn & _ & _ & EA & L1 & L2 & _).
  unfold Simplex.point_from_bary_coords, dot_vm.
  rewrite EA, length_map, Hlen, L1, Nat.eqb_refl.
  rewrite (ncols_removelast _ d) by (try exact L2; intros E; rewrite E in L1;
                                     simpl in L1; lia).
  reflexivity.
Qed.


Lemma nth_point_of (bary : list Q) (j : nat) :
  (j < d)%nat ->
  nth j (point_of bary) 0 == qsum n (fun i => nth i bary 0 * get A i j).
Proof.
  intro Hj.
  destruct full_simplex_inv as (Hn & _ & _ & _ & L1 & L2 & _).
  unfold point_of. rewrite nth_tabulate by exact Hj.
  apply qsum_ext. intros i Hi.
  rewrite (get_removelast _ d i j L2) by lia. reflexivity.
Qed.







End FullSimplex.

(** ** Barycentric coordinates: sums, vertices, round trip, convexity *)



(** The barycentric coordinates [unit_vector] of index [k] give back the
    [k]-th vertex. *)
Theorem unit_bary_coords_give_vertex (c : list (list Q)) (s : Simplex.t)
    (k : nat) :
  Simplex.__init__ c = Ok s ->
  Simplex.space_dim s = (Simplex.simplex_dim s + 1)%nat ->
  (k < length c)%nat ->
  exists p,
    Simplex.point_from_bary_coords s (unit_vector (length c) k) = Ok p /\
    Forall2 Qeq p (nth k c []).
Proof.
  intros H Hfull Hk.
  destruct (full_simplex_inv c s H Hfull) as (Hn & _ & Hrect & _).
  exists (point_of c (unit_vector (length c) k)).
  split; [apply (point_from_bary_coords_eq c s H Hfull);
          apply length_tabulate|].
  assert (Hr : length (nth k c []) = ncols c).
  { rewrite Forall_forall in Hrect. apply Hrect, nth_In, Hk. }
  apply Forall2_Qeq_nth; [rewrite length_point_of; lia|].
  rewrite length_point_of. intros j Hj.
  rewrite (nth_point_of c s H Hfull) by exact Hj.
  rewrite (qsum_ext (length c) _
    (fun i => get (augmented c) i j * (if Nat.eqb i k then 1 else 0))).
  - rewrite (qsum_delta _ k (fun i => get (augmented c) i j) Hk).
    rewrite (augmented_entry c _ k j Hrect Hk Hj). reflexivity.
  - intros i Hi. unfold unit_vector. rewrite nth_tabulate by exact Hi. ring.
Qed.

Lemma unit_bary_coords_give_vertex_witness :
  exists s, Simplex.__init__ triangle = Ok s /\
    exists p,
      Simplex.point_from_bary_coords s (unit_vector (length triangle) 1)
        = Ok p /\
      Forall2 Qeq p (nth 1 triangle []).
Proof.
  assert (Hs : exists s, Simplex.__init__ triangle = Ok s)
    by (eexists; vm_compute; reflexivity).
  destruct Hs as [s E]. exists s. split; [exact E|].
  apply (unit_bary_coords_give_vertex triangle s 1 E).
  - vm_compute in E. injection E as <-. reflexivity.
  - simpl. lia.
Defined.







(** On a simplex that is not full-dimensional the augmented matrices do not
    exist: the barycentric methods raise [ValueError], [volume] lets the
    [AttributeError] escape. *)
Theorem not_full_dimensional_raises (c : list (list Q)) (s : Simplex.t)
    (v w : list Q) (tolerance : Q) :
  Simplex.__init__ c = Ok s ->
  Simplex.space_dim s <> (Simplex.simplex_dim s + 1)%nat ->
  Simplex.bary_coords s v = Raise Simplex.not_full_dimensional /\
  Simplex.point_from_bary_coords s v = Raise Simplex.not_full_dimensional /\
  Simplex.in_simplex s v tolerance = Raise Simplex.not_full_dimensional /\
  Simplex.line_intersection s v w tolerance
    = Raise Simplex.not_full_dimensional /\
  Simplex.volume s = Raise AttributeError.
Proof.
  intros H Hnf. unfold Simplex.__init__ in H.
  apply bind_ok in H as (arr & _ & H).
  destruct arr as [|r arr]; [discriminate|].
  destruct (Nat.eqb _ _) eqn:E.
  - apply bind_ok in H as (ai & _ & H). injection H as <-.
    apply Nat.eqb_eq in E. simpl in Hnf. simpl in E. lia.
  - injection H as <-. repeat split.
Qed.

Lemma not_full_dimensional_raises_witness :
  exists s, Simplex.__init__ [[0; 0; 0]; [1; 0; 0]] = Ok s /\
    Simplex.bary_coords s [0; 0; 0] = Raise Simplex.not_full_dimensional /\
    Simplex.point_from_bary_coords s [0; 0; 0]
      = Raise Simplex.not_full_dimensional /\
    Simplex.in_simplex s [0; 0; 0] default_atol
      = Raise Simplex.not_full_dimensional /\
    Simplex.line_intersection s [0; 0; 0] [1; 1; 1] default_atol
      = Raise Simplex.not_full_dimensional /\
    Simplex.volume s = Raise AttributeError.
Proof.
  assert (Hs : exists s, Simplex.__init__ [[0; 0; 0]; [1; 0; 0]] = Ok s)
    by (eexists; vm_compute; reflexivity).
  destruct Hs as [s E]. exists s. split; [exact E|].
  apply (not_full_dimensional_raises [[0; 0; 0]; [1; 0; 0]] s
           [0; 0; 0] [1; 1; 1] default_atol E).
  vm_compute in E. injection E as <-. discriminate.
Defined.

(** ** [Simplex.line_intersection] *)







(** ** Tolerance search in coordinate lists, characterised *)

(** Every component of [row] is within [atol] of the one of [coord]. *)
Definition within (atol : Q) (row coord : list Q) : Prop :=
  Forall2 (fun a b => Qabs (a - b) < atol) row coord.

Definition withinb (atol : Q) (row coord : list Q) : bool :=
  forallb (fun d => Qltb (Qabs d) atol) (map2 Qminus row coord).

Lemma withinb_within (atol : Q) (row coord : list Q) :
  length row = length coord ->
  withinb atol row coord = true <-> within atol row coord.
Proof.
  unfold withinb, within. revert coord.
  induction row as [|a row IH]; intros [|b coord] H; simpl in *;
    try discriminate.
  - split; [constructor | reflexivity].
  - rewrite andb_true_iff, Qltb_lt, IH by lia. split.
    + intros [Ha Hr]. constructor; assumption.
    + intro HF. inversion HF; subst. split; assumption.
Qed.

Lemma where_from_sorted (k : nat) (mask : list bool) :
  StronglySorted lt (where_from k mask) /\
  Forall (fun i => (k <= i)%nat) (where_from k mask).
Proof.
  revert k. induction mask as [|b t IH]; intro k; simpl.
  - split; constructor.
  - destruct (IH (S k)) as [Hs Hb]. destruct b.
    + split.
      * constructor; [exact Hs|]. revert Hb. apply Forall_impl. intros; lia.
      * constructor; [lia|]. revert Hb. apply Forall_impl. intros; lia.
    + split; [exact Hs|]. revert Hb. apply Forall_impl. intros; lia.
Qed.

Lemma find_in_coord_list_value (L : list (list Q)) (coord : list Q) (atol : Q) :
  Forall (fun r => length r = length coord) L ->
  find_in_coord_list L coord atol = Ok (np_where (map (fun row => withinb atol row coord) L)).
Proof.
  intro Hrect. unfold find_in_coord_list.
  destruct L as [|r t] eqn:EL; [reflexivity|]. rewrite <- EL in *.
  replace (Nat.eqb (length L) 0) with false by (rewrite EL; reflexivity).
  rewrite (np_array_ok _ _ Hrect). cbn [bind].
  rewrite (mapM_ok _ (fun row => map2 Qminus row coord)).
  - cbn [bind]. rewrite map_map. reflexivity.
  - intros row Hin. apply broadcast1_same.
    rewrite Forall_forall in Hrect. apply Hrect. exact Hin.
Qed.

(** [find_in_coord_list] returns, in increasing order, exactly the positions
    of the rows that are within [atol] of the coordinate in every component;
    [in_coord_list] tells whether there is such a row. *)
Theorem find_in_coord_list_matches (L : list (list Q)) (coord : list Q)
    (atol : Q) :
  Forall (fun r => length r = length coord) L ->
  exists inds b,
    find_in_coord_list L coord atol = Ok inds /\
    in_coord_list L coord atol = Ok b /\
    StronglySorted lt inds /\
    (forall i, In i inds <->
       exists row, nth_error L i = Some row /\ within atol row coord) /\
    (b = true <-> exists row, In row L /\ within atol row coord).
Proof.
  intro Hrect. pose proof (find_in_coord_list_value L coord atol Hrect) as E.
  set (inds := np_where (map (fun row => withinb atol row coord) L)) in *.
  assert (Hin : forall i, In i inds <->
            exists row, nth_error L i = Some row /\ within atol row coord).
  { intro i. unfold inds. rewrite np_where_In, nth_error_map. split.
    - destruct (nth_error L i) as [row|] eqn:Ei; [|discriminate].
      simpl. intros [= Hw]. exists row. split; [reflexivity|].
      apply withinb_within; [|exact Hw].
      rewrite Forall_forall in Hrect. apply Hrect.
      apply (nth_error_In _ _ Ei).
    - intros (row & Ei & Hw). rewrite Ei. simpl. f_equal.
      apply withinb_within; [|exact Hw].
      rewrite Forall_forall in Hrect. apply Hrect.
      apply (nth_error_In _ _ Ei). }
  exists inds, (Nat.ltb 0 (length inds)).
  split; [exact E|]. split; [unfold in_coord_list; rewrite E; reflexivity|].
  split; [apply where_from_sorted|]. split; [exact Hin|].
  rewrite Nat.ltb_lt. split.
  - intro Hpos. destruct inds as [|i rest]; [simpl in Hpos; lia|].
    destruct (proj1 (Hin i) (or_introl eq_refl)) as (row & Ei & Hw).
    exists row. split; [apply (nth_error_In _ _ Ei) | exact Hw].
  - intros (row & Hr & Hw). apply In_nth_error in Hr as (i & Ei).
    assert (Hi : In i inds) by (apply Hin; eauto).
    destruct inds; [destruct Hi | simpl; lia].
Qed.

Lemma find_in_coord_list_matches_witness :
  exists inds b,
    find_in_coord_list [[0; 0; 0]; [1#2; 0; 0]; [0; 0; 1#1000000000]]
      [0; 0; 0] default_atol = Ok inds /\
    in_coord_list [[0; 0; 0]; [1#2; 0; 0]; [0; 0; 1#1000000000]]
      [0; 0; 0] default_atol = Ok b /\
    StronglySorted lt inds /\
    (forall i, In i inds <->
       exists row,
         nth_error [[0; 0; 0]; [1#2; 0; 0]; [0; 0; 1#1000000000]] i
           = Some row /\ within default_atol row [0; 0; 0]) /\
    (b = true <->
     exists row, In row [[0; 0; 0]; [1#2; 0; 0]; [0; 0; 1#1000000000]] /\
                 within default_atol row [0; 0; 0]).
Proof.
  apply (find_in_coord_list_matches
           [[0; 0; 0]; [1#2; 0; 0]; [0; 0; 1#1000000000]] [0; 0; 0]
           default_atol).
  repeat constructor.
Defined.

(** ** [is_coord_subset] *)

Lemma is_coord_subset_value (d : nat) (subset superset : list (list Q))
    (atol : Q) :
  subset <> [] -> superset <> [] ->
  Forall (fun r => length r = d) subset ->
  Forall (fun r => length r = d) superset ->
  is_coord_subset subset superset atol =
  Ok (forallb (fun r1 => existsb (fun r2 => withinb atol r1 r2) superset)
        subset).
Proof.
  intros N1 N2 R1 R2. unfold is_coord_subset.
  rewrite (np_array_ok _ _ R1), (np_array_ok _ _ R2). cbn [bind].
  destruct subset as [|s0 st] eqn:E1; [congruence|]. rewrite <- E1 in *.
  destruct superset as [|t0 tt] eqn:E2; [congruence|]. rewrite <- E2 in *.
  replace (expand_dims subset) with (Ok subset) by (rewrite E1; reflexivity).
  replace (expand_dims superset) with (Ok superset)
    by (rewrite E2; reflexivity).
  cbn [bind].
  rewrite (mapM_ok _ (fun r1 => map (fun r2 => withinb atol r1 r2) superset)).
  - cbn [bind]. f_equal. rewrite map_map.
    clear. induction subset as [|r1 t IH]; simpl; [reflexivity|].
    rewrite IH. f_equal. clear IH.
    induction superset as [|r2 u IHu]; simpl; [reflexivity|].
    rewrite IHu. reflexivity.
  - intros r1 H1. apply mapM_ok. intros r2 H2.
    rewrite broadcast1_same; [reflexivity|].
    rewrite Forall_forall in R1, R2. rewrite (R1 r1 H1), (R2 r2 H2).
    reflexivity.
Qed.

Lemma subset_test_iff (d : nat) (subset superset : list (list Q)) (atol : Q) :
  Forall (fun r => length r = d) subset ->
  Forall (fun r => length r = d) superset ->
  forallb (fun r1 => existsb (fun r2 => withinb atol r1 r2) superset) subset
  = true
  <-> Forall (fun r1 => Exists (fun r2 => within atol r1 r2) superset) subset.
Proof.
  intros R1 R2. rewrite forallb_forall, Forall_forall.
  rewrite Forall_forall in R1, R2.
  split; intros H r1 H1; specialize (H r1 H1).
  - apply existsb_exists in H as (r2 & Hin & Hw). apply Exists_exists.
    exists r2. split; [exact Hin|]. apply withinb_within; [|exact Hw].
    rewrite (R1 r1 H1), (R2 r2 Hin). reflexivity.
  - apply Exists_exists in H as (r2 & Hin & Hw). apply existsb_exists.
    exists r2. split; [exact Hin|]. apply withinb_within; [|exact Hw].
    rewrite (R1 r1 H1), (R2 r2 Hin). reflexivity.
Qed.

(** On two non-empty lists of coordinates of one dimension,
    [is_coord_subset] returns without raising, and it returns [True]
    exactly when every point of the subset has a point of the superset
    within [atol] in every component. *)
Theorem is_coord_subset_iff (d : nat) (subset superset : list (list Q))
    (atol : Q) :
  subset <> [] -> superset <> [] ->
  Forall (fun r => length r = d) subset ->
  Forall (fun r => length r = d) superset ->
  exists b,
    is_coord_subset subset superset atol = Ok b /\
    (b = true <->
     Forall (fun r1 => Exists (fun r2 => within atol r1 r2) superset) subset).
Proof.
  intros N1 N2 R1 R2. eexists.
  split; [apply (is_coord_subset_value d); assumption|].
  apply (subset_test_iff d); assumption.
Qed.

Lemma is_coord_subset_iff_witness :
  exists b,
    is_coord_subset subset5 superset5 default_atol = Ok b /\
    (b = true <->
     Forall (fun r1 => Exists (fun r2 => within default_atol r1 r2) superset5)
       subset5).
Proof.
  apply (is_coord_subset_iff 3 subset5 superset5 default_atol).
  - discriminate.
  - discriminate.
  - repeat constructor.
  - repeat constructor.
Defined.

(** An empty subset or superset is not answered: [np.array([])] has one
    axis only, and indexing it with [[:, None, :]] raises [IndexError], in
    [is_coord_subset] and in [coord_list_mapping] alike. *)
Theorem empty_coord_list_raises (d1 d2 : nat) (subset superset : list (list Q))
    (atol : Q) :
  Forall (fun r => length r = d1) subset ->
  Forall (fun r => length r = d2) superset ->
  subset = [] \/ superset = [] ->
  is_coord_subset subset superset atol = Raise IndexError /\
  coord_list_mapping subset superset atol = Raise IndexError.
Proof.
  intros R1 R2 Hempty. unfold is_coord_subset, coord_list_mapping.
  rewrite (np_array_ok _ _ R1), (np_array_ok _ _ R2). cbn [bind].
  destruct subset as [|r1 t1]; [split; reflexivity|].
  destruct Hempty as [Hempty | ->]; [discriminate|]. split; reflexivity.
Qed.

Lemma empty_coord_list_raises_witness :
  is_coord_subset [] [[0; 0; 0]] default_atol = Raise IndexError /\
  coord_list_mapping [] [[0; 0; 0]] default_atol = Raise IndexError.
Proof.
  apply (empty_coord_list_raises 3 3 [] [[0; 0; 0]] default_atol).
  - constructor.
  - repeat constructor.
  - left. reflexivity.
Defined.

Lemma within_trans (t1 t2 : Q) (a b c : list Q) :
  within t1 a b -> within t2 b c -> within (t1 + t2) a c.
Proof.
  unfold within. intro H. revert c. induction H as [|x y a b Hxy _ IH];
    intros c Hc; inversion Hc as [|? z ? c' Hyz Hbc]; subst; constructor.
  - assert (E : x - z == (x - y) + (y - z)) by ring.
    rewrite (Qabs_wd _ _ E).
    apply Qle_lt_trans with (Qabs (x - y) + Qabs (y - z));
      [apply Qabs_triangle | lra].
  - apply IH. exact Hbc.
Qed.

(** Containment composes, the tolerances adding up. *)
Theorem is_coord_subset_trans (d : nat) (a b c : list (list Q)) (t1 t2 : Q) :
  a <> [] -> b <> [] -> c <> [] ->
  Forall (fun r => length r = d) a ->
  Forall (fun r => length r = d) b ->
  Forall (fun r => length r = d) c ->
  is_coord_subset a b t1 = Ok true ->
  is_coord_subset b c t2 = Ok true ->
  is_coord_subset a c (t1 + t2) = Ok true.
Proof.
  intros Na Nb Nc Ra Rb Rc Hab Hbc.
  rewrite (is_coord_subset_value d) in Hab, Hbc by assumption.
  rewrite (is_coord_subset_value d) by assumption.
  injection Hab as Hab. injection Hbc as Hbc. f_equal.
  apply (subset_test_iff d) in Hab; [|assumption|assumption].
  apply (subset_test_iff d) in Hbc; [|assumption|assumption].
  apply (subset_test_iff d); [assumption|assumption|].
  rewrite Forall_forall in *. intros r1 H1.
  destruct (proj1 (Exists_exists _ _) (Hab r1 H1)) as (r2 & H2 & W12).
  destruct (proj1 (Exists_exists _ _) (Hbc r2 H2)) as (r3 & H3 & W23).
  apply Exists_exists. exists r3. split; [exact H3|].
  apply (within_trans t1 t2 r1 r2 r3 W12 W23).
Qed.

Lemma is_coord_subset_trans_witness :
  is_coord_subset [[1 # 1000000000; 0; 0]] [[0; 0; 0]; [1; 1; 1]]
    (tol10 + default_atol) = Ok true.
Proof.
  apply (is_coord_subset_trans 3 [[1 # 1000000000; 0; 0]]
           [[105 # 100000000000; 0; 0]] [[0; 0; 0]; [1; 1; 1]]
           tol10 default_atol).
  - discriminate.
  - discriminate.
  - discriminate.
  - repeat constructor.
  - repeat constructor.
  - repeat constructor.
  - vm_compute. reflexivity.
  - vm_compute. reflexivity.
Defined.

(** ** [coord_list_mapping] on uniquely matching lists *)

(** Every component of [r1] is close to the one of [r2], as [np.isclose]
    with the given [atol] and the default [rtol] has it. *)
Definition close_rows (atol : Q) (r1 r2 : list Q) : Prop :=
  Forall2 (fun a b => Qabs (a - b) <= atol + default_rtol * Qabs b) r1 r2.

Definition closeb (atol : Q) (r1 r2 : list Q) : bool :=
  forallb (fun c : bool => c) (map2 (isclose atol) r1 r2).

Lemma closeb_close_rows (atol : Q) (r1 r2 : list Q) :
  length r1 = length r2 ->
  closeb atol r1 r2 = true <-> close_rows atol r1 r2.
Proof.
  unfold closeb, close_rows. revert r2.
  induction r1 as [|a r1 IH]; intros [|b r2] H; simpl in *; try discriminate.
  - split; [constructor | reflexivity].
  - rewrite andb_true_iff, IH by lia. unfold isclose at 1.
    rewrite Qle_bool_iff. split.
    + intros [Ha Hr]. constructor; assumption.
    + intro HF. inversion HF; subst. split; assumption.
Qed.

Lemma sorted_singleton (l : list nat) (j : nat) :
  StronglySorted lt l -> (forall i, In i l <-> i = j) -> l = [j].
Proof.
  intros Hs Hin. destruct l as [|a t].
  - destruct (proj2 (Hin j) eq_refl).
  - assert (a = j) by (apply Hin; left; reflexivity). subst a.
    destruct t as [|b t]; [reflexivity|].
    assert (b = j) by (apply Hin; right; left; reflexivity). subst b.
    inversion Hs as [|? ? _ Hlt]; subst. inversion Hlt; subst. lia.
Qed.

Lemma np_allclose_rows (atol : Q) (a b : list (list Q)) :
  Forall2 (fun r1 r2 => length r1 = length r2 /\ closeb atol r1 r2 = true)
    a b ->
  np_allclose a b atol = Ok true.
Proof.
  intro HF. unfold np_allclose.
  rewrite broadcast1_same by (apply (Forall2_length HF)). cbn [bind].
  rewrite (mapM_ok _ (fun r => match r with Ok v => v | Raise _ => [] end)).
  - cbn [bind]. f_equal. induction HF as [|r1 r2 a b [Hl Hc] _ IH];
      [reflexivity|].
    simpl. rewrite (broadcast1_same _ _ _ Hl). simpl. rewrite IH.
    unfold closeb in Hc. rewrite Hc. reflexivity.
  - intros r Hr. induction HF as [|r1 r2 a b [Hl Hc] _ IH]; [destruct Hr|].
    simpl in Hr. destruct Hr as [<- | Hr]; [|exact (IH Hr)].
    rewrite (broadcast1_same _ _ _ Hl). reflexivity.
Qed.

Lemma coord_list_mapping_value (d : nat) (subset superset : list (list Q))
    (atol : Q) :
  subset <> [] -> superset <> [] ->
  Forall (fun r => length r = d) subset ->
  Forall (fun r => length r = d) superset ->
  let inds :=
    flat_map (fun r1 => np_where (map (fun r2 => closeb atol r1 r2) superset))
      subset in
  let result := map (fun j => nth j superset []) inds in
  coord_list_mapping subset superset atol =
  (same <- np_allclose subset result atol ;;
   miss <- (if same then Ok false
            else sub <- is_coord_subset subset superset default_atol ;;
                 Ok (negb sub)) ;;
   if miss then Raise (ValueError "not a subset of superset")
   else if negb (shape_eqb result subset (ncols superset) (ncols subset))
   then Raise (ValueError
          "Something wrong with the inputs, likely duplicates in superset")
   else Ok inds).
Proof.
  intros N1 N2 R1 R2 inds result. unfold coord_list_mapping.
  rewrite (np_array_ok _ _ R1), (np_array_ok _ _ R2). cbn [bind].
  replace (expand_dims subset) with (Ok subset)
    by (destruct subset; [congruence | reflexivity]).
  replace (expand_dims superset) with (Ok superset)
    by (destruct superset; [congruence | reflexivity]).
  cbn [bind].
  rewrite (mapM_ok _ (fun r1 => map (fun r2 => closeb atol r1 r2) superset)).
  - cbn [bind]. rewrite flat_map_concat_map, map_map, <- flat_map_concat_map.
    reflexivity.
  - intros r1 H1. apply mapM_ok. intros r2 H2.
    rewrite broadcast1_same; [reflexivity|].
    rewrite Forall_forall in R1, R2. rewrite (R1 r1 H1), (R2 r2 H2).
    reflexivity.
Qed.

(** When every point of the subset is close to exactly one row of the
    superset, [coord_list_mapping] returns the positions of these rows, one
    for each point and in the subset's order. *)
Theorem coord_list_mapping_unique_matches (d : nat)
    (subset superset : list (list Q)) (atol : Q) (inds : list nat) :
  subset <> [] ->
  Forall (fun r => length r = d) subset ->
  Forall (fun r => length r = d) superset ->
  Forall2 (fun r1 j =>
             (j < length superset)%nat /\
             forall k r2, nth_error superset k = Some r2 ->
                          (close_rows atol r1 r2 <-> k = j))
    subset inds ->
  coord_list_mapping subset superset atol = Ok inds /\
  Forall2 (close_rows atol) subset (map (fun j => nth j superset []) inds).
Proof.
  intros N1 R1 R2 HF.
  assert (N2 : superset <> []).
  { destruct HF as [|r1 j ? ? [Hj _] _]; [congruence|].
    intros ->. simpl in Hj. lia. }
  assert (Hinds : flat_map
            (fun r1 => np_where (map (fun r2 => closeb atol r1 r2) superset))
            subset = inds).
  { clear N1. induction HF as [|r1 j t inds' [Hj Hu] _ IH]; [reflexivity|].
    inversion R1 as [|? ? L1 R1']; subst. simpl.
    rewrite (IH R1'). change (j :: inds') with ([j] ++ inds'). f_equal.
    apply sorted_singleton; [apply where_from_sorted|].
    intro i. rewrite np_where_In, nth_error_map.
    destruct (nth_error superset i) as [r2|] eqn:Ei; simpl.
    - rewrite <- (Hu i r2 Ei).
      rewrite <- closeb_close_rows.
      + split; [intros [= ->]; reflexivity | intros ->; reflexivity].
      + rewrite Forall_forall in R2. rewrite (R2 r2 (nth_error_In _ _ Ei)).
        reflexivity.
    - split; [discriminate|]. intros ->.
      apply nth_error_None in Ei. lia. }
  assert (Hclose : Forall2 (close_rows atol) subset
                     (map (fun j => nth j superset []) inds)).
  { clear Hinds N1 R1. induction HF as [|r1 j t inds' [Hj Hu] _ IH];
      [constructor|].
    simpl. constructor; [|exact IH].
    destruct (nth_error superset j) as [r2|] eqn:Ej;
      [|apply nth_error_None in Ej; lia].
    rewrite (nth_error_nth _ _ [] Ej). apply (Hu j r2 Ej). reflexivity. }
  split; [|exact Hclose].
  rewrite (coord_list_mapping_value d) by assumption. cbv zeta.
  rewrite Hinds.
  rewrite np_allclose_rows.
  - cbn [bind]. unfold shape_eqb.
    rewrite length_map, <- (Forall2_length HF), Nat.eqb_refl.
    rewrite (ncols_rect _ d N1 R1), (ncols_rect _ d N2 R2), Nat.eqb_refl.
    reflexivity.
  - revert Hclose. apply Forall2_impl. intros r1 r2 Hc.
    pose proof (Forall2_length Hc) as Hl. split; [exact Hl|].
    apply closeb_close_rows; assumption.
Qed.

Lemma coord_list_mapping_unique_matches_witness :
  coord_list_mapping [[1; 1; 1]; [0; 0; 0]]
    [[0; 0; 0]; [1; 1; 1]; [1#2; 0; 0]] tol10 = Ok [1; 0]%nat /\
  Forall2 (close_rows tol10) [[1; 1; 1]; [0; 0; 0]]
    (map (fun j => nth j [[0; 0; 0]; [1; 1; 1]; [1#2; 0; 0]] [])
       [1; 0]%nat).
Proof.
  set (sup := [[0; 0; 0]; [1; 1; 1]; [1#2; 0; 0]]).
  apply (coord_list_mapping_unique_matches 3 [[1; 1; 1]; [0; 0; 0]]
           sup tol10 [1; 0]%nat).
  - discriminate.
  - repeat constructor.
  - repeat constructor.
  - assert (Hdec : forall r1 j,
              (forall k r2, nth_error sup k = Some r2 ->
                            closeb tol10 r1 r2 = Nat.eqb k j) ->
              Forall (fun r => length r = length r1) sup ->
              forall k r2, nth_error sup k = Some r2 ->
                           (close_rows tol10 r1 r2 <-> k = j)).
    { intros r1 j Hb Hl k r2 Hk. rewrite <- closeb_close_rows.
      - rewrite (Hb k r2 Hk). apply Nat.eqb_eq.
      - rewrite Forall_forall in Hl.
        symmetry. apply Hl. apply (nth_error_In _ _ Hk). }
    assert (Hrow : forall r1 j,
              length r1 = 3%nat -> (j < 3)%nat ->
              closeb tol10 r1 [0; 0; 0] = Nat.eqb 0 j ->
              closeb tol10 r1 [1; 1; 1] = Nat.eqb 1 j ->
              closeb tol10 r1 [1#2; 0; 0] = Nat.eqb 2 j ->
              (j < length sup)%nat /\
              forall k r2, nth_error sup k = Some r2 ->
                           (close_rows tol10 r1 r2 <-> k = j)).
    { intros r1 j Hl Hj H0 H1 H2. split; [exact Hj|]. apply Hdec.
      - intros [|[|[|k]]] r2 Hk; simpl in Hk;
          [injection Hk as <-; assumption .. | destruct k; discriminate].
      - rewrite Hl. repeat constructor. }
    constructor; [apply Hrow; [reflexivity | lia | reflexivity ..]|].
    constructor; [apply Hrow; [reflexivity | lia | reflexivity ..]|].
    constructor.
Defined.

(** ** Periodic search, characterised *)

(** [np.round] returns a nearest integer. *)
Lemma np_round_nearest (x : Q) (k : Z) :
  Qabs (x - np_round x) <= Qabs (x - inject_Z k).
Proof.
  pose proof (np_round_dist x) as [Hlo Hhi]. unfold np_round in *.
  set (r := py_round x) in *.
  assert (Hk : (k < r \/ k = r \/ r < k)%Z) by lia.
  destruct Hk as [Hk | [-> | Hk]]; [|apply Qle_refl|].
  - assert (H1 : inject_Z k + 1 <= inject_Z r).
    { change 1 with (inject_Z 1). rewrite <- inject_Z_plus, <- Zle_Qle. lia. }
    apply Qabs_case; intros ?; apply Qabs_case; intros ?; lra.
  - assert (H1 : inject_Z r + 1 <= inject_Z k).
    { change 1 with (inject_Z 1). rewrite <- inject_Z_plus, <- Zle_Qle. lia. }
    apply Qabs_case; intros ?; apply Qabs_case; intros ?; lra.
Qed.

Lemma wrapped_lt_iff (x atol : Q) :
  Qabs (x - np_round x) < atol <-> exists k : Z, Qabs (x - inject_Z k) < atol.
Proof.
  split.
  - intro H. exists (py_round x). exact H.
  - intros (k & H). apply Qle_lt_trans with (Qabs (x - inject_Z k));
      [apply np_round_nearest | exact H].
Qed.

(** The entries of a row of [frac_dist] after the periodic columns have been
    wrapped. *)
Definition wrap_entry (d : Q) (b : bool) : Q := if b then d - np_round d else d.

Definition pbc_withinb (atol : Q) (pbc : list bool) (row coord : list Q)
    : bool :=
  forallb (fun d => Qltb (Qabs d) atol)
    (map2 wrap_entry (map2 Qminus row coord) pbc).

(** The row matches the coordinate up to a lattice translation along the
    periodic axes. *)
Definition pbc_within (atol : Q) (pbc : list bool) (row coord : list Q)
    : Prop :=
  forall i, (i < length coord)%nat ->
    if nth i pbc false
    then exists k : Z,
           Qabs (nth i row 0 - nth i coord 0 - inject_Z k) < atol
    else Qabs (nth i row 0 - nth i coord 0) < atol.

Lemma forallb_map2_nth {A B : Type} (f : A -> B -> bool) (u : list A)
    (v : list B) (a : A) (b : B) :
  length u = length v ->
  forallb (fun c : bool => c) (map2 f u v) = true <->
  forall i, (i < length u)%nat -> f (nth i u a) (nth i v b) = true.
Proof.
  revert v. induction u as [|x u IH]; intros [|y v] H; simpl in *;
    try discriminate.
  - split; [intros _ i Hi; lia | reflexivity].
  - rewrite andb_true_iff, IH by lia. split.
    + intros [H0 Hr] [|i] Hi; [exact H0 | apply Hr; lia].
    + intro Hall. split; [apply (Hall 0%nat); lia|].
      intros i Hi. apply (Hall (S i)). lia.
Qed.

Lemma pbc_withinb_within (atol : Q) (pbc : list bool) (row coord : list Q) :
  length row = length coord -> length pbc = length coord ->
  pbc_withinb atol pbc row coord = true <-> pbc_within atol pbc row coord.
Proof.
  intros Hr Hp. unfold pbc_withinb, pbc_within.
  assert (E : forallb (fun d => Qltb (Qabs d) atol)
                (map2 wrap_entry (map2 Qminus row coord) pbc)
              = forallb (fun c : bool => c)
                  (map2 (fun d b => Qltb (Qabs (wrap_entry d b)) atol)
                     (map2 Qminus row coord) pbc)).
  { generalize (map2 Qminus row coord) as l. intro l. clear.
    revert pbc. induction l as [|x l IH]; intros [|b pbc]; simpl;
      try reflexivity.
    rewrite (IH pbc). reflexivity. }
  rewrite E.
  rewrite (forallb_map2_nth _ _ _ 0 false)
    by (rewrite map2_length; lia).
  rewrite map2_length by lia. rewrite Hr.
  split; intros H i Hi; specialize (H i Hi);
    rewrite (nth_map2 Qminus row coord i 0 0 0) in * by lia.
  - rewrite Qltb_lt in H. unfold wrap_entry in H.
    destruct (nth i pbc false); [|exact H].
    apply wrapped_lt_iff in H. exact H.
  - rewrite Qltb_lt. unfold wrap_entry.
    destruct (nth i pbc false); [|exact H].
    apply wrapped_lt_iff. exact H.
Qed.

Lemma find_in_coord_list_pbc_value (L : list (list Q)) (coord : list Q)
    (atol : Q) (pbc : list bool) :
  Forall (fun r => length r = length coord) L ->
  length pbc = length coord ->
  find_in_coord_list_pbc L coord atol pbc
  = Ok (np_where (map (fun row => pbc_withinb atol pbc row coord) L)).
Proof.
  intros Hrect Hp. unfold find_in_coord_list_pbc.
  destruct L as [|r t] eqn:EL; [reflexivity|]. rewrite <- EL in *.
  replace (Nat.eqb (length L) 0) with false by (rewrite EL; reflexivity).
  rewrite (np_array_ok _ _ Hrect). cbn [bind].
  rewrite broadcast1_same by (rewrite length_map; reflexivity). cbn [bind].
  assert (E1 : mapM (fun r => r)
                 (map2 (fun r1 r2 => broadcast1 Qminus r1 r2) L
                    (map (fun _ => coord) L))
               = Ok (map (fun row => map2 Qminus row coord) L)).
  { clear EL. induction Hrect as [|row L' Hrow _ IH]; [reflexivity|].
    simpl. rewrite (broadcast1_same _ _ _ Hrow). cbn [bind].
    rewrite IH. reflexivity. }
  rewrite E1. cbn [bind].
  rewrite (mapM_ok _ (fun row => map2 wrap_entry row pbc)).
  - cbn [bind]. rewrite !map_map. reflexivity.
  - intros row Hin. apply in_map_iff in Hin as (row0 & <- & Hin).
    unfold wrap_masked. rewrite map2_length, Hp.
    + rewrite Forall_forall in Hrect. rewrite (Hrect row0 Hin), Nat.eqb_refl.
      reflexivity.
    + rewrite Forall_forall in Hrect. apply (Hrect row0 Hin).
Qed.

(** [find_in_coord_list_pbc] returns, in increasing order, exactly the
    positions of the rows that match the coordinate up to an integer
    translation along each periodic axis; [in_coord_list_pbc] tells whether
    there is such a row. *)
Theorem find_in_coord_list_pbc_matches (L : list (list Q)) (coord : list Q)
    (atol : Q) (pbc : list bool) :
  Forall (fun r => length r = length coord) L ->
  length pbc = length coord ->
  exists inds b,
    find_in_coord_list_pbc L coord atol pbc = Ok inds /\
    in_coord_list_pbc L coord atol pbc = Ok b /\
    StronglySorted lt inds /\
    (forall i, In i inds <->
       exists row, nth_error L i = Some row /\
                   pbc_within atol pbc row coord) /\
    (b = true <-> exists row, In row L /\ pbc_within atol pbc row coord).
Proof.
  intros Hrect Hp.
  pose proof (find_in_coord_list_pbc_value L coord atol pbc Hrect Hp) as E.
  set (inds := np_where (map (fun row => pbc_withinb atol pbc row coord) L))
    in *.
  assert (Hin : forall i, In i inds <->
            exists row, nth_error L i = Some row /\
                        pbc_within atol pbc row coord).
  { intro i. unfold inds. rewrite np_where_In, nth_error_map. split.
    - destruct (nth_error L i) as [row|] eqn:Ei; [|discriminate].
      simpl. intros [= Hw]. exists row. split; [reflexivity|].
      apply pbc_withinb_within; [|exact Hp|exact Hw].
      rewrite Forall_forall in Hrect. apply Hrect.
      apply (nth_error_In _ _ Ei).
    - intros (row & Ei & Hw). rewrite Ei. simpl. f_equal.
      apply pbc_withinb_within; [|exact Hp|exact Hw].
      rewrite Forall_forall in Hrect. apply Hrect.
      apply (nth_error_In _ _ Ei). }
  exists inds, (Nat.ltb 0 (length inds)).
  split; [exact E|].
  split; [unfold in_coord_list_pbc; rewrite E; reflexivity|].
  split; [apply where_from_sorted|]. split; [exact Hin|].
  rewrite Nat.ltb_lt. split.
  - intro Hpos. destruct inds as [|i rest]; [simpl in Hpos; lia|].
    destruct (proj1 (Hin i) (or_introl eq_refl)) as (row & Ei & Hw).
    exists row. split; [apply (nth_error_In _ _ Ei) | exact Hw].
  - intros (row & Hr & Hw). apply In_nth_error in Hr as (i & Ei).
    assert (Hi : In i inds) by (apply Hin; eauto).
    destruct inds; [destruct Hi | simpl; lia].
Qed.

Lemma find_in_coord_list_pbc_matches_witness :
  exists inds b,
    find_in_coord_list_pbc [[1#10; 0; 0]; [11#10; -1; 3]] [1#10; 1; 0]
      default_atol [true; true; true] = Ok inds /\
    in_coord_list_pbc [[1#10; 0; 0]; [11#10; -1; 3]] [1#10; 1; 0]
      default_atol [true; true; true] = Ok b /\
    StronglySorted lt inds /\
    (forall i, In i inds <->
       exists row,
         nth_error [[1#10; 0; 0]; [11#10; -1; 3]] i = Some row /\
         pbc_within default_atol [true; true; true] row [1#10; 1; 0]) /\
    (b = true <->
     exists row, In row [[1#10; 0; 0]; [11#10; -1; 3]] /\
                 pbc_within default_atol [true; true; true] row [1#10; 1; 0]).
Proof.
  apply (find_in_coord_list_pbc_matches [[1#10; 0; 0]; [11#10; -1; 3]]
           [1#10; 1; 0] default_atol [true; true; true]).
  - repeat constructor.
  - reflexivity.
Defined.

(** Moving the coordinate by whole lattice vectors along periodic axes does
    not change what the periodic search returns. *)
Theorem find_in_coord_list_pbc_shift (L : list (list Q)) (coord : list Q)
    (shift : list Z) (atol : Q) (pbc : list bool) :
  Forall (fun r => length r = length coord) L ->
  length pbc = length coord -> length shift = length coord ->
  (forall i, nth i pbc false = false -> nth i shift 0%Z = 0%Z) ->
  find_in_coord_list_pbc L
    (map2 (fun x z => x + inject_Z z) coord shift) atol pbc
  = find_in_coord_list_pbc L coord atol pbc.
Proof.
  intros Hrect Hp Hs Hz.
  set (coord' := map2 (fun x z => x + inject_Z z) coord shift).
  assert (Lc : length coord' = length coord)
    by (unfold coord'; rewrite map2_length; lia).
  rewrite !find_in_coord_list_pbc_value; try assumption; try lia.
  2:{ rewrite Lc. exact Hrect. }
  f_equal. f_equal. apply map_ext_in. intros row Hin.
  assert (Hr : length row = length coord)
    by (rewrite Forall_forall in Hrect; apply Hrect, Hin).
  apply eq_true_iff_eq.
  rewrite !pbc_withinb_within by lia. unfold pbc_within. rewrite Lc.
  assert (Hn : forall i, (i < length coord)%nat ->
            nth i coord' 0 = nth i coord 0 + inject_Z (nth i shift 0%Z)).
  { intros i Hi. unfold coord'.
    rewrite (nth_map2 (fun x z => x + inject_Z z) coord shift i 0 0%Z 0)
      by lia.
    reflexivity. }
  split; intros H i Hi; specialize (H i Hi); rewrite ?(Hn i Hi) in *;
    destruct (nth i pbc false) eqn:Eb.
  - destruct H as (k & H). exists (k + nth i shift 0)%Z.
    rewrite inject_Z_plus.
    erewrite Qabs_wd; [exact H|]. ring.
  - rewrite (Hz i Eb) in H. erewrite Qabs_wd; [exact H|].
    change (inject_Z 0) with 0. ring.
  - destruct H as (k & H). exists (k - nth i shift 0)%Z.
    unfold Z.sub. rewrite inject_Z_plus, inject_Z_opp.
    erewrite Qabs_wd; [exact H|]. ring.
  - rewrite (Hz i Eb). erewrite Qabs_wd; [exact H|].
    change (inject_Z 0) with 0. ring.
Qed.

Lemma find_in_coord_list_pbc_shift_witness :
  find_in_coord_list_pbc [[1#10; 0; 0]; [1#2; 1#2; 0]]
    (map2 (fun x z => x + inject_Z z) [1#10; 1; 0] [3; -2; 0]%Z)
    default_atol [true; true; false]
  = find_in_coord_list_pbc [[1#10; 0; 0]; [1#2; 1#2; 0]] [1#10; 1; 0]
      default_atol [true; true; false].
Proof.
  apply (find_in_coord_list_pbc_shift [[1#10; 0; 0]; [1#2; 1#2; 0]]
           [1#10; 1; 0] [3; -2; 0]%Z default_atol [true; true; false]).
  - repeat constructor.
  - reflexivity.
  - reflexivity.
  - intros [|[|[|[|i]]]]; simpl; intro E; try discriminate; reflexivity.
Defined.

(** The periodic search finds whatever the plain search finds, and without
    a periodic axis the two return the same. *)
Theorem find_in_coord_list_pbc_includes (L : list (list Q)) (coord : list Q)
    (atol : Q) (pbc : list bool) :
  Forall (fun r => length r = length coord) L ->
  length pbc = length coord ->
  exists plain periodic,
    find_in_coord_list L coord atol = Ok plain /\
    find_in_coord_list_pbc L coord atol pbc = Ok periodic /\
    incl plain periodic /\
    (Forall (fun b => b = false) pbc -> periodic = plain).
Proof.
  intros Hrect Hp.
  rewrite (find_in_coord_list_value L coord atol Hrect).
  rewrite (find_in_coord_list_pbc_value L coord atol pbc Hrect Hp).
  eexists. eexists. split; [reflexivity|]. split; [reflexivity|].
  assert (Hrow : forall row, In row L -> length row = length coord)
    by (rewrite Forall_forall in Hrect; exact Hrect).
  split.
  - intros i Hi. rewrite np_where_In, nth_error_map in *.
    destruct (nth_error L i) as [row|] eqn:Ei; [|discriminate].
    simpl in *. injection Hi as Hi. f_equal.
    pose proof (Hrow row (nth_error_In _ _ Ei)) as Hr.
    apply pbc_withinb_within; [exact Hr | exact Hp |].
    apply withinb_within in Hi; [|exact Hr].
    intros j Hj. unfold within in Hi.
    assert (Hd : Qabs (nth j row 0 - nth j coord 0) < atol).
    { clear - Hi Hj. revert j Hj. induction Hi as [|a b row coord Hab _ IH];
        intros j Hj; simpl in Hj; [lia|].
      destruct j; [exact Hab | apply IH; lia]. }
    destruct (nth j pbc false); [|exact Hd].
    exists 0%Z. erewrite Qabs_wd; [exact Hd|].
    change (inject_Z 0) with 0. ring.
  - intro Hall. f_equal. apply map_ext_in. intros row Hin.
    pose proof (Hrow row Hin) as Hr.
    unfold pbc_withinb, withinb. f_equal.
    assert (Hl : length (map2 Qminus row coord) = length pbc)
      by (rewrite map2_length; lia).
    revert Hl. generalize (map2 Qminus row coord) as l. clear - Hall.
    induction Hall as [|b pbc Hb Hall IH]; intros [|x l] Hl; simpl in *;
      try discriminate; try reflexivity.
    rewrite IH, Hb by lia. reflexivity.
Qed.

Lemma find_in_coord_list_pbc_includes_witness :
  exists plain periodic,
    find_in_coord_list [[1#10; 0; 0]; [11#10; 0; 0]] [1#10; 0; 0]
      default_atol = Ok plain /\
    find_in_coord_list_pbc [[1#10; 0; 0]; [11#10; 0; 0]] [1#10; 0; 0]
      default_atol [true; true; true] = Ok periodic /\
    incl plain periodic /\
    (Forall (fun b => b = false) [true; true; true] -> periodic = plain).
Proof.
  apply (find_in_coord_list_pbc_includes [[1#10; 0; 0]; [11#10; 0; 0]]
           [1#10; 0; 0] default_atol [true; true; true]).
  - repeat constructor.
  - reflexivity.
Defined.

(** ** [pbc_diff]: minimum image and antisymmetry *)

(** On a tie the rounding goes to the even neighbour. *)
Lemma py_round_tie_even (x : Q) :
  Qabs (x - inject_Z (py_round x)) == 1#2 -> Z.even (py_round x) = true.
Proof.
  unfold py_round.
  pose proof (Qfloor_le x) as Hlo.
  pose proof (Qlt_floor x) as Hhi.
  rewrite inject_Z_plus in Hhi. change (inject_Z 1) with 1 in Hhi.
  set (f := Qfloor x) in *.
  destruct (Qcompare (x - inject_Z f) (1#2)) eqn:E.
  - intros _. destruct (Z.even f) eqn:Ev; [exact Ev|].
    rewrite Z.even_add, Ev. reflexivity.
  - rewrite <- Qlt_alt in E. intro H. exfalso. revert H.
    apply Qabs_case; intros ? ?; lra.
  - rewrite <- Qgt_alt in E. rewrite inject_Z_plus.
    change (inject_Z 1) with 1. intro H. exfalso. revert H.
    apply Qabs_case; intros ? ?; lra.
Qed.

(** Rounding half to even is an odd function. *)
Lemma py_round_opp (x : Q) : py_round (- x) = (- py_round x)%Z.
Proof.
  pose proof (np_round_dist x) as [H1 H2].
  pose proof (np_round_dist (- x)) as [H3 H4].
  pose proof (py_round_tie_even x) as T1.
  pose proof (py_round_tie_even (- x)) as T2.
  unfold np_round in *.
  set (r := py_round x) in *. set (r' := py_round (- x)) in *.
  assert (Hs : (-1 <= r + r' <= 1)%Z).
  { split.
    - apply Z.lt_pred_le. rewrite Zlt_Qlt. unfold Z.pred.
      rewrite !inject_Z_plus. change (inject_Z (-1)) with (-1).
      change (inject_Z (-1 + -1)) with (-2). lra.
    - apply Z.lt_succ_r. rewrite Zlt_Qlt. unfold Z.succ.
      rewrite !inject_Z_plus. change (inject_Z 1) with 1. lra. }
  assert (Hc : (r + r' = -1 \/ r + r' = 0 \/ r + r' = 1)%Z) by lia.
  destruct Hc as [Hc | [Hc | Hc]]; [| lia |].
  - assert (Hq : inject_Z r + inject_Z r' == -1).
    { rewrite <- inject_Z_plus, Hc. reflexivity. }
    assert (E1 : Z.even r = true).
    { apply T1. apply Qabs_case; intros ?; lra. }
    assert (E2 : Z.even r' = true).
    { apply T2. apply Qabs_case; intros ?; lra. }
    assert (E3 : Z.even (r + r') = true)
      by (rewrite Z.even_add, E1, E2; reflexivity).
    rewrite Hc in E3. discriminate.
  - assert (Hq : inject_Z r + inject_Z r' == 1).
    { rewrite <- inject_Z_plus, Hc. reflexivity. }
    assert (E1 : Z.even r = true).
    { apply T1. apply Qabs_case; intros ?; lra. }
    assert (E2 : Z.even r' = true).
    { apply T2. apply Qabs_case; intros ?; lra. }
    assert (E3 : Z.even (r + r') = true)
      by (rewrite Z.even_add, E1, E2; reflexivity).
    rewrite Hc in E3. discriminate.
Qed.

Lemma py_round_wd (x y : Q) : x == y -> py_round x = py_round y.
Proof.
  intro E. unfold py_round. rewrite (Qfloor_comp _ _ E).
  assert (E' : x - inject_Z (Qfloor y) == y - inject_Z (Qfloor y))
    by (rewrite E; reflexivity).
  rewrite (Qcompare_comp _ _ E' (1#2) (1#2) (Qeq_refl _)). reflexivity.
Qed.

Lemma pbc_diff_value (fc1 fc2 : list Q) (pbc : list bool) :
  length fc1 = length pbc -> length fc2 = length pbc ->
  pbc_diff fc1 fc2 pbc =
  Ok (map2 Qminus (map2 Qminus fc1 fc2)
        (map2 (fun d b => np_round d * Qbool b) (map2 Qminus fc1 fc2) pbc)).
Proof.
  intros H1 H2. unfold pbc_diff.
  assert (L1 : length (map2 Qminus fc1 fc2) = length pbc)
    by (rewrite map2_length; congruence).
  assert (L2 : length (map2 (fun d b => np_round d * Qbool b)
                         (map2 Qminus fc1 fc2) pbc) = length pbc)
    by (rewrite map2_length; congruence).
  rewrite broadcast1_same by congruence. cbn [bind].
  rewrite broadcast1_same by congruence. cbn [bind].
  rewrite broadcast1_same by congruence.
  reflexivity.
Qed.

Lemma pbc_diff_nth (fc1 fc2 : list Q) (pbc : list bool) (i : nat) :
  length fc1 = length pbc -> length fc2 = length pbc ->
  (i < length pbc)%nat ->
  nth i (map2 Qminus (map2 Qminus fc1 fc2)
           (map2 (fun d b => np_round d * Qbool b)
              (map2 Qminus fc1 fc2) pbc)) 0
  = (nth i fc1 0 - nth i fc2 0)
    - np_round (nth i fc1 0 - nth i fc2 0) * Qbool (nth i pbc false).
Proof.
  intros H1 H2 Hi.
  assert (L1 : length (map2 Qminus fc1 fc2) = length pbc)
    by (rewrite map2_length; congruence).
  assert (L2 : length (map2 (fun d b => np_round d * Qbool b)
                         (map2 Qminus fc1 fc2) pbc) = length pbc)
    by (rewrite map2_length; congruence).
  rewrite (nth_map2 Qminus _ _ i 0 0 0) by lia.
  rewrite (nth_map2 (fun d b => np_round d * Qbool b) _ _ i 0 false 0)
    by lia.
  rewrite (nth_map2 Qminus fc1 fc2 i 0 0 0) by lia.
  reflexivity.
Qed.

(** Minimum image: along a periodic axis [pbc_diff] returns the difference
    moved by a whole number, and no other whole number brings it closer to
    zero; along the other axes it returns the difference itself. *)
Theorem pbc_diff_minimum_image (fc1 fc2 : list Q) (pbc : list bool) :
  length fc1 = length pbc -> length fc2 = length pbc ->
  exists out,
    pbc_diff fc1 fc2 pbc = Ok out /\
    forall i, (i < length pbc)%nat ->
      let d := nth i fc1 0 - nth i fc2 0 in
      if nth i pbc false
      then (exists m : Z, nth i out 0 == d - inject_Z m) /\
           (forall k : Z, Qabs (nth i out 0) <= Qabs (d - inject_Z k))
      else nth i out 0 == d.
Proof.
  intros H1 H2. eexists. split; [apply pbc_diff_value; assumption|].
  intros i Hi d. rewrite (pbc_diff_nth fc1 fc2 pbc i H1 H2 Hi). fold d.
  destruct (nth i pbc false); unfold Qbool.
  - split.
    + exists (py_round d). unfold np_round. ring.
    + intro k.
      assert (E : d - np_round d * 1 == d - np_round d) by ring.
      rewrite (Qabs_wd _ _ E). apply np_round_nearest.
  - ring.
Qed.

Lemma pbc_diff_minimum_image_witness :
  exists out,
    pbc_diff [9#10; 1#10; 101#100] [3#10; 1#2; 9#10] [true; true; false]
      = Ok out /\
    forall i, (i < length [true; true; false])%nat ->
      let d := nth i [9#10; 1#10; 101#100] 0 - nth i [3#10; 1#2; 9#10] 0 in
      if nth i [true; true; false] false
      then (exists m : Z, nth i out 0 == d - inject_Z m) /\
           (forall k : Z, Qabs (nth i out 0) <= Qabs (d - inject_Z k))
      else nth i out 0 == d.
Proof.
  apply (pbc_diff_minimum_image [9#10; 1#10; 101#100] [3#10; 1#2; 9#10]
           [true; true; false]); reflexivity.
Defined.

(** Exchanging the two coordinates negates the result. *)
Theorem pbc_diff_antisymmetric (fc1 fc2 : list Q) (pbc : list bool) :
  length fc1 = length pbc -> length fc2 = length pbc ->
  exists out out',
    pbc_diff fc1 fc2 pbc = Ok out /\
    pbc_diff fc2 fc1 pbc = Ok out' /\
    Forall2 (fun a b => a == - b) out' out.
Proof.
  intros H1 H2. eexists. eexists.
  split; [apply pbc_diff_value; assumption|].
  split; [apply pbc_diff_value; assumption|].
  assert (L : forall u v, length u = length pbc -> length v = length pbc ->
            length (map2 Qminus (map2 Qminus u v)
                      (map2 (fun d b => np_round d * Qbool b)
                         (map2 Qminus u v) pbc)) = length pbc).
  { intros u v Hu Hv.
    assert (A1 : length (map2 Qminus u v) = length pbc)
      by (rewrite map2_length; congruence).
    assert (A2 : length (map2 (fun d b => np_round d * Qbool b)
                           (map2 Qminus u v) pbc) = length pbc)
      by (rewrite map2_length; congruence).
    rewrite map2_length; congruence. }
  assert (G : forall l l' : list Q, length l = length l' ->
            (forall i, (i < length l)%nat -> nth i l 0 == - nth i l' 0) ->
            Forall2 (fun a b => a == - b) l l').
  { clear. induction l as [|a l IH]; intros [|b l'] Hl Hn; simpl in *;
      try discriminate; constructor.
    - apply (Hn 0%nat). lia.
    - apply IH; [lia|]. intros i Hi. apply (Hn (S i)). lia. }
  apply G; [rewrite !L; congruence|].
  rewrite L by assumption. intros i Hi.
  rewrite !pbc_diff_nth by assumption.
  assert (E : nth i fc2 0 - nth i fc1 0 == - (nth i fc1 0 - nth i fc2 0))
    by ring.
  unfold np_round. rewrite (py_round_wd _ _ E), py_round_opp, inject_Z_opp.
  ring.
Qed.

Lemma pbc_diff_antisymmetric_witness :
  exists out out',
    pbc_diff [1#2; 1#10] [0; 3#5] [true; true] = Ok out /\
    pbc_diff [0; 3#5] [1#2; 1#10] [true; true] = Ok out' /\
    Forall2 (fun a b => a == - b) out' out.
Proof.
  apply (pbc_diff_antisymmetric [1#2; 1#10] [0; 3#5] [true; true]);
    reflexivity.
Defined.

(** ** More on linear interpolation *)

Lemma sorted_app_inv {A : Type} (R : A -> A -> Prop) (l1 l2 : list A) (a : A) :
  StronglySorted R (l1 ++ a :: l2) ->
  (forall q, In q l1 -> R q a) /\ (forall q, In q l2 -> R a q).
Proof.
  induction l1 as [|b l1 IH]; simpl; intro Hs.
  - inversion Hs as [|? ? _ Hall]; subst. split; [intros q []|].
    rewrite Forall_forall in Hall. exact Hall.
  - inversion Hs as [|? ? Hs' Hall]; subst. destruct (IH Hs') as [I1 I2].
    split; [|exact I2]. intros q [<- | Hq]; [|apply I1, Hq].
    rewrite Forall_forall in Hall. apply Hall. apply in_or_app. right.
    left. reflexivity.
Qed.

Lemma in_combine_nth (xs ys : list Q) (p : Q * Q) :
  In p (combine xs ys) ->
  exists i, nth_error xs i = Some (fst p) /\ nth_error ys i = Some (snd p).
Proof.
  revert ys. induction xs as [|x xs IH]; intros [|y ys] H; simpl in H;
    try contradiction.
  destruct H as [<- | H].
  - exists 0%nat. split; reflexivity.
  - destruct (IH ys H) as (i & H1 & H2). exists (S i). split; assumption.
Qed.

Lemma nth_in_combine (xs ys : list Q) (i : nat) (a b : Q) :
  nth_error xs i = Some a -> nth_error ys i = Some b ->
  In (a, b) (combine xs ys).
Proof.
  revert ys i. induction xs as [|x xs IH]; intros [|y ys] [|i] H1 H2;
    simpl in *; try discriminate.
  - injection H1 as ->. injection H2 as ->. left. reflexivity.
  - right. apply (IH ys i); assumption.
Qed.

(** The value on a segment lies between the values at its two ends. *)
Lemma segment_between (x x1 x2 y1 y2 : Q) :
  x1 <= x < x2 ->
  Qmin y1 y2 <= y1 + (y2 - y1) / (x2 - x1) * (x - x1) <= Qmax y1 y2.
Proof.
  intros [Hlo Hhi].
  set (t := (x - x1) / (x2 - x1)).
  assert (Hd : 0 < x2 - x1) by lra.
  assert (Ht0 : 0 <= t) by (apply Qle_shift_div_l; [exact Hd | lra]).
  assert (Ht1 : t <= 1) by (apply Qle_shift_div_r; [exact Hd | lra]).
  assert (E : y1 + (y2 - y1) / (x2 - x1) * (x - x1) == y1 + (y2 - y1) * t).
  { unfold t. field. lra. }
  rewrite E. clearbody t. clear E Hd Hlo Hhi.
  destruct (Qlt_le_dec y1 y2) as [H | H].
  - rewrite (proj2 (Q.min_l_iff y1 y2)), (proj2 (Q.max_r_iff y1 y2)) by lra.
    split; nra.
  - rewrite (proj2 (Q.min_r_iff y1 y2)), (proj2 (Q.max_l_iff y1 y2)) by lra.
    split; nra.
Qed.

(** A returned value is interpolated, never extrapolated: [x] lies between
    two of the [x_values], and the result between the smaller and the larger
    of two of the [y_values]. *)
Theorem interpolation_within_data (xs ys : list Q) (x v : Q) :
  length xs = length ys ->
  get_linear_interpolated_value xs ys x = Ok v ->
  exists x1 x2 y1 y2,
    In x1 xs /\ In x2 xs /\ In y1 ys /\ In y2 ys /\
    x1 <= x < x2 /\ Qmin y1 y2 <= v <= Qmax y1 y2.
Proof.
  intros Hlen Hv.
  assert (Hne : xs <> []).
  { intros ->. destruct ys; [|discriminate]. discriminate Hv. }
  destruct (interpolated_value_cases xs ys x Hlen Hne)
    as [[_ E] | (l1 & p1 & p2 & l2 & Harr & Hx & E)]; [congruence|].
  rewrite E in Hv. injection Hv as <-.
  assert (H1 : In p1 (combine xs ys)).
  { apply (Permutation_in _ (sorted_by_key_perm _)). rewrite Harr.
    apply in_or_app. right. left. reflexivity. }
  assert (H2 : In p2 (combine xs ys)).
  { apply (Permutation_in _ (sorted_by_key_perm _)). rewrite Harr.
    apply in_or_app. right. right. left. reflexivity. }
  exists (fst p1), (fst p2), (snd p1), (snd p2).
  destruct p1 as [x1 y1], p2 as [x2 y2]. simpl in *.
  split; [apply (in_combine_l _ _ _ _ H1)|].
  split; [apply (in_combine_l _ _ _ _ H2)|].
  split; [apply (in_combine_r _ _ _ _ H1)|].
  split; [apply (in_combine_r _ _ _ _ H2)|].
  split; [exact Hx|]. apply segment_between. exact Hx.
Qed.

Lemma interpolation_within_data_witness :
  exists x1 x2 y1 y2,
    In x1 [0; 2; 1] /\ In x2 [0; 2; 1] /\
    In y1 [0; 4; 3] /\ In y2 [0; 4; 3] /\
    x1 <= 3#2 < x2 /\ Qmin y1 y2 <= 7#2 <= Qmax y1 y2.
Proof.
  apply (interpolation_within_data [0; 2; 1] [0; 4; 3] (3#2) (7#2)).
  - reflexivity.
  - vm_compute. reflexivity.
Defined.

(** With pairwise distinct [x_values], the interpolation passes through the
    data: at an [x] of the data that is not the largest one, the
    corresponding [y] is returned. *)
Theorem interpolation_at_data_point (xs ys : list Q) (k : nat) (x xk yk : Q) :
  length xs = length ys ->
  (forall i j a b, nth_error xs i = Some a -> nth_error xs j = Some b ->
                   a == b -> i = j) ->
  nth_error xs k = Some xk -> nth_error ys k = Some yk ->
  x == xk ->
  (exists a, In a xs /\ x < a) ->
  exists v, get_linear_interpolated_value xs ys x = Ok v /\ v == yk.
Proof.
  intros Hlen Hinj Hxk Hyk Hx (a & Ha & Hxa).
  assert (Hne : xs <> []) by (intros ->; destruct Ha).
  destruct (interpolated_value_cases xs ys x Hlen Hne)
    as [[[Hall | Hall] _] | (l1 & p1 & p2 & l2 & Harr & [Hlo Hhi] & E)].
  - exfalso. rewrite Forall_forall in Hall.
    pose proof (Hall xk (nth_error_In _ _ Hxk)). lra.
  - exfalso. rewrite Forall_forall in Hall.
    pose proof (Hall a Ha). lra.
  - eexists. split; [exact E|].
    pose proof (sorted_by_key_sorted (combine xs ys)) as Hs.
    rewrite Harr in Hs.
    destruct (sorted_app_inv key_le l1 (p2 :: l2) p1 Hs) as [Hbefore Hafter].
    assert (Hq : In (xk, yk) (l1 ++ p1 :: p2 :: l2)).
    { rewrite <- Harr.
      apply (Permutation_in _ (Permutation_sym (sorted_by_key_perm _))).
      apply (nth_in_combine xs ys k); assumption. }
    assert (Hp1 : In p1 (combine xs ys)).
    { apply (Permutation_in _ (sorted_by_key_perm _)). rewrite Harr.
      apply in_or_app. right. left. reflexivity. }
    assert (Hkey : fst p1 == xk).
    { apply in_app_or in Hq as [Hq | [Hq | Hq]].
      - pose proof (Hbefore _ Hq) as Hle. unfold key_le in Hle. simpl in Hle.
        lra.
      - rewrite Hq. reflexivity.
      - exfalso.
        assert (Hle : fst p2 <= xk).
        { destruct Hq as [Hq | Hq]; [rewrite Hq; apply Qle_refl|].
          change (l1 ++ p1 :: p2 :: l2) with (l1 ++ [p1] ++ p2 :: l2) in Hs.
          rewrite app_assoc in Hs.
          destruct (sorted_app_inv key_le _ l2 p2 Hs) as [_ Hafter2].
          apply (Hafter2 _ Hq). }
        lra. }
    destruct (in_combine_nth xs ys p1 Hp1) as (i & Hi1 & Hi2).
    assert (i = k) by (apply (Hinj i k (fst p1) xk); assumption). subst i.
    assert (Ey : snd p1 = yk) by congruence. rewrite Ey.
    assert (Ez : x - fst p1 == 0) by lra.
    rewrite Ez. ring.
Qed.

Lemma interpolation_at_data_point_witness :
  exists v, get_linear_interpolated_value [0; 2; 1] [0; 4; 3] 1 = Ok v
            /\ v == 3.
Proof.
  apply (interpolation_at_data_point [0; 2; 1] [0; 4; 3] 2 1 1 3).
  - reflexivity.
  - intros [|[|[|i]]] [|[|[|j]]] a b Hi Hj E; simpl in Hi, Hj;
      try reflexivity;
      try (destruct i; discriminate); try (destruct j; discriminate);
      injection Hi as <-; injection Hj as <-; discriminate E.
  - reflexivity.
  - reflexivity.
  - reflexivity.
  - exists 2. split; [simpl; auto | reflexivity].
Defined.

(** Sequences of different lengths are refused with a [ValueError], whatever
    [x] is. *)
Theorem interpolation_length_mismatch (xs ys : list Q) (x : Q) :
  length xs <> length ys ->
  exists msg, get_linear_interpolated_value xs ys x = Raise (ValueError msg).
Proof.
  intro H. unfold get_linear_interpolated_value.
  assert (G : exists msg, zip_strict xs ys = Raise (ValueError msg)).
  { revert ys H. induction xs as [|a xs IH]; intros [|b ys] H; simpl in *;
      try (eexists; reflexivity); [congruence|].
    destruct (IH ys) as (msg & E); [congruence|]. rewrite E. simpl. eauto. }
  destruct G as (msg & E). rewrite E. simpl. eauto.
Qed.

Lemma interpolation_length_mismatch_witness :
  exists msg,
    get_linear_interpolated_value [0; 1; 2] [0; 1] (1#2)
    = Raise (ValueError msg).
Proof.
  apply (interpolation_length_mismatch [0; 1; 2] [0; 1] (1#2)).
  discriminate.
Defined.

(** ** [barycentric_coords] reconstructs the coordinates *)













(** ** Equality of simplices ignores the order of the vertices *)

Lemma close_refl (a : Q) : close a a.
Proof.
  unfold close. assert (E : a - a == 0) by ring.
  rewrite (Qabs_wd _ _ E). pose proof (Qabs_nonneg a) as Ha.
  unfold default_atol, default_rtol. simpl Qabs at 1.
  assert (H0 : 0 <= (1 # 100000) * Qabs a) by nra. lra.
Qed.

(** Two simplices built from the same vertices, in whatever order, compare
    equal; in particular a simplex equals itself. *)
Theorem simplex_eq_permutation (c1 c2 : list (list Q)) (s1 s2 : Simplex.t) :
  Simplex.__init__ c1 = Ok s1 -> Simplex.__init__ c2 = Ok s2 ->
  Permutation c1 c2 ->
  Simplex.__eq__ s1 s2 = Ok true.
Proof.
  intros H1 H2 HP.
  apply init_inv in H1 as (E1 & _ & _ & _ & R1 & _).
  apply init_inv in H2 as (E2 & _ & _ & _ & _).
  unfold Simplex.__eq__, Simplex.coords. rewrite E1, E2.
  assert (R2 : Forall (fun r => length r = ncols c1) c2)
    by (apply (Permutation_Forall HP); exact R1).
  assert (Hall : forall p, Permutation c1 p ->
            exists b, np_allclose p c2 default_atol = Ok b /\
                      (b = true <-> Forall2 (Forall2 close) p c2)).
  { intros p Hp. apply (np_allclose_same_shape (ncols c1)).
    - rewrite <- (Permutation_length Hp). apply (Permutation_length HP).
    - apply (Permutation_Forall Hp). exact R1.
    - exact R2. }
  apply any_gen_true.
  - intros p Hin. apply permutations_spec in Hin.
    destruct (Hall p Hin) as (b & Hb & _). eauto.
  - exists c2. split; [apply permutations_spec; exact HP|].
    destruct (Hall c2 HP) as (b & Hb & Hc). rewrite Hb. f_equal.
    apply Hc. clear. induction c2 as [|r t IH]; constructor; [|exact IH].
    induction r as [|a r IHr]; constructor; [apply close_refl | exact IHr].
Qed.

Lemma simplex_eq_permutation_witness :
  exists s1 s2,
    Simplex.__init__ triangle = Ok s1 /\
    Simplex.__init__ triangle_turned = Ok s2 /\
    Simplex.__eq__ s1 s2 = Ok true.
Proof.
  assert (H1 : exists s, Simplex.__init__ triangle = Ok s)
    by (eexists; vm_compute; reflexivity).
  assert (H2 : exists s, Simplex.__init__ triangle_turned = Ok s)
    by (eexists; vm_compute; reflexivity).
  destruct H1 as [s1 E1]. destruct H2 as [s2 E2]. exists s1, s2.
  split; [exact E1|]. split; [exact E2|].
  apply (simplex_eq_permutation triangle triangle_turned s1 s2 E1 E2).
  unfold triangle, triangle_turned.
  apply Permutation_sym.
  apply (Permutation_cons_app [[0; 0]; [1; 0]] [] [0; 1]). reflexivity.
Defined.

(** ** Any mapping that [coord_list_mapping] returns *)

(** Whatever is returned holds one index for each point of the subset, each
    index is a position of the superset, and the row there is close to a
    point of the subset. *)
Theorem coord_list_mapping_shape (d : nat) (subset superset : list (list Q))
    (atol : Q) (inds : list nat) :
  Forall (fun r => length r = d) subset ->
  Forall (fun r => length r = d) superset ->
  coord_list_mapping subset superset atol = Ok inds ->
  length inds = length subset /\
  forall j, In j inds ->
    (j < length superset)%nat /\
    exists r1, In r1 subset /\ close_rows atol r1 (nth j superset []).
Proof.
  intros R1 R2 H.
  assert (N1 : subset <> []).
  { intros ->. unfold coord_list_mapping in H.
    rewrite (np_array_ok _ _ R2) in H. discriminate H. }
  assert (N2 : superset <> []).
  { intros ->. unfold coord_list_mapping in H.
    rewrite (np_array_ok _ _ R1) in H. cbn [bind np_array] in H.
    destruct subset; discriminate H. }
  rewrite (coord_list_mapping_value d) in H by assumption. cbv zeta in H.
  set (inds' := flat_map
         (fun r1 => np_where (map (fun r2 => closeb atol r1 r2) superset))
         subset) in *.
  apply bind_ok in H as (same & _ & H). apply bind_ok in H as (miss & _ & H).
  destruct miss; [discriminate|].
  destruct (shape_eqb _ _ _ _) eqn:Es; [|discriminate].
  injection H as <-. unfold shape_eqb in Es.
  apply andb_true_iff in Es as [Es _]. apply Nat.eqb_eq in Es.
  rewrite length_map in Es. split; [exact Es|].
  intros j Hj. unfold inds' in Hj. apply in_flat_map in Hj as (r1 & H1 & Hj).
  apply np_where_In in Hj. rewrite nth_error_map in Hj.
  destruct (nth_error superset j) as [r2|] eqn:Ej; [|discriminate].
  simpl in Hj. injection Hj as Hj. split.
  - apply nth_error_Some. congruence.
  - exists r1. split; [exact H1|]. rewrite (nth_error_nth _ _ [] Ej).
    apply closeb_close_rows; [|exact Hj].
    rewrite Forall_forall in R1, R2.
    rewrite (R1 r1 H1), (R2 r2 (nth_error_In _ _ Ej)). reflexivity.
Qed.

Lemma coord_list_mapping_shape_witness :
  length [1; 2]%nat = length subset5 /\
  forall j, In j [1; 2]%nat ->
    (j < length superset5)%nat /\
    exists r1, In r1 subset5 /\ close_rows tol10 r1 (nth j superset5 []).
Proof.
  apply (coord_list_mapping_shape 3 subset5 superset5 tol10 [1; 2]%nat).
  - repeat constructor.
  - repeat constructor.
  - vm_compute. reflexivity.
Defined.

(** ** Interpolation: order of the data, data on a line *)

Lemma sorted_by_key_unique (l1 l2 : list (Q * Q)) :
  StronglySorted key_le l1 -> StronglySorted key_le l2 ->
  Permutation l1 l2 ->
  (forall p q, In p l1 -> In q l1 -> fst p == fst q -> p = q) ->
  l1 = l2.
Proof.
  revert l2. induction l1 as [|p t1 IH]; intros l2 S1 S2 HP Hd.
  - apply Permutation_nil in HP. congruence.
  - destruct l2 as [|q t2];
      [apply Permutation_sym, Permutation_nil in HP; discriminate|].
    assert (Hq : In q (p :: t1))
      by (apply (Permutation_in _ (Permutation_sym HP)); left; reflexivity).
    assert (Hp : In p (q :: t2))
      by (apply (Permutation_in _ HP); left; reflexivity).
    pose proof (sorted_head_min _ _ _ S1 Hq) as L1.
    pose proof (sorted_head_min _ _ _ S2 Hp) as L2.
    assert (E : p = q).
    { apply Hd; [left; reflexivity | exact Hq | apply Qle_antisym; assumption]. }
    subst q. f_equal. apply IH.
    + inversion S1; assumption.
    + inversion S2; assumption.
    + apply (Permutation_cons_inv HP).
    + intros a b Ha Hb. apply Hd; right; assumption.
Qed.

(** The order in which the data points are given does not matter, as long
    as no [x] comes with two different [y]. *)
Theorem interpolation_order_independent (xs ys xs' ys' : list Q) (x : Q) :
  length xs = length ys -> length xs' = length ys' ->
  Permutation (combine xs ys) (combine xs' ys') ->
  (forall p q, In p (combine xs ys) -> In q (combine xs ys) ->
               fst p == fst q -> p = q) ->
  get_linear_interpolated_value xs' ys' x
  = get_linear_interpolated_value xs ys x.
Proof.
  intros H1 H2 HP Hd. unfold get_linear_interpolated_value.
  rewrite (zip_strict_ok _ _ H1), (zip_strict_ok _ _ H2). cbn [bind].
  replace (sorted_by_key (combine xs' ys'))
    with (sorted_by_key (combine xs ys)); [reflexivity|].
  apply sorted_by_key_unique.
  - apply sorted_by_key_sorted.
  - apply sorted_by_key_sorted.
  - rewrite !sorted_by_key_perm. exact HP.
  - intros p q Hp Hq. apply Hd.
    + apply (Permutation_in _ (sorted_by_key_perm _)). exact Hp.
    + apply (Permutation_in _ (sorted_by_key_perm _)). exact Hq.
Qed.

Lemma interpolation_order_independent_witness :
  get_linear_interpolated_value [2; 0; 1] [4; 0; 3] (3#2)
  = get_linear_interpolated_value [0; 1; 2] [0; 3; 4] (3#2).
Proof.
  apply (interpolation_order_independent [0; 1; 2] [0; 3; 4]
           [2; 0; 1] [4; 0; 3] (3#2)).
  - reflexivity.
  - reflexivity.
  - simpl.
    apply (Permutation_cons_app [(2, 4)] [(1, 3)] (0, 0)).
    simpl. apply perm_swap.
  - simpl. intros p q [<- | [<- | [<- | []]]] [<- | [<- | [<- | []]]] E;
      try reflexivity; discriminate E.
Defined.

(** Data on a straight line are interpolated exactly. *)
Theorem interpolation_exact_on_line (xs ys : list Q) (m q x v : Q) :
  Forall2 (fun a b => b == m * a + q) xs ys ->
  get_linear_interpolated_value xs ys x = Ok v ->
  v == m * x + q.
Proof.
  intros HF Hv. pose proof (Forall2_length HF) as Hlen.
  assert (Hne : xs <> []).
  { intros ->. destruct ys; [|discriminate]. discriminate Hv. }
  assert (Hline : forall p, In p (combine xs ys) -> snd p == m * fst p + q).
  { clear - HF. induction HF as [|a b xs ys Hab _ IH]; intros p Hp;
      simpl in Hp; [destruct Hp|].
    destruct Hp as [<- | Hp]; [exact Hab | apply IH, Hp]. }
  destruct (interpolated_value_cases xs ys x Hlen Hne)
    as [[_ E] | (l1 & p1 & p2 & l2 & Harr & [Hlo Hhi] & E)]; [congruence|].
  rewrite E in Hv. injection Hv as <-.
  assert (H1 : In p1 (combine xs ys)).
  { apply (Permutation_in _ (sorted_by_key_perm _)). rewrite Harr.
    apply in_or_app. right. left. reflexivity. }
  assert (H2 : In p2 (combine xs ys)).
  { apply (Permutation_in _ (sorted_by_key_perm _)). rewrite Harr.
    apply in_or_app. right. right. left. reflexivity. }
  rewrite (Hline p1 H1), (Hline p2 H2). field. lra.
Qed.

Lemma interpolation_exact_on_line_witness :
  exists v,
    get_linear_interpolated_value [4; 0; 2] [13; 1; 7] (5#2) = Ok v /\
    v == 3 * (5#2) + 1.
Proof.
  eexists. split; [vm_compute; reflexivity|].
  apply (interpolation_exact_on_line [4; 0; 2] [13; 1; 7] 3 1 (5#2)).
  - repeat (constructor; [reflexivity|]). constructor.
  - vm_compute. reflexivity.
Defined.
